(** * eventsourcing: recorders, repository and notification log

    A shallow embedding of [eventsourcing/postgresrecorders.py] and
    [eventsourcing/application.py].  Python values are modelled by their
    mathematical counterparts: an [int] is a [Z], a [str] is a [string]
    (one character per code point below 256), [None] is [option]'s [None],
    a raised exception is the [Raise] branch of [result].  The Postgres
    database behind a recorder is a record of tables; every SQL statement
    of the source is a function on it. *)

From Stdlib Require Import ZArith List Lia Bool String Ascii.
From Stdlib.Strings Require Import Byte.
From Stdlib Require Import Sorted Permutation DecimalString.
From Stdlib Require Decimal DecimalPos.
Import ListNotations.
Open Scope Z_scope.

(** ** Python primitives used by the source *)

Definition UUID := N.

(** The exceptions that the two modules raise or let through. *)
Inductive exn : Type :=
| IndexError
| ValueError
| AttributeError
| AggregateNotFound (aggregate_id : UUID) (version : option Z)
| IntegrityError            (* the recorder's own [self.IntegrityError] *)
| psycopg2_IntegrityError   (* a unique or primary key violation *)
| psycopg2_DataError.       (* a value outside its type, a negative LIMIT *)

Inductive result (A : Type) : Type :=
| Ok (a : A)
| Raise (e : exn).
Arguments Ok {A} a.
Arguments Raise {A} e.

Module Py.

(** Characters that [int()] strips: the ASCII white space of C and, of the
    code points 128..255, NEXT LINE and NO-BREAK SPACE. *)
Definition is_space (c : ascii) : bool :=
  let n := Z.of_nat (nat_of_ascii c) in
  ((9 <=? n) && (n <=? 13)) || (n =? 32) || (n =? 133) || (n =? 160).

Definition digit_of (c : ascii) : option Z :=
  let n := Z.of_nat (nat_of_ascii c) in
  if (48 <=? n) && (n <=? 57) then Some (n - 48) else None.

Fixpoint lstrip (s : string) : string :=
  match s with
  | String c s' => if is_space c then lstrip s' else s
  | EmptyString => EmptyString
  end.

Fixpoint all_space (s : string) : bool :=
  match s with
  | String c s' => is_space c && all_space s'
  | EmptyString => true
  end.

(** The digits after the first one: a single underscore may separate two
    digits; only white space may follow the last digit. *)
Fixpoint digits (acc : Z) (s : string) : option Z :=
  match s with
  | EmptyString => Some acc
  | String c s' =>
      match digit_of c with
      | Some d => digits (acc * 10 + d) s'
      | None =>
          if Ascii.eqb c "_"%char then
            match s' with
            | String c' s'' =>
                match digit_of c' with
                | Some d => digits (acc * 10 + d) s''
                | None => None
                end
            | EmptyString => None
            end
          else if all_space s then Some acc
          else None
      end
  end.

Definition unsigned (s : string) : option Z :=
  match s with
  | String c s' =>
      match digit_of c with
      | Some d => digits d s'
      | None => None
      end
  | EmptyString => None
  end.

(** [int(s)] for a [str] argument, base ten.  (The cap on the number of
    digits that later interpreters add is not modelled.) *)
Definition int (s : string) : result Z :=
  let body :=
    match lstrip s with
    | String c s' =>
        if Ascii.eqb c "-"%char then option_map Z.opp (unsigned s')
        else if Ascii.eqb c "+"%char then unsigned s'
        else unsigned (String c s')
    | EmptyString => None
    end in
  match body with
  | Some z => Ok z
  | None => Raise ValueError
  end.

(** [s.split(",")]: never empty. *)
Fixpoint split_comma (s : string) : list string :=
  match s with
  | EmptyString => [EmptyString]
  | String c s' =>
      if Ascii.eqb c ","%char then EmptyString :: split_comma s'
      else match split_comma s' with
           | p :: ps => String c p :: ps
           | [] => [String c EmptyString]
           end
  end.

(** [parts[i]] for a non-negative literal index. *)
Definition index {A : Type} (l : list A) (i : nat) : result A :=
  match nth_error l i with
  | Some a => Ok a
  | None => Raise IndexError
  end.

(** [str(z)], as ["{}".format(z)] renders an [int]. *)
Definition str (z : Z) : string :=
  NilZero.string_of_int (Z.to_int z).

End Py.

(** ** A state and exception monad

    [M S A] is a computation over a state [S] that returns an [A] or raises;
    the state reached is kept in both cases. *)

Definition M (S A : Type) : Type := S -> result A * S.

Definition ret {S A : Type} (a : A) : M S A := fun s => (Ok a, s).

Definition raise {S A : Type} (e : exn) : M S A := fun s => (Raise e, s).

Definition bind {S A B : Type} (m : M S A) (k : A -> M S B) : M S B :=
  fun s =>
    match m s with
    | (Ok a, s') => k a s'
    | (Raise e, s') => (Raise e, s')
    end.

Notation "x <- m ;; k" := (bind m (fun x => k))
  (at level 61, m at next level, right associativity).
Notation "m ;;; k" := (bind m (fun _ => k))
  (at level 61, right associativity).

(** [try: m except e1 => raise e2]. *)
Definition try_except {S A : Type} (m : M S A) (caught : exn -> bool) (e2 : exn)
  : M S A :=
  fun s =>
    match m s with
    | (Raise e, s') => if caught e then (Raise e2, s') else (Raise e, s')
    | ok => ok
    end.

(** A value that is already a [result] (a pure call that may raise). *)
Definition lift {S A : Type} (r : result A) : M S A := fun s => (r, s).

(** ** Records of the persistence layer *)

Module StoredEvent.
Record t : Type := make {
  originator_id : UUID;
  originator_version : Z;
  topic : string;
  state : list byte
}.
End StoredEvent.

Module Notification.
Record t : Type := make {
  id : Z;
  originator_id : UUID;
  originator_version : Z;
  topic : string;
  state : list byte
}.
End Notification.

Module Tracking.
Record t : Type := make {
  application_name : string;
  notification_id : Z
}.
End Tracking.

(** ** The database behind a recorder

    [events_table] holds the rows of [<name>events] in heap order, with the
    columns of [PostgresAggregateRecorder._create_table] and the [rowid]
    column that [PostgresApplicationRecorder._create_table] adds;
    [rowid_seq] is the last value the SERIAL sequence of [rowid] handed
    out; [tracking_table] holds the rows of [<name>tracking].  The table
    of a [PostgresAggregateRecorder] has no [rowid] column: its rows are
    numbered all the same, by a counter that is no sequence of the
    database, and its statements never read the number. *)

Record Row : Type := mkRow {
  rowid : Z;
  event : StoredEvent.t
}.

Record Database : Type := mkDatabase {
  events_table : list Row;
  rowid_seq : Z;
  tracking_table : list Tracking.t
}.

Definition empty_database : Database := mkDatabase [] 0 [].

Module Sql.

(** The range of a column declared [integer] or [int]. *)
Definition in_integer (z : Z) : bool := (- 2 ^ 31 <=? z) && (z <? 2 ^ 31).

Fixpoint insert_by {A : Type} (before : A -> A -> bool) (x : A) (l : list A)
  : list A :=
  match l with
  | [] => [x]
  | y :: l' => if before x y then x :: l else y :: insert_by before x l'
  end.

Fixpoint sort_by {A : Type} (before : A -> A -> bool) (l : list A) : list A :=
  match l with
  | [] => []
  | x :: l' => insert_by before x (sort_by before l')
  end.

(** [ORDER BY key ASC] and [ORDER BY key DESC]. *)
Definition order_by {A : Type} (key : A -> Z) (desc : bool) (l : list A)
  : list A :=
  sort_by (fun a b => if desc then key b <=? key a else key a <=? key b) l.

(** [LIMIT n]: the row count is a [bigint], and Postgres refuses a
    negative one and one that does not fit. *)
Definition limit {A : Type} (n : Z) (l : list A) : result (list A) :=
  if (n <? 0) || (2 ^ 63 <=? n) then Raise psycopg2_DataError
  else Ok (firstn (Z.to_nat n) l).

(** [SELECT MAX(col)]: NULL over no rows. *)
Definition max (l : list Z) : option Z :=
  match l with
  | [] => None
  | z :: l' => Some (fold_left Z.max l' z)
  end.

End Sql.

(** [x or 0] for the optional integer that [fetchone()[0]] holds. *)
Definition or_zero (x : option Z) : Z :=
  match x with
  | None => 0
  | Some z => if z =? 0 then 0 else z
  end.

(** ** postgresrecorders.py *)

Module PostgresDatabase.

(** [self.c.rollback()]: the rows written since the last commit are
    dropped; a sequence keeps the values it has handed out. *)
Definition rollback (committed working : Database) : Database :=
  mkDatabase (events_table committed) (rowid_seq working)
             (tracking_table committed).

(** [with self.db.transaction() as c: body]: [__exit__] rolls back when the
    body raised and commits otherwise; the exception propagates. *)
Definition transaction {A : Type} (body : M Database A) : M Database A :=
  fun db =>
    match body db with
    | (Raise e, working) => (Raise e, rollback db working)
    | (Ok a, working) => (Ok a, working)
    end.

End PostgresDatabase.

(** What psycopg2 does with the parameters of a statement. *)
Module Psycopg2.

(** A [str] parameter that holds the character NUL is refused, with
    [ValueError], before the statement is sent. *)
Fixpoint has_nul (s : string) : bool :=
  match s with
  | EmptyString => false
  | String c s' => Ascii.eqb c zero || has_nul s'
  end.

End Psycopg2.

(** The statements that the recorders send through a cursor. *)
Module Cursor.

Definition same_key (e : StoredEvent.t) (r : Row) : bool :=
  (StoredEvent.originator_id (event r) =? StoredEvent.originator_id e)%N
  && (StoredEvent.originator_version (event r)
      =? StoredEvent.originator_version e).

(** [INSERT INTO <events> VALUES (%s, %s, %s, %s)] for one tuple, on a
    table that has the [rowid] column ([rowid_column], the table of an
    application or process recorder) or has not (the table of an aggregate
    recorder).  The topic is a [str] parameter; the version must fit its
    [integer] column; [rowid] takes the next value of its sequence, which
    must fit the 32 bits of a SERIAL; the primary key and the unique index
    on [rowid] are checked against the rows already there. *)
Definition insert_event (rowid_column : bool) (e : StoredEvent.t)
  : M Database unit :=
  fun w =>
    if Psycopg2.has_nul (StoredEvent.topic e)
    then (Raise ValueError, w)
    else if negb (Sql.in_integer (StoredEvent.originator_version e))
    then (Raise psycopg2_DataError, w)
    else
      let rid := rowid_seq w + 1 in
      if rowid_column && negb (Sql.in_integer rid)
      then (Raise psycopg2_DataError, w)
      else if existsb (fun r => same_key e r
                                || (rowid_column && (rowid r =? rid)))
                      (events_table w)
      then (Raise psycopg2_IntegrityError,
            mkDatabase (events_table w) rid (tracking_table w))
      else (Ok tt,
            mkDatabase (events_table w ++ [mkRow rid e]) rid
                       (tracking_table w)).

(** [c.executemany(statement, params)]: one execution per tuple, in order,
    stopping at the first that raises. *)
Fixpoint executemany {P : Type} (statement : P -> M Database unit)
  (params : list P) : M Database unit :=
  match params with
  | [] => ret tt
  | p :: ps => statement p ;;; executemany statement ps
  end.

Definition same_tracking (t r : Tracking.t) : bool :=
  String.eqb (Tracking.application_name r) (Tracking.application_name t)
  && (Tracking.notification_id r =? Tracking.notification_id t).

(** [INSERT INTO <tracking> VALUES (%s, %s)]: the name is a [str]
    parameter, and the id must fit its [int] column. *)
Definition insert_tracking (t : Tracking.t) : M Database unit :=
  fun w =>
    if Psycopg2.has_nul (Tracking.application_name t)
    then (Raise ValueError, w)
    else if negb (Sql.in_integer (Tracking.notification_id t))
    then (Raise psycopg2_DataError, w)
    else if existsb (same_tracking t) (tracking_table w)
    then (Raise psycopg2_IntegrityError, w)
    else (Ok tt,
          mkDatabase (events_table w) (rowid_seq w) (tracking_table w ++ [t])).

End Cursor.

Definition is_psycopg2_IntegrityError (e : exn) : bool :=
  match e with
  | psycopg2_IntegrityError => true
  | _ => false
  end.

Module PostgresAggregateRecorder.

(** [_insert_events], which the subclasses inherit: [rowid_column] tells
    whether [self] is of a subclass whose [_create_table] adds the [rowid]
    column to [self.events_table]. *)
Definition _insert_events_on (rowid_column : bool)
  (stored_events : list StoredEvent.t) (tracking : option Tracking.t)
  : M Database unit :=
  let params := stored_events in
  try_except (Cursor.executemany (Cursor.insert_event rowid_column) params)
             is_psycopg2_IntegrityError IntegrityError.

(** [_insert_events] of a [PostgresAggregateRecorder] itself. *)
Definition _insert_events := _insert_events_on false.

(** [insert_events] calls [self._insert_events], which a subclass
    overrides: the method is a parameter here. *)
Definition insert_events_with
  (self_insert_events : list StoredEvent.t -> option Tracking.t -> M Database unit)
  (stored_events : list StoredEvent.t) (tracking : option Tracking.t)
  : M Database unit :=
  PostgresDatabase.transaction (self_insert_events stored_events tracking).

Definition insert_events := insert_events_with _insert_events.

(** The WHERE clause that [select_events] assembles. *)
Definition where_ (originator_id : UUID) (gt lte : option Z) (r : Row) : bool :=
  (StoredEvent.originator_id (event r) =? originator_id)%N
  && match gt with
     | Some g => g <? StoredEvent.originator_version (event r)
     | None => true
     end
  && match lte with
     | Some l => StoredEvent.originator_version (event r) <=? l
     | None => true
     end.

(** The SELECT that [select_events] assembles, on the rows it sees. *)
Definition select_events_query (originator_id : UUID) (gt lte : option Z)
  (desc : bool) (limit : option Z) (rows : list Row) : result (list Row) :=
  let ordered :=
    Sql.order_by (fun r => StoredEvent.originator_version (event r)) desc
                 (filter (where_ originator_id gt lte) rows) in
  match limit with
  | Some n => Sql.limit n ordered
  | None => Ok ordered
  end.

Definition select_events (originator_id : UUID) (gt lte : option Z)
  (desc : bool) (limit : option Z) : M Database (list StoredEvent.t) :=
  PostgresDatabase.transaction
    (fun w =>
       (match select_events_query originator_id gt lte desc limit
                                  (events_table w) with
        | Ok rows => Ok (map event rows)
        | Raise e => Raise e
        end, w)).

End PostgresAggregateRecorder.

Module PostgresApplicationRecorder.

(** The inherited [_insert_events] and [insert_events], on the table with
    the [rowid] column. *)
Definition _insert_events := PostgresAggregateRecorder._insert_events_on true.

Definition insert_events :=
  PostgresAggregateRecorder.insert_events_with _insert_events.

Definition notification_of (r : Row) : Notification.t :=
  Notification.make (rowid r)
    (StoredEvent.originator_id (event r))
    (StoredEvent.originator_version (event r))
    (StoredEvent.topic (event r))
    (StoredEvent.state (event r)).

(** [SELECT * FROM <events> WHERE rowid>=%s ORDER BY rowid LIMIT %s]. *)
Definition select_notifications_query (start limit : Z) (rows : list Row)
  : result (list Row) :=
  Sql.limit limit (Sql.order_by rowid false
                                (filter (fun r => start <=? rowid r) rows)).

Definition select_notifications (start limit : Z)
  : M Database (list Notification.t) :=
  PostgresDatabase.transaction
    (fun w =>
       (match select_notifications_query start limit (events_table w) with
        | Ok rows => Ok (map notification_of rows)
        | Raise e => Raise e
        end, w)).

Definition max_notification_id : M Database Z :=
  fun db => (Ok (or_zero (Sql.max (map rowid (events_table db)))), db).

End PostgresApplicationRecorder.

Module PostgresProcessRecorder.

Definition max_tracking_id (application_name : string) : M Database Z :=
  fun db =>
    if Psycopg2.has_nul application_name then (Raise ValueError, db)
    else
      (Ok (or_zero
             (Sql.max
                (map Tracking.notification_id
                     (filter (fun r => String.eqb (Tracking.application_name r)
                                                  application_name)
                             (tracking_table db))))), db).

Definition _insert_events (stored_events : list StoredEvent.t)
  (tracking : option Tracking.t) : M Database unit :=
  PostgresApplicationRecorder._insert_events stored_events tracking ;;;
  match tracking with
  | Some t =>
      try_except (Cursor.insert_tracking t)
                 is_psycopg2_IntegrityError IntegrityError
  | None => ret tt
  end.

Definition insert_events :=
  PostgresAggregateRecorder.insert_events_with _insert_events.

End PostgresProcessRecorder.

(** ** application.py *)

(** The dataclass [Section] of the notification log. *)
Module LogSection.
Record t : Type := make {
  id : option string;
  items : list Notification.t;
  next_id : option string
}.
End LogSection.

Module LocalNotificationLog.

Definition DEFAULT_SECTION_SIZE : Z := 10.

(** The log's recorder is the database that the monad threads. *)
Record t : Type := make {
  section_size : Z
}.

Definition format_section_id (first limit : Z) : string :=
  (Py.str first ++ "," ++ Py.str limit)%string.

(** [__getitem__]. *)
Definition getitem (self : t) (section_id : string) : M Database LogSection.t :=
  (* Interpret the section ID. *)
  let parts := Py.split_comma section_id in
  parts0 <- lift (Py.index parts 0) ;;
  part1 <- lift (Py.int parts0) ;;
  parts1 <- lift (Py.index parts 1) ;;
  part2 <- lift (Py.int parts1) ;;
  let start := Z.max 1 part1 in
  let limit := Z.min (Z.max 0 (part2 - start + 1)) (section_size self) in
  (* Select notifications. *)
  notifications <- PostgresApplicationRecorder.select_notifications start limit ;;
  (* Get next section ID. *)
  let '(return_id, next_id) :=
    match notifications with
    | first :: _ =>
        let last_id := Notification.id (last notifications first) in
        let return_id := format_section_id (Notification.id first) last_id in
        if Z.of_nat (List.length notifications) =? limit then
          let next_start := last_id + 1 in
          (Some return_id,
           Some (format_section_id next_start (next_start + limit - 1)))
        else (Some return_id, None)
    | [] => (None, None)
    end in
  (* Return a section of the notification log. *)
  ret (LogSection.make return_id notifications next_id).

End LocalNotificationLog.

(** The interface of [eventsourcing.domain] that [application.py] uses.
    Domain events and snapshots are handled in their stored form: [mutate]
    is the [mutate] method of the object that the mapper decodes from a
    stored event, and [take] is [Snapshot.take] followed by the mapper's
    encoding. *)
Class Domain : Type := {
  Aggregate : Type;
  aggregate_id : Aggregate -> UUID;
  aggregate_version : Aggregate -> Z;
  mutate : StoredEvent.t -> option Aggregate -> Aggregate;
  take : Aggregate -> StoredEvent.t
}.

(** The stores of a repository: the recorder database behind each. *)
Record Stores : Type := mkStores {
  event_store : Database;
  snapshot_store : option Database
}.

Definition on_event_store {A : Type} (m : M Database A) : M Stores A :=
  fun st =>
    let '(r, db) := m (event_store st) in
    (r, mkStores db (snapshot_store st)).

Module EventStore.

(** Modelled from the spec: [EventStore] of eventsourcing.persistence is
    not among the sources.  [get] forwards to the recorder's
    [select_events] and [put] to its [insert_events]; the mapper's decoding
    and encoding are part of [mutate] and [take]. *)
Definition get (originator_id : UUID) (gt lte : option Z) (desc : bool)
  (limit : option Z) : M Database (list StoredEvent.t) :=
  PostgresAggregateRecorder.select_events originator_id gt lte desc limit.

(** Modelled from the spec: [EventStore.put], absent like [get]; it hands
    the encoded events to the [insert_events] of the store's recorder,
    with no tracking. *)
Definition put
  (recorder_insert_events :
     list StoredEvent.t -> option Tracking.t -> M Database unit)
  (events : list StoredEvent.t) : M Database unit :=
  recorder_insert_events events None.

End EventStore.

Module Repository.
Section WithDomain.
Context {D : Domain}.

(** The first part of [get]: the lower bound [gt] and the list
    [domain_events] after the attempt to get a snapshot. *)
Definition try_snapshot (aggregate_id : UUID) (version : option Z)
  : M Stores (option Z * list StoredEvent.t) :=
  fun st =>
    match snapshot_store st with
    | Some sdb =>
        match EventStore.get aggregate_id None version true (Some 1) sdb with
        | (Ok snapshots, sdb') =>
            (Ok match snapshots with
                | snapshot :: _ =>
                    (Some (StoredEvent.originator_version snapshot), [snapshot])
                | [] => (None, [])
                end,
             mkStores (event_store st) (Some sdb'))
        | (Raise e, sdb') => (Raise e, mkStores (event_store st) (Some sdb'))
        end
    | None => (Ok (None, []), st)
    end.

(** The projection loop of [get]. *)
Definition project (domain_events : list StoredEvent.t) : option Aggregate :=
  fold_left (fun aggregate domain_event => Some (mutate domain_event aggregate))
            domain_events None.

Definition get (aggregate_id : UUID) (version : option Z)
  : M Stores Aggregate :=
  (* Try to get a snapshot. *)
  found <- try_snapshot aggregate_id version ;;
  let '(gt, domain_events) := found in
  (* Get the domain events. *)
  events <- on_event_store (EventStore.get aggregate_id gt version false None) ;;
  let domain_events := (domain_events ++ events)%list in
  (* Project the domain events. *)
  match project domain_events with
  | None => raise (AggregateNotFound aggregate_id version)
  | Some aggregate => ret aggregate
  end.

End WithDomain.
End Repository.

Module Application.
Section WithDomain.
Context {D : Domain}.

(** [save], from the pending events that the aggregates hand over;
    [self.events] is on the application recorder. *)
Definition save (events : list StoredEvent.t) : M Stores unit :=
  on_event_store
    (EventStore.put PostgresApplicationRecorder.insert_events events).

(** [self.snapshots.put([snapshot])]; [self.snapshots] is [None] when
    snapshotting is not enabled, and on an aggregate recorder otherwise. *)
Definition snapshots_put (events : list StoredEvent.t) : M Stores unit :=
  fun st =>
    match snapshot_store st with
    | Some sdb =>
        let '(r, sdb') :=
          EventStore.put PostgresAggregateRecorder.insert_events events sdb in
        (r, mkStores (event_store st) (Some sdb'))
    | None => (Raise AttributeError, st)
    end.

Definition take_snapshot (aggregate_id : UUID) (version : option Z)
  : M Stores unit :=
  aggregate <- Repository.get aggregate_id version ;;
  let snapshot := take aggregate in
  snapshots_put [snapshot].

End WithDomain.
End Application.

(** ** The connections of [PostgresDatabase] *)

Module PostgresConnections.

(** A connection object: the parameters it was opened with, and a serial
    number for its identity, each call of [psycopg2.connect] giving a new
    object. *)
Record connection : Type := mkConnection {
  dbname : string;
  host : string;
  user : string;
  password : string;
  serial : nat
}.

(** [os.getenv(name, default)] in an environment. *)
Definition getenv (env : string -> option string) (name default : string)
  : string :=
  match env name with
  | Some value => value
  | None => default
  end.

(** The dict [self.connections], keyed by thread identifier, and the number
    of connections opened so far. *)
Record t : Type := make {
  connections : list (Z * connection);
  opened : nat
}.

(** [__init__]. *)
Definition init : t := make [] 0.

(** [d[k]], [None] standing for [KeyError]. *)
Fixpoint lookup (d : list (Z * connection)) (k : Z) : option connection :=
  match d with
  | [] => None
  | (k', c) :: d' => if k' =? k then Some c else lookup d' k
  end.

(** [d[k] = c]. *)
Fixpoint assign (d : list (Z * connection)) (k : Z) (c : connection)
  : list (Z * connection) :=
  match d with
  | [] => [(k, c)]
  | (k', c') :: d' =>
      if k' =? k then (k, c) :: d' else (k', c') :: assign d' k c
  end.

Definition create_connection (env : string -> option string)
  : t -> connection * t :=
  fun s =>
    (* Make a connection to a Postgres database. *)
    let dbname := getenv env "POSTGRES_DBNAME" "eventsourcing" in
    let host := getenv env "POSTGRES_HOST" "127.0.0.1" in
    let user := getenv env "POSTGRES_USER" "eventsourcing" in
    let password := getenv env "POSTGRES_PASSWORD" "eventsourcing" in
    let c := mkConnection dbname host user password (opened s) in
    (c, make (connections s) (S (opened s))).

(** [get_connection], for the thread [thread_id] that calls it. *)
Definition get_connection (env : string -> option string) (thread_id : Z)
  : t -> connection * t :=
  fun s =>
    match lookup (connections s) thread_id with
    | Some c => (c, s)
    | None =>
        let '(c, s1) := create_connection env s in
        (c, make (assign (connections s1) thread_id c) (opened s1))
    end.

End PostgresConnections.

(** * Vocabulary of the statements *)

(** No comma occurs in the string. *)
Fixpoint no_comma (s : string) : bool :=
  match s with
  | EmptyString => true
  | String c s' => negb (Ascii.eqb c ",") && no_comma s'
  end.

(** The version column of a row. *)
Definition version_of (r : Row) : Z := StoredEvent.originator_version (event r).

(** The rows of a stream up to an optional version, oldest first. *)
Definition stream_rows (db : Database) (aggregate_id : UUID) (gt lte : option Z)
  : list Row :=
  Sql.order_by version_of false
    (filter (PostgresAggregateRecorder.where_ aggregate_id gt lte)
            (events_table db)).

(** The row of the latest snapshot that [get] may use, if any. *)
Definition latest_snapshot (st : Stores) (aggregate_id : UUID)
  (version : option Z) : list Row :=
  match snapshot_store st with
  | Some sdb =>
      firstn 1 (Sql.order_by version_of true
                  (filter (PostgresAggregateRecorder.where_
                             aggregate_id None version)
                          (events_table sdb)))
  | None => []
  end.

(** The rows of the snapshot store, none when there is no such store. *)
Definition snapshot_rows (st : Stores) : list Row :=
  match snapshot_store st with
  | Some sdb => events_table sdb
  | None => []
  end.

(** What the log does with a section id that reads as [first] and
    [last_]: it selects from [start] with [limit], both as computed here,
    and returns the section of what was selected, or lets through the
    [DataError] of a limit that the database does not take as a row count;
    the start is at least 1, the limit is between 0 and the section size,
    and a range that ends before its start gives the empty section. *)
Definition interprets (self : LocalNotificationLog.t) (section_id : string)
  (first last_ : Z) (db : Database) : Prop :=
  let start := Z.max 1 first in
  let limit := Z.min (Z.max 0 (last_ - start + 1))
                     (LocalNotificationLog.section_size self) in
  (limit < 2 ^ 63 ->
   exists sec,
      LocalNotificationLog.getitem self section_id db = (Ok sec, db) /\
      PostgresApplicationRecorder.select_notifications start limit db =
        (Ok (LogSection.items sec), db)) /\
  (2 ^ 63 <= limit ->
   LocalNotificationLog.getitem self section_id db =
     (Raise psycopg2_DataError, db) /\
   PostgresApplicationRecorder.select_notifications start limit db =
     (Raise psycopg2_DataError, db)) /\
  1 <= start /\ (first <= 0 -> start = 1) /\
  0 <= limit <= LocalNotificationLog.section_size self /\
  (last_ < start ->
   limit = 0 /\
   LocalNotificationLog.getitem self section_id db =
     (Ok (LogSection.make None [] None), db)).

(** The section that [__getitem__] builds from the notifications it
    selected with [limit]. *)
Definition section_from (limit : Z) (notifications : list Notification.t)
  : LogSection.t :=
  match notifications with
  | first :: _ =>
      let last_id := Notification.id (last notifications first) in
      LogSection.make
        (Some (LocalNotificationLog.format_section_id
                 (Notification.id first) last_id))
        notifications
        (if Z.of_nat (List.length notifications) =? limit
         then Some (LocalNotificationLog.format_section_id
                      (last_id + 1) (last_id + 1 + limit - 1))
         else None)
  | [] => LogSection.make None [] None
  end.

(** The id and the next id of a section, from the ids of its items. *)
Definition section_ids (limit : Z) (ids : list Z)
  : option string * option string :=
  match ids with
  | first :: _ =>
      let last_id := last ids first in
      (Some (LocalNotificationLog.format_section_id first last_id),
       if Z.of_nat (List.length ids) =? limit
       then Some (LocalNotificationLog.format_section_id
                    (last_id + 1) (last_id + 1 + limit - 1))
       else None)
  | [] => (None, None)
  end.

(** The rows that a successful [executemany] adds: the events in order,
    numbered from the sequence. *)
Fixpoint number_rows (seq : Z) (events : list StoredEvent.t) : list Row :=
  match events with
  | [] => []
  | e :: es => mkRow (seq + 1) e :: number_rows (seq + 1) es
  end.

(** An append is all or nothing: either it returns and the tables hold
    exactly the old rows followed by [rows] and [marks], or it raises and
    both tables are as before. *)
Definition all_or_nothing (append : M Database unit) (db : Database)
  (rows : list Row) (marks : list Tracking.t) : Prop :=
  (exists db', append db = (Ok tt, db') /\
               events_table db' = events_table db ++ rows /\
               tracking_table db' = tracking_table db ++ marks) \/
  (exists x db', append db = (Raise x, db') /\
                 events_table db' = events_table db /\
                 tracking_table db' = tracking_table db).

(** What [application.py] relies on from [eventsourcing.domain]: an event
    leaves the aggregate with the event's id and version; a snapshot is
    taken at the aggregate's id and version, and its [mutate] gives back
    the aggregate it was taken from. *)
Class DomainLaws (D : Domain) : Prop := {
  mutate_id : forall e prior,
    aggregate_id (mutate e prior) = StoredEvent.originator_id e;
  mutate_version : forall e prior,
    aggregate_version (mutate e prior) = StoredEvent.originator_version e;
  take_id : forall a, StoredEvent.originator_id (take a) = aggregate_id a;
  take_version : forall a,
    StoredEvent.originator_version (take a) = aggregate_version a;
  take_mutate : forall a prior, mutate (take a) prior = a
}.

(** The left fold of [mutate] over the events of an aggregate up to an
    optional version, oldest first, from no aggregate: the replay from
    scratch. *)
Definition replay {D : Domain} (db : Database) (aggregate_id : UUID)
  (version : option Z) : option Aggregate :=
  fold_left (fun aggregate domain_event => Some (mutate domain_event aggregate))
            (map event (stream_rows db aggregate_id None version)) None.

(** New events continue their streams: each is above every stored version
    of its aggregate. *)
Definition continues (db : Database) (events : list StoredEvent.t) : Prop :=
  forall e r, In e events -> In r (events_table db) ->
    StoredEvent.originator_id (event r) = StoredEvent.originator_id e ->
    StoredEvent.originator_version (event r) < StoredEvent.originator_version e.

(** The states of an application's stores: from any event store and no
    snapshot, by [save] of events that continue their streams and by
    [take_snapshot]. *)
Inductive reachable {D : Domain} : Stores -> Prop :=
| reachable_init (db : Database) (snapshotting : bool) :
    reachable (mkStores db (if snapshotting then Some empty_database else None))
| reachable_save (st : Stores) (events : list StoredEvent.t) :
    reachable st ->
    continues (event_store st) events ->
    reachable (snd (Application.save events st))
| reachable_take_snapshot (st : Stores) (aggregate_id : UUID)
    (version : option Z) :
    reachable st ->
    reachable (snd (Application.take_snapshot aggregate_id version st)).

(** Every stored snapshot carries the replay of its aggregate up to its
    version. *)
Definition faithful {D : Domain} (st : Stores) : Prop :=
  forall s, In s (snapshot_rows st) ->
    replay (event_store st) (StoredEvent.originator_id (event s))
           (Some (version_of s)) = Some (mutate (event s) None).

(** The constraints of the events table: the primary key
    [(originator_id, originator_version)] and the unique index on
    [rowid]. *)
Definition key_of (r : Row) : UUID * Z :=
  (StoredEvent.originator_id (event r), StoredEvent.originator_version (event r)).

Definition constraints_hold (db : Database) : Prop :=
  NoDup (map key_of (events_table db)) /\ NoDup (map rowid (events_table db)).

(** A store with gaps: the ids 1, 2, 5 and 7. *)
Definition store_with_gaps : Database :=
  mkDatabase
    (map (fun i => mkRow i (StoredEvent.make 1%N i "T" [])) [1; 2; 5; 7]) 7 [].

(** A domain to run the scenario of the specification: an aggregate is its
    id, its version and the payloads applied so far; a snapshot carries
    them. *)
Definition journal : Domain := {|
  Aggregate := UUID * Z * list byte;
  aggregate_id := fun a => fst (fst a);
  aggregate_version := fun a => snd (fst a);
  mutate := fun e prior =>
    (StoredEvent.originator_id e, StoredEvent.originator_version e,
     if String.eqb (StoredEvent.topic e) "Snapshot" then StoredEvent.state e
     else (match prior with Some a => snd a | None => [] end
           ++ StoredEvent.state e)%list);
  take := fun a => StoredEvent.make (fst (fst a)) (snd (fst a)) "Snapshot" (snd a)
|}.

(** The event of aggregate 161 at version [n]. *)
Definition P (n : Z) (payload : byte) : StoredEvent.t :=
  StoredEvent.make 161%N n "Event" [payload].

(** Versions 1, 2 and 3 of aggregate 161, with a snapshot taken when the
    aggregate was at version 2. *)
Definition scenario : Stores :=
  snd (Application.save [P 3 x03]
    (snd (Application.take_snapshot (D := journal) 161%N None
      (snd (Application.save [P 1 x01; P 2 x02]
        (mkStores empty_database (Some empty_database))))))).

(** The primary key of a stored event. *)
Definition event_key (e : StoredEvent.t) : UUID * Z :=
  (StoredEvent.originator_id e, StoredEvent.originator_version e).

(** Every stored row id has been handed out by the sequence. *)
Definition sequence_bound (db : Database) : Prop :=
  Forall (fun r => rowid r <= rowid_seq db) (events_table db).

(** The databases of a recorder: from the empty one, by appends, whether
    they return or raise. *)
Inductive recorded : Database -> Prop :=
| recorded_empty : recorded empty_database
| recorded_append (db : Database) (events : list StoredEvent.t)
    (tracking : option Tracking.t) :
    recorded db ->
    recorded (snd (PostgresProcessRecorder.insert_events events tracking db)).

(** The integers [from + 1, ..., from + n]. *)
Fixpoint ids_after (from : Z) (n : nat) : list Z :=
  match n with
  | O => []
  | S n' => (from + 1) :: ids_after (from + 1) n'
  end.

(** The stored event that a notification carries. *)
Definition stored_of (n : Notification.t) : StoredEvent.t :=
  StoredEvent.make (Notification.originator_id n)
                   (Notification.originator_version n)
                   (Notification.topic n) (Notification.state n).

(** An event that the events table can hold: its topic has no NUL
    character and its version fits the [integer] column. *)
Definition storable (e : StoredEvent.t) : Prop :=
  Psycopg2.has_nul (StoredEvent.topic e) = false /\
  Sql.in_integer (StoredEvent.originator_version e) = true.

(** A tracking row that the tracking table can hold. *)
Definition trackable (t : Tracking.t) : Prop :=
  Psycopg2.has_nul (Tracking.application_name t) = false /\
  Sql.in_integer (Tracking.notification_id t) = true.

(** The notification of a row: the row's id and the four columns of its
    stored event. *)
Definition carries (n : Notification.t) (r : Row) : Prop :=
  Notification.id n = rowid r /\
  Notification.originator_id n = StoredEvent.originator_id (event r) /\
  Notification.originator_version n =
    StoredEvent.originator_version (event r) /\
  Notification.topic n = StoredEvent.topic (event r) /\
  Notification.state n = StoredEvent.state (event r).

(** The connections on record are those opened so far, one per thread:
    no thread identifier occurs twice, and the serial numbers are distinct
    and below the count of opened connections. *)
Definition connections_consistent (s : PostgresConnections.t) : Prop :=
  NoDup (map fst (PostgresConnections.connections s)) /\
  NoDup (map (fun kc => PostgresConnections.serial (snd kc))
             (PostgresConnections.connections s)) /\
  Forall (fun kc => (PostgresConnections.serial (snd kc)
                     < PostgresConnections.opened s)%nat)
         (PostgresConnections.connections s).

(** A recorded database with a gap: an append of two events, an append
    that fails on its second event, and an append of one more event. *)
Definition recorded_with_gap : Database :=
  snd (PostgresProcessRecorder.insert_events
         [StoredEvent.make 3%N 3 "T" []] None
    (snd (PostgresProcessRecorder.insert_events
            [StoredEvent.make 3%N 9 "T" []; StoredEvent.make 3%N 1 "T" []] None
       (snd (PostgresProcessRecorder.insert_events
               [StoredEvent.make 3%N 1 "T" []; StoredEvent.make 3%N 2 "T" []]
               None empty_database))))).

(** * Properties *)

(** ** The Python primitives *)

Example int_examples :
  Py.int " 12 " = Ok 12 /\ Py.int "-3" = Ok (-3) /\ Py.int "1_0" = Ok 10 /\
  Py.int "+ 5" = Raise ValueError /\ Py.int "1__0" = Raise ValueError /\
  Py.int "" = Raise ValueError /\ Py.int "a" = Raise ValueError /\
  Py.int "01" = Ok 1 /\ Py.int "1_" = Raise ValueError /\
  Py.int "5 x" = Raise ValueError.
Proof. repeat split; reflexivity. Qed.

Example split_examples :
  Py.split_comma "1,2,x" = ["1"; "2"; "x"]%string /\
  Py.split_comma "" = [""]%string /\ Py.split_comma "," = [""; ""]%string /\
  Py.str (-3) = "-3"%string /\ Py.str 0 = "0"%string /\
  Py.str 120 = "120"%string.
Proof. repeat split; reflexivity. Qed.

Lemma split_comma_nonempty (s : string) : Py.split_comma s <> [].
Proof.
  destruct s as [|c s]; simpl; [discriminate|].
  destruct (Ascii.eqb c ","%char); [discriminate|].
  destruct (Py.split_comma s); discriminate.
Qed.

Lemma int_raises_ValueError (s : string) (e : exn) :
  Py.int s = Raise e -> e = ValueError.
Proof.
  unfold Py.int.
  destruct (match Py.lstrip s with String _ _ => _ | EmptyString => _ end);
    [discriminate|]. now intros [= <-].
Qed.

(** *** Decimal numerals are read back *)

Lemma digits_step (c : ascii) (d acc : Z) (s : string) :
  Py.digit_of c = Some d ->
  Py.digits acc (String c s) = Py.digits (acc * 10 + d) s.
Proof. intros H. cbn [Py.digits]. now rewrite H. Qed.

Ltac eval_char :=
  repeat match goal with
         | |- context [Z.of_nat (nat_of_ascii ?c)] =>
             let v := eval vm_compute in (Z.of_nat (nat_of_ascii c)) in
             change (Z.of_nat (nat_of_ascii c)) with v
         end.

Lemma digits_of_uint_acc (d : Decimal.uint) (p : positive) :
  Py.digits (Z.pos p) (NilEmpty.string_of_uint d) =
    Some (Z.pos (Pos.of_uint_acc d p)).
Proof.
  revert p. induction d; intros p; cbn [NilEmpty.string_of_uint Pos.of_uint_acc];
    [reflexivity|..];
    (erewrite digits_step by reflexivity); rewrite <- IHd; f_equal;
    eval_char; lia.
Qed.

Lemma digits_of_uint (d : Decimal.uint) :
  Py.digits 0 (NilEmpty.string_of_uint d) = Some (Z.of_N (Pos.of_uint d)).
Proof.
  induction d; cbn [NilEmpty.string_of_uint Pos.of_uint];
    [reflexivity|..];
    (erewrite digits_step by reflexivity); [exact IHd|..];
    cbn [Z.of_N]; rewrite <- digits_of_uint_acc; eval_char; reflexivity.
Qed.

Lemma unsigned_digits (c : ascii) (d : Z) (s : string) :
  Py.digit_of c = Some d ->
  Py.unsigned (String c s) = Py.digits 0 (String c s).
Proof. intros H. cbn [Py.unsigned Py.digits]. now rewrite H. Qed.

(** The first character of a decimal numeral is a digit. *)
Lemma string_of_uint_head (d : Decimal.uint) :
  d <> Decimal.Nil ->
  exists c k s, NilEmpty.string_of_uint d = String c s /\
                Py.digit_of c = Some k.
Proof.
  intros Hd. destruct d; [contradiction|..];
    cbn [NilEmpty.string_of_uint]; do 3 eexists; split; reflexivity.
Qed.

Lemma int_unsigned (c : ascii) (k : Z) (s : string) :
  Py.digit_of c = Some k ->
  Py.int (String c s) =
    match Py.unsigned (String c s) with Some z => Ok z | None => Raise ValueError end /\
  Py.int (String "-" (String c s)) =
    match Py.unsigned (String c s) with Some z => Ok (- z) | None => Raise ValueError end.
Proof.
  intros Hk. unfold Py.digit_of in Hk.
  destruct ((48 <=? Z.of_nat (nat_of_ascii c)) && (Z.of_nat (nat_of_ascii c) <=? 57)) eqn:E;
    [|discriminate].
  apply andb_true_iff in E. destruct E as [E1 E2].
  apply Z.leb_le in E1, E2.
  assert (Hsp : Py.is_space c = false).
  { unfold Py.is_space. cbv zeta.
    repeat match goal with
           | |- context [?a <=? ?b] => destruct (Z.leb_spec a b)
           | |- context [?a =? ?b] => destruct (Z.eqb_spec a b)
           end; simpl; try reflexivity; lia. }
  assert (Hm : Ascii.eqb c "-" = false /\ Ascii.eqb c "+" = false).
  { split; apply Ascii.eqb_neq; intros ->; simpl in *; lia. }
  destruct Hm as [Hm Hp].
  split.
  - unfold Py.int. cbn [Py.lstrip]. rewrite Hsp, Hm, Hp.
    destruct (Py.unsigned _); reflexivity.
  - unfold Py.int. cbn [Py.lstrip].
    change (Py.is_space "-") with false. cbv iota.
    change (Ascii.eqb "-" "-") with true. cbv iota.
    destruct (Py.unsigned _); reflexivity.
Qed.

Lemma int_str (z : Z) : Py.int (Py.str z) = Ok z.
Proof.
  unfold Py.str, Z.to_int. destruct z as [|p|p]; [reflexivity|..];
    cbn [NilZero.string_of_int]; unfold NilZero.string_of_uint;
    pose proof (DecimalPos.Unsigned.to_uint_nonnil p) as Hn;
    destruct (string_of_uint_head _ Hn) as (c & k & s & Hs & Hk);
    pose proof (digits_of_uint (Pos.to_uint p)) as Hd;
    rewrite DecimalPos.Unsigned.of_to in Hd;
    destruct (int_unsigned c k s Hk) as [Hpos Hneg];
    (destruct (Pos.to_uint p); [contradiction|..]);
    rewrite Hs in *; rewrite ?Hpos, ?Hneg, (unsigned_digits c k s Hk), Hd;
    reflexivity.
Qed.

Lemma split_comma_no_comma (s : string) :
  no_comma s = true -> Py.split_comma s = [s].
Proof.
  induction s as [|c s IH]; simpl; [reflexivity|].
  intros H. apply andb_true_iff in H. destruct H as [Hc Hs].
  apply negb_true_iff in Hc. rewrite Hc, (IH Hs). reflexivity.
Qed.

Lemma split_comma_app (s1 s2 : string) :
  no_comma s1 = true ->
  Py.split_comma (s1 ++ String "," s2) = s1 :: Py.split_comma s2.
Proof.
  induction s1 as [|c s1 IH]; simpl; [reflexivity|].
  intros H. apply andb_true_iff in H. destruct H as [Hc Hs].
  apply negb_true_iff in Hc. rewrite Hc, (IH Hs). reflexivity.
Qed.

Lemma str_no_comma (z : Z) : no_comma (Py.str z) = true.
Proof.
  assert (Hu : forall d, no_comma (NilEmpty.string_of_uint d) = true)
    by (induction d; simpl; auto).
  unfold Py.str, Z.to_int. destruct z as [|p|p]; [reflexivity|..];
    cbn [NilZero.string_of_int]; unfold NilZero.string_of_uint;
    destruct (Pos.to_uint p) eqn:E; try reflexivity; rewrite <- E; simpl;
    apply Hu.
Qed.

(** A section id that [format_section_id] writes is read back as the two
    integers it was written from. *)
Lemma format_section_id_parses (first last_ : Z) :
  Py.split_comma (LocalNotificationLog.format_section_id first last_) =
    [Py.str first; Py.str last_] /\
  Py.int (Py.str first) = Ok first /\
  Py.int (Py.str last_) = Ok last_.
Proof.
  split; [|split; apply int_str].
  unfold LocalNotificationLog.format_section_id. cbn [append].
  rewrite split_comma_app by apply str_no_comma.
  now rewrite split_comma_no_comma by apply str_no_comma.
Qed.

(** ** Sorting and LIMIT *)

Section SortFacts.
Context {A : Type} (before : A -> A -> bool).

Lemma insert_by_perm (x : A) (l : list A) :
  Permutation (Sql.insert_by before x l) (x :: l).
Proof.
  induction l as [|y l IH]; simpl; [reflexivity|].
  destruct (before x y); [reflexivity|].
  rewrite IH. apply perm_swap.
Qed.

Lemma sort_by_perm (l : list A) : Permutation (Sql.sort_by before l) l.
Proof.
  induction l as [|x l IH]; simpl; [reflexivity|].
  rewrite insert_by_perm. now constructor.
Qed.

Lemma sort_by_In (x : A) (l : list A) : In x (Sql.sort_by before l) <-> In x l.
Proof.
  split; apply Permutation_in;
    [apply sort_by_perm | symmetry; apply sort_by_perm].
Qed.

Lemma sort_by_length (l : list A) :
  List.length (Sql.sort_by before l) = List.length l.
Proof. apply Permutation_length, sort_by_perm. Qed.

Hypothesis before_total : forall a b, before a b = false -> before b a = true.
Hypothesis before_trans :
  forall a b c, before a b = true -> before b c = true -> before a c = true.

Lemma insert_by_sorted (x : A) (l : list A) :
  StronglySorted (fun a b => before a b = true) l ->
  StronglySorted (fun a b => before a b = true) (Sql.insert_by before x l).
Proof.
  induction 1 as [|y l Hs IH Hy]; simpl.
  - repeat constructor.
  - destruct (before x y) eqn:E.
    + constructor; [now constructor|].
      constructor; [exact E|].
      rewrite Forall_forall in *. eauto.
    + constructor; [exact IH|].
      rewrite Forall_forall in *. intros z Hz.
      apply (Permutation_in _ (insert_by_perm x l)) in Hz.
      destruct Hz as [<-|Hz]; auto.
Qed.

Lemma sort_by_sorted (l : list A) :
  StronglySorted (fun a b => before a b = true) (Sql.sort_by before l).
Proof.
  induction l as [|x l IH]; simpl; [constructor|].
  now apply insert_by_sorted.
Qed.

End SortFacts.

(** Sorting splits along any test that the order respects. *)
Lemma insert_by_split {A : Type} (before : A -> A -> bool) (low : A -> bool)
  (x : A) (l1 l2 : list A) :
  (forall a b, low a = true -> low b = false -> before a b = true) ->
  (forall a b, low a = false -> low b = true -> before a b = false) ->
  Forall (fun a => low a = true) l1 ->
  Forall (fun a => low a = false) l2 ->
  Sql.insert_by before x (l1 ++ l2) =
    if low x then Sql.insert_by before x l1 ++ l2
    else l1 ++ Sql.insert_by before x l2.
Proof.
  intros Hlo Hhi H1 H2.
  induction H1 as [|y l1 Hy H1 IH]; simpl.
  - destruct (low x) eqn:Ex; [|reflexivity].
    destruct l2 as [|z l2]; [reflexivity|]. simpl.
    inversion_clear H2. now rewrite Hlo.
  - destruct (low x) eqn:Ex.
    + destruct (before x y); [reflexivity|]. now rewrite IH.
    + rewrite (Hhi x y Ex Hy). now rewrite IH.
Qed.

Lemma sort_by_split {A : Type} (before : A -> A -> bool) (low : A -> bool)
  (l : list A) :
  (forall a b, low a = true -> low b = false -> before a b = true) ->
  (forall a b, low a = false -> low b = true -> before a b = false) ->
  Sql.sort_by before l =
    Sql.sort_by before (filter low l)
    ++ Sql.sort_by before (filter (fun a => negb (low a)) l).
Proof.
  intros Hlo Hhi. induction l as [|x l IH]; simpl; [reflexivity|].
  rewrite IH at 1.
  assert (H1 : Forall (fun a => low a = true)
                      (Sql.sort_by before (filter low l))).
  { apply Forall_forall. intros a Ha. apply sort_by_In, filter_In in Ha.
    tauto. }
  assert (H2 : Forall (fun a => low a = false)
                      (Sql.sort_by before (filter (fun a => negb (low a)) l))).
  { apply Forall_forall. intros a Ha. apply sort_by_In, filter_In in Ha.
    now apply negb_true_iff. }
  rewrite (insert_by_split before low x _ _ Hlo Hhi H1 H2).
  destruct (low x); reflexivity.
Qed.

Lemma limit_Ok {A : Type} (n : Z) (l : list A) :
  0 <= n < 2 ^ 63 -> Sql.limit n l = Ok (firstn (Z.to_nat n) l).
Proof.
  intros Hn. unfold Sql.limit.
  destruct (Z.ltb_spec n 0); [lia|].
  destruct (Z.leb_spec (2 ^ 63) n); [lia|reflexivity].
Qed.

Lemma limit_negative {A : Type} (n : Z) (l : list A) :
  n < 0 -> Sql.limit n l = Raise psycopg2_DataError.
Proof. intros Hn. unfold Sql.limit. destruct (Z.ltb_spec n 0); [reflexivity|lia]. Qed.

Lemma limit_too_large {A : Type} (n : Z) (l : list A) :
  2 ^ 63 <= n -> Sql.limit n l = Raise psycopg2_DataError.
Proof.
  intros Hn. unfold Sql.limit.
  destruct (Z.leb_spec (2 ^ 63) n); [now rewrite orb_true_r|lia].
Qed.

(** [LIMIT] raises nothing but [DataError]. *)
Lemma limit_raises {A : Type} (n : Z) (l : list A) (x : exn) :
  Sql.limit n l = Raise x -> x = psycopg2_DataError.
Proof.
  unfold Sql.limit. destruct (_ || _); [now intros [= <-]|discriminate].
Qed.

(** ** Reads leave the database as it was *)

Lemma rollback_same (db : Database) : PostgresDatabase.rollback db db = db.
Proof. now destruct db. Qed.

Lemma select_notifications_run (start limit : Z) (db : Database) :
  PostgresApplicationRecorder.select_notifications start limit db =
    (match PostgresApplicationRecorder.select_notifications_query
             start limit (events_table db) with
     | Ok rows => Ok (map PostgresApplicationRecorder.notification_of rows)
     | Raise e => Raise e
     end, db).
Proof.
  unfold PostgresApplicationRecorder.select_notifications,
    PostgresDatabase.transaction.
  destruct (PostgresApplicationRecorder.select_notifications_query _ _ _);
    now rewrite ?rollback_same.
Qed.

Lemma select_events_run (originator_id : UUID) (gt lte : option Z)
  (desc : bool) (limit : option Z) (db : Database) :
  PostgresAggregateRecorder.select_events originator_id gt lte desc limit db =
    (match PostgresAggregateRecorder.select_events_query
             originator_id gt lte desc limit (events_table db) with
     | Ok rows => Ok (map event rows)
     | Raise e => Raise e
     end, db).
Proof.
  unfold PostgresAggregateRecorder.select_events, PostgresDatabase.transaction.
  destruct (PostgresAggregateRecorder.select_events_query _ _ _ _ _ _);
    now rewrite ?rollback_same.
Qed.

(** ** The notification log *)

Lemma getitem_parsed (self : LocalNotificationLog.t) (section_id : string)
  (p0 p1 : string) (rest : list string) (first last_ : Z) (db : Database) :
  Py.split_comma section_id = p0 :: p1 :: rest ->
  Py.int p0 = Ok first ->
  Py.int p1 = Ok last_ ->
  LocalNotificationLog.getitem self section_id db =
    let start := Z.max 1 first in
    let limit := Z.min (Z.max 0 (last_ - start + 1))
                       (LocalNotificationLog.section_size self) in
    match PostgresApplicationRecorder.select_notifications start limit db with
    | (Ok notifications, db') => (Ok (section_from limit notifications), db')
    | (Raise e, db') => (Raise e, db')
    end.
Proof.
  intros Hs H0 H1.
  unfold LocalNotificationLog.getitem, bind, lift, Py.index.
  rewrite Hs. simpl nth_error. cbv iota. rewrite H0, H1. cbv zeta.
  destruct (PostgresApplicationRecorder.select_notifications _ _ db)
    as [[ns|e] db']; [|reflexivity].
  unfold section_from, ret.
  destruct ns as [|n ns]; [reflexivity|].
  destruct (Z.of_nat _ =? _); reflexivity.
Qed.

Lemma section_limit_bounds (first last_ size : Z) :
  0 <= size ->
  let start := Z.max 1 first in
  let limit := Z.min (Z.max 0 (last_ - start + 1)) size in
  1 <= start /\ 0 <= limit <= size.
Proof. intros; subst start limit; lia. Qed.

Lemma section_from_items (limit : Z) (notifications : list Notification.t) :
  LogSection.items (section_from limit notifications) = notifications.
Proof. now destruct notifications. Qed.

Lemma select_notifications_Ok (start limit : Z) (db : Database) :
  0 <= limit < 2 ^ 63 ->
  PostgresApplicationRecorder.select_notifications start limit db =
    (Ok (map PostgresApplicationRecorder.notification_of
             (firstn (Z.to_nat limit)
                (Sql.order_by rowid false
                   (filter (fun r => start <=? rowid r) (events_table db))))),
     db).
Proof.
  intros Hl. rewrite select_notifications_run.
  unfold PostgresApplicationRecorder.select_notifications_query.
  now rewrite limit_Ok.
Qed.

(** A limit that is no row count of Postgres: the query raises. *)
Lemma select_notifications_DataError (start limit : Z) (db : Database) :
  limit < 0 \/ 2 ^ 63 <= limit ->
  PostgresApplicationRecorder.select_notifications start limit db =
    (Raise psycopg2_DataError, db).
Proof.
  intros Hl. rewrite select_notifications_run.
  unfold PostgresApplicationRecorder.select_notifications_query.
  destruct Hl as [Hl|Hl];
    [now rewrite limit_negative|now rewrite limit_too_large].
Qed.

Lemma parsed_section_id (self : LocalNotificationLog.t)
  (section_id p0 p1 : string) (rest : list string) (first last_ : Z)
  (db : Database) :
  Py.split_comma section_id = p0 :: p1 :: rest ->
  Py.int p0 = Ok first ->
  Py.int p1 = Ok last_ ->
  0 <= LocalNotificationLog.section_size self ->
  interprets self section_id first last_ db.
Proof.
  intros Hs H0 H1 Hsize. unfold interprets.
  set (start := Z.max 1 first).
  set (limit := Z.min (Z.max 0 (last_ - start + 1))
                      (LocalNotificationLog.section_size self)).
  destruct (section_limit_bounds first last_ _ Hsize) as [Hstart Hlimit].
  fold start in Hstart, Hlimit. fold limit in Hlimit.
  pose proof (getitem_parsed self section_id p0 p1 rest first last_ db Hs H0 H1)
    as Hget.
  cbv zeta in Hget. fold start limit in Hget.
  split; [|split; [|split; [|split; [|split]]]]; try lia.
  - intros Hfits.
    rewrite (select_notifications_Ok start limit db) in Hget by lia.
    eexists. split; [exact Hget|].
    rewrite section_from_items. apply select_notifications_Ok. lia.
  - intros Hlarge.
    rewrite (select_notifications_DataError start limit db) in Hget
      by (now right).
    split; [exact Hget|]. apply select_notifications_DataError. now right.
  - intros Hrev. assert (E : limit = 0) by lia. split; [exact E|].
    rewrite Hget, E, select_notifications_Ok by lia. reflexivity.
Qed.

(** C5: for the section id ["<first>,<last_>"] of two integers written in
    decimal, and for every section id whose first two parts [int()] reads
    as [first] and [last_], the log selects from [start = max(1, first)]
    with [limit = min(max(0, last_ - start + 1), section_size)]: a start
    below 1 becomes 1, the limit stays within one page, and a range with
    [last_ < start] gives limit 0 and the empty section, with no exception.
    The section size is a page size, hence not negative; the section is
    returned when the limit is below [2 ^ 63], and a limit from [2 ^ 63]
    on, which takes a section size that large, is refused by the database
    with [DataError]. *)
Theorem section_id_interpretation (self : LocalNotificationLog.t)
  (first last_ : Z) (db : Database) :
  0 <= LocalNotificationLog.section_size self ->
  interprets self (LocalNotificationLog.format_section_id first last_)
             first last_ db /\
  (forall section_id p0 p1 rest,
      Py.split_comma section_id = p0 :: p1 :: rest ->
      Py.int p0 = Ok first ->
      Py.int p1 = Ok last_ ->
      interprets self section_id first last_ db).
Proof.
  intros Hsize. split.
  - destruct (format_section_id_parses first last_) as (Hs & H0 & H1).
    exact (parsed_section_id self _ _ _ [] first last_ db Hs H0 H1 Hsize).
  - intros section_id p0 p1 rest Hs H0 H1.
    exact (parsed_section_id self _ _ _ rest first last_ db Hs H0 H1 Hsize).
Qed.

(** Two concrete requests against a page size of 10: ["-5,200"] is read
    from 1 with limit 10, and the reversed [" 7 , 3 "] with limit 0. *)
Lemma section_id_interpretation_witness :
  interprets (LocalNotificationLog.make 10) "-5,200" (-5) 200 store_with_gaps /\
  LocalNotificationLog.getitem (LocalNotificationLog.make 10) " 7 , 3 "
                               store_with_gaps =
    (Ok (LogSection.make None [] None), store_with_gaps).
Proof.
  destruct (section_id_interpretation (LocalNotificationLog.make 10) (-5) 200
              store_with_gaps ltac:(simpl; lia)) as [H _].
  split; [exact H|].
  destruct (section_id_interpretation (LocalNotificationLog.make 10) 7 3
              store_with_gaps ltac:(simpl; lia)) as [_ H'].
  apply (H' " 7 , 3 "%string " 7 "%string " 3 "%string [] eq_refl eq_refl eq_refl).
  simpl. lia.
Defined.

(** C6: when the recorder returns no notification for the request, the log
    returns [Section(id=None, items=[], next_id=None)]; this is the case of
    every request against an empty store, where [select_notifications]
    returns the empty list, for every limit that is a row count of the
    database: from 0 and below [2 ^ 63].  Another limit is refused with
    [DataError], on the empty store as on any other; the log computes such
    a limit only with a section size that is negative or [2 ^ 63] and
    more. *)
Theorem empty_section (self : LocalNotificationLog.t)
  (section_id p0 p1 : string) (rest : list string) (first last_ : Z)
  (db : Database) :
  Py.split_comma section_id = p0 :: p1 :: rest ->
  Py.int p0 = Ok first ->
  Py.int p1 = Ok last_ ->
  let start := Z.max 1 first in
  let limit := Z.min (Z.max 0 (last_ - start + 1))
                     (LocalNotificationLog.section_size self) in
  (PostgresApplicationRecorder.select_notifications start limit db = (Ok [], db) ->
   LocalNotificationLog.getitem self section_id db =
     (Ok (LogSection.make None [] None), db)) /\
  (events_table db = [] ->
   (forall start' limit', 0 <= limit' < 2 ^ 63 ->
      PostgresApplicationRecorder.select_notifications start' limit' db =
        (Ok [], db)) /\
   (forall start' limit', limit' < 0 \/ 2 ^ 63 <= limit' ->
      PostgresApplicationRecorder.select_notifications start' limit' db =
        (Raise psycopg2_DataError, db)) /\
   (0 <= LocalNotificationLog.section_size self < 2 ^ 63 ->
    LocalNotificationLog.getitem self section_id db =
      (Ok (LogSection.make None [] None), db))).
Proof.
  intros Hs H0 H1 start limit.
  pose proof (getitem_parsed self section_id p0 p1 rest first last_ db Hs H0 H1)
    as Hget.
  cbv zeta in Hget. fold start limit in Hget.
  assert (Hempty : events_table db = [] ->
                   forall start' limit', 0 <= limit' < 2 ^ 63 ->
                   PostgresApplicationRecorder.select_notifications
                     start' limit' db = (Ok [], db)).
  { intros He start' limit' Hl. rewrite select_notifications_Ok by exact Hl.
    rewrite He. simpl. now rewrite firstn_nil. }
  split; [|split; [|split]].
  - intros Hsel. now rewrite Hget, Hsel.
  - now apply Hempty.
  - intros start' limit'. apply select_notifications_DataError.
  - intros Hsize. rewrite Hget, Hempty; [reflexivity|assumption|].
    subst limit. lia.
Qed.

(** The scenario of the specification: ["1,10"] against the empty store. *)
Lemma empty_section_witness :
  PostgresApplicationRecorder.select_notifications 1 10 empty_database =
    (Ok [], empty_database) /\
  LocalNotificationLog.getitem (LocalNotificationLog.make 10) "1,10"
                               empty_database =
    (Ok (LogSection.make None [] None), empty_database).
Proof.
  pose proof (empty_section (LocalNotificationLog.make 10) "1,10" "1" "10" []
                1 10 empty_database eq_refl eq_refl eq_refl) as H.
  cbv zeta in H. destruct H as [_ H].
  destruct (H eq_refl) as (Hsel & _ & Hget).
  split; [apply Hsel; lia | apply Hget; simpl; lia].
Defined.

(** ["1,2,x"] is not of the form ["<int>,<int>"], and its third part is no
    integer, yet the log returns a section: only the first two parts are
    read. *)
Lemma getitem_ignores_third_part :
  Py.split_comma "1,2,x" = ["1"; "2"; "x"]%string /\
  Py.int "x" = Raise ValueError /\
  LocalNotificationLog.getitem (LocalNotificationLog.make 10) "1,2,x"
                               empty_database =
    (Ok (LogSection.make None [] None), empty_database).
Proof. repeat split; reflexivity. Qed.

(** C10, amended: [__getitem__] raises [IndexError] or [ValueError] exactly
    when the section id has no comma or when [int()] refuses its first or
    its second comma-separated part; parts after the second are not read.
    Without a comma the exception is [ValueError] if the whole string is no
    integer and [IndexError] otherwise; with a comma it is [ValueError]. *)
Theorem malformed_section_id_raises (self : LocalNotificationLog.t)
  (section_id : string) (db : Database) :
  ((exists e, (e = IndexError \/ e = ValueError) /\
              LocalNotificationLog.getitem self section_id db = (Raise e, db))
   <->
   (forall p0 p1 rest, Py.split_comma section_id = p0 :: p1 :: rest ->
      Py.int p0 = Raise ValueError \/ Py.int p1 = Raise ValueError)) /\
  (forall p0, Py.split_comma section_id = [p0] ->
     LocalNotificationLog.getitem self section_id db =
       (Raise (match Py.int p0 with Ok _ => IndexError | Raise _ => ValueError end),
        db)) /\
  (forall p0 p1 rest, Py.split_comma section_id = p0 :: p1 :: rest ->
     Py.int p0 = Raise ValueError \/ Py.int p1 = Raise ValueError ->
     LocalNotificationLog.getitem self section_id db = (Raise ValueError, db)).
Proof.
  assert (H1 : forall p0, Py.split_comma section_id = [p0] ->
     LocalNotificationLog.getitem self section_id db =
       (Raise (match Py.int p0 with Ok _ => IndexError | Raise _ => ValueError end),
        db)).
  { intros p0 Hs. unfold LocalNotificationLog.getitem, bind, lift, Py.index.
    rewrite Hs. simpl nth_error. cbv iota.
    destruct (Py.int p0) as [z|e] eqn:E; [reflexivity|].
    now rewrite (int_raises_ValueError _ _ E). }
  assert (H2 : forall p0 p1 rest, Py.split_comma section_id = p0 :: p1 :: rest ->
     Py.int p0 = Raise ValueError \/ Py.int p1 = Raise ValueError ->
     LocalNotificationLog.getitem self section_id db = (Raise ValueError, db)).
  { intros p0 p1 rest Hs Hbad.
    unfold LocalNotificationLog.getitem, bind, lift, Py.index.
    rewrite Hs. simpl nth_error. cbv iota.
    destruct (Py.int p0) as [z0|e0] eqn:E0.
    - destruct Hbad as [Hbad|Hbad]; [discriminate|]. now rewrite Hbad.
    - now rewrite (int_raises_ValueError _ _ E0). }
  split; [|split; assumption].
  split.
  - intros (e & He & Hget) p0 p1 rest Hs.
    destruct (Py.int p0) as [z0|e0] eqn:E0;
      [|left; now rewrite (int_raises_ValueError _ _ E0)].
    destruct (Py.int p1) as [z1|e1] eqn:E1;
      [|right; now rewrite (int_raises_ValueError _ _ E1)].
    exfalso.
    rewrite (getitem_parsed self section_id p0 p1 rest z0 z1 db Hs E0 E1) in Hget.
    cbv zeta in Hget. rewrite select_notifications_run in Hget.
    unfold PostgresApplicationRecorder.select_notifications_query, Sql.limit
      in Hget.
    destruct (_ || _) in Hget; [|discriminate].
    injection Hget as <-. destruct He; discriminate.
  - intros Hbad.
    destruct (Py.split_comma section_id) as [|p0 [|p1 rest]] eqn:Hs.
    + now apply split_comma_nonempty in Hs.
    + eexists. split; [|now apply H1].
      destruct (Py.int p0); auto.
    + exists ValueError. split; [now right|]. eapply H2; eauto.
Qed.

(** The two examples of the claim: ["5"] has no comma, ["a,b"] no integer. *)
Example malformed_section_id_examples :
  LocalNotificationLog.getitem (LocalNotificationLog.make 10) "5" empty_database
    = (Raise IndexError, empty_database) /\
  LocalNotificationLog.getitem (LocalNotificationLog.make 10) "a,b" empty_database
    = (Raise ValueError, empty_database) /\
  LocalNotificationLog.getitem (LocalNotificationLog.make 10) "a" empty_database
    = (Raise ValueError, empty_database).
Proof. repeat split; reflexivity. Qed.

(** ** Sorted lists are determined by their elements *)

Lemma filter_perm {A : Type} (f : A -> bool) (l l' : list A) :
  Permutation l l' -> Permutation (filter f l) (filter f l').
Proof.
  induction 1 as [|x l l' _ IH|x y l|l l' l'' _ IH1 _ IH2]; simpl.
  - constructor.
  - destruct (f x); [now constructor|exact IH].
  - destruct (f x), (f y); try reflexivity. apply perm_swap.
  - now transitivity (filter f l').
Qed.

Lemma sorted_perm_eq {A : Type} (R : A -> A -> Prop) :
  (forall a b, R a b -> R b a -> a = b) ->
  forall l l', StronglySorted R l -> StronglySorted R l' ->
               Permutation l l' -> l = l'.
Proof.
  intros Hanti. induction l as [|x l IH]; intros l' Hl Hl' Hp.
  - now apply Permutation_nil in Hp.
  - destruct l' as [|y l'];
      [symmetry in Hp; now apply Permutation_nil in Hp|].
    inversion_clear Hl as [|? ? Hsl Hx]. inversion_clear Hl' as [|? ? Hsl' Hy].
    rewrite Forall_forall in Hx, Hy.
    assert (E : x = y).
    { assert (Hxin : In x (y :: l'))
        by (eapply Permutation_in; [exact Hp|now left]).
      assert (Hyin : In y (x :: l))
        by (eapply Permutation_in; [symmetry; exact Hp|now left]).
      destruct Hxin as [->|Hxin]; [reflexivity|].
      destruct Hyin as [->|Hyin]; [reflexivity|].
      apply Hanti; auto. }
    subst y. f_equal. apply IH; auto.
    now apply Permutation_cons_inv in Hp.
Qed.

Lemma sort_by_leb_perm (l l' : list Z) :
  Permutation l l' -> Sql.sort_by Z.leb l = Sql.sort_by Z.leb l'.
Proof.
  intros Hp.
  apply (sorted_perm_eq (fun a b => (a <=? b) = true)).
  - intros a b Ha Hb. apply Z.leb_le in Ha, Hb. lia.
  - apply sort_by_sorted; intros; rewrite ?Z.leb_le, ?Z.leb_gt in *; lia.
  - apply sort_by_sorted; intros; rewrite ?Z.leb_le, ?Z.leb_gt in *; lia.
  - rewrite !sort_by_perm. exact Hp.
Qed.

Lemma map_insert_by {A : Type} (key : A -> Z) (x : A) (l : list A) :
  map key (Sql.insert_by (fun a b => key a <=? key b) x l) =
    Sql.insert_by Z.leb (key x) (map key l).
Proof.
  induction l as [|y l IH]; simpl; [reflexivity|].
  destruct (key x <=? key y); simpl; [reflexivity|now rewrite IH].
Qed.

Lemma map_order_by {A : Type} (key : A -> Z) (l : list A) :
  map key (Sql.order_by key false l) = Sql.sort_by Z.leb (map key l).
Proof.
  unfold Sql.order_by. induction l as [|x l IH]; simpl; [reflexivity|].
  now rewrite map_insert_by, IH.
Qed.

Lemma map_filter_key {A : Type} (key : A -> Z) (p : Z -> bool) (l : list A) :
  map key (filter (fun a => p (key a)) l) = filter p (map key l).
Proof.
  induction l as [|x l IH]; simpl; [reflexivity|].
  destruct (p (key x)); simpl; now rewrite IH.
Qed.

(** The ids that [select_notifications] returns, from the [rowid] column. *)
Lemma select_notifications_ids (start limit : Z) (db : Database) :
  0 <= limit < 2 ^ 63 ->
  exists notifications,
    PostgresApplicationRecorder.select_notifications start limit db =
      (Ok notifications, db) /\
    map Notification.id notifications =
      firstn (Z.to_nat limit)
        (Sql.sort_by Z.leb
           (filter (fun i => start <=? i) (map rowid (events_table db)))).
Proof.
  intros Hl. eexists. split; [now apply select_notifications_Ok|].
  rewrite map_map. cbn [PostgresApplicationRecorder.notification_of Notification.id].
  change (fun x : Row => rowid x) with rowid.
  now rewrite <- firstn_map, map_order_by,
    (map_filter_key rowid (fun i => start <=? i)).
Qed.

Lemma last_map {A B : Type} (f : A -> B) (l : list A) (d : A) :
  last (map f l) (f d) = f (last l d).
Proof.
  induction l as [|x l IH]; [reflexivity|].
  destruct l; [reflexivity|]. exact IH.
Qed.

Lemma section_from_ids (limit : Z) (notifications : list Notification.t) :
  (LogSection.id (section_from limit notifications),
   LogSection.next_id (section_from limit notifications)) =
    section_ids limit (map Notification.id notifications).
Proof.
  destruct notifications as [|n ns]; [reflexivity|].
  unfold section_from, section_ids.
  cbn [map LogSection.id LogSection.next_id].
  change (Notification.id n :: map Notification.id ns)
    with (map Notification.id (n :: ns)).
  now rewrite last_map, length_map.
Qed.

(** C4: when the recorder returns [k >= 1] notifications, the section id is
    ["<first>,<last>"] of the ids returned (whatever range was asked for);
    when moreover [k] equals the limit, the next id is
    ["<last+1>,<last+limit>"]; when [k] is below the limit, the next id is
    [None].  With the ids 1..25 in the store and pages of 10, ["1,10"]
    gives id ["1,10"] and next id ["11,20"], and ["21,30"] gives id
    ["21,25"] and no next id. *)
Theorem section_paging :
  (forall (self : LocalNotificationLog.t) (section_id p0 p1 : string)
          (rest : list string) (first last_ : Z) (db : Database)
          (notifications : list Notification.t),
      Py.split_comma section_id = p0 :: p1 :: rest ->
      Py.int p0 = Ok first ->
      Py.int p1 = Ok last_ ->
      let start := Z.max 1 first in
      let limit := Z.min (Z.max 0 (last_ - start + 1))
                         (LocalNotificationLog.section_size self) in
      PostgresApplicationRecorder.select_notifications start limit db =
        (Ok notifications, db) ->
      exists sec,
        LocalNotificationLog.getitem self section_id db = (Ok sec, db) /\
        LogSection.items sec = notifications /\
        (forall n0 tl, notifications = n0 :: tl ->
           let last_id := Notification.id (last notifications n0) in
           LogSection.id sec =
             Some (LocalNotificationLog.format_section_id
                     (Notification.id n0) last_id) /\
           (Z.of_nat (List.length notifications) = limit ->
            LogSection.next_id sec =
              Some (LocalNotificationLog.format_section_id
                      (last_id + 1) (last_id + limit)))) /\
        (Z.of_nat (List.length notifications) < limit ->
         LogSection.next_id sec = None)) /\
  (forall db : Database,
      Permutation (map rowid (events_table db)) (map Z.of_nat (seq 1 25)) ->
      exists sec1 sec2,
        LocalNotificationLog.getitem (LocalNotificationLog.make 10) "1,10" db
          = (Ok sec1, db) /\
        LogSection.id sec1 = Some "1,10"%string /\
        LogSection.next_id sec1 = Some "11,20"%string /\
        map Notification.id (LogSection.items sec1) =
          map Z.of_nat (seq 1 10) /\
        LocalNotificationLog.getitem (LocalNotificationLog.make 10) "21,30" db
          = (Ok sec2, db) /\
        LogSection.id sec2 = Some "21,25"%string /\
        LogSection.next_id sec2 = None /\
        map Notification.id (LogSection.items sec2) =
          map Z.of_nat (seq 21 5)).
Proof.
  split.
  - intros self section_id p0 p1 rest first last_ db notifications
           Hs H0 H1 start limit Hsel.
    pose proof (getitem_parsed self section_id p0 p1 rest first last_ db
                  Hs H0 H1) as Hget.
    cbv zeta in Hget. fold start limit in Hget. rewrite Hsel in Hget.
    exists (section_from limit notifications).
    split; [exact Hget|]. split; [apply section_from_items|]. split.
    + intros n0 tl -> last_id. unfold section_from. fold last_id.
      split; [reflexivity|]. intros Hk. cbn [LogSection.next_id].
      rewrite Hk, Z.eqb_refl. do 2 f_equal. lia.
    + intros Hk. destruct notifications as [|n0 tl]; [reflexivity|].
      unfold section_from. cbn [LogSection.next_id].
      destruct (Z.eqb_spec (Z.of_nat (List.length (n0 :: tl))) limit);
        [lia|reflexivity].
  - intros db Hp.
    assert (Hpage : forall sid p0 p1 first last_ start limit,
      Py.split_comma sid = [p0; p1] -> Py.int p0 = Ok first ->
      Py.int p1 = Ok last_ ->
      start = Z.max 1 first ->
      limit = Z.min (Z.max 0 (last_ - start + 1)) 10 ->
      exists sec,
        LocalNotificationLog.getitem (LocalNotificationLog.make 10) sid db
          = (Ok sec, db) /\
        (LogSection.id sec, LogSection.next_id sec) =
          section_ids limit
            (firstn (Z.to_nat limit)
               (Sql.sort_by Z.leb
                  (filter (fun i => start <=? i) (map Z.of_nat (seq 1 25))))) /\
        map Notification.id (LogSection.items sec) =
          firstn (Z.to_nat limit)
            (Sql.sort_by Z.leb
               (filter (fun i => start <=? i) (map Z.of_nat (seq 1 25))))).
    { intros sid p0 p1 first last_ start limit Hs H0 H1 -> ->.
      set (start := Z.max 1 first).
      set (limit := Z.min (Z.max 0 (last_ - start + 1)) 10).
      destruct (select_notifications_ids start limit db ltac:(subst limit; lia))
        as (ns & Hsel & Hids).
      pose proof (section_from_ids limit ns) as Hsec.
      pose proof (section_from_items limit ns) as Hitems.
      rewrite (sort_by_leb_perm _ _ (filter_perm _ _ _ Hp)) in Hids.
      rewrite Hids in Hsec. rewrite <- Hitems in Hids.
      pose proof (getitem_parsed (LocalNotificationLog.make 10) sid p0 p1 []
                    first last_ db Hs H0 H1) as Hget.
      cbv zeta in Hget. cbn [LocalNotificationLog.section_size] in Hget.
      fold start limit in Hget. rewrite Hsel in Hget.
      eexists. split; [exact Hget|]. split; [exact Hsec|exact Hids]. }
    destruct (Hpage "1,10"%string "1"%string "10"%string 1 10 1 10
                eq_refl eq_refl eq_refl eq_refl eq_refl)
      as (sec1 & Hg1 & Hi1 & Hm1).
    destruct (Hpage "21,30"%string "21"%string "30"%string 21 30 21 10
                eq_refl eq_refl eq_refl eq_refl eq_refl)
      as (sec2 & Hg2 & Hi2 & Hm2).
    exists sec1, sec2.
    vm_compute in Hi1, Hi2, Hm1, Hm2.
    injection Hi1 as Hi1 Hn1. injection Hi2 as Hi2 Hn2.
    split; [exact Hg1|]. split; [exact Hi1|]. split; [exact Hn1|].
    split; [exact Hm1|]. split; [exact Hg2|]. split; [exact Hi2|].
    split; [exact Hn2|exact Hm2].
Qed.

(** The request ["1,3"] against the store with gaps: a full page of three
    notifications, whose ids run to 5. *)
Lemma section_paging_witness :
  exists sec,
    LocalNotificationLog.getitem (LocalNotificationLog.make 10) "1,3"
                                 store_with_gaps = (Ok sec, store_with_gaps) /\
    LogSection.id sec = Some "1,5"%string /\
    LogSection.next_id sec = Some "6,8"%string.
Proof.
  destruct (proj1 section_paging (LocalNotificationLog.make 10)
              "1,3"%string "1"%string "3"%string [] 1 3 store_with_gaps _
              eq_refl eq_refl eq_refl eq_refl)
    as (sec & Hget & _ & Hfull & _).
  exists sec. split; [exact Hget|].
  destruct (Hfull _ _ eq_refl) as [Hid Hnext].
  split; [exact Hid | exact (Hnext eq_refl)].
Defined.

(** ** Range queries *)

Lemma order_by_perm {A : Type} (key : A -> Z) (desc : bool) (l : list A) :
  Permutation (Sql.order_by key desc l) l.
Proof. apply sort_by_perm. Qed.

Lemma strongly_sorted_weaken {A : Type} (R R' : A -> A -> Prop) (l : list A) :
  (forall a b, R a b -> R' a b) -> StronglySorted R l -> StronglySorted R' l.
Proof.
  intros HR. induction 1 as [|x l _ IH Hx]; constructor; [exact IH|].
  eapply Forall_impl; [|exact Hx]. auto.
Qed.

Lemma order_by_sorted {A : Type} (key : A -> Z) (desc : bool) (l : list A) :
  StronglySorted
    (fun a b => if desc then key b <= key a else key a <= key b)
    (Sql.order_by key desc l).
Proof.
  unfold Sql.order_by.
  eapply strongly_sorted_weaken;
    [|apply sort_by_sorted; destruct desc; intros *;
      rewrite ?Z.leb_le, ?Z.leb_gt; lia].
  intros a b. destruct desc; now rewrite Z.leb_le.
Qed.

Lemma where_spec (originator_id : UUID) (gt lte : option Z) (r : Row) :
  PostgresAggregateRecorder.where_ originator_id gt lte r = true <->
  StoredEvent.originator_id (event r) = originator_id /\
  (forall g, gt = Some g -> g < StoredEvent.originator_version (event r)) /\
  (forall l, lte = Some l -> StoredEvent.originator_version (event r) <= l).
Proof.
  unfold PostgresAggregateRecorder.where_.
  rewrite !andb_true_iff, N.eqb_eq.
  destruct gt as [g|], lte as [l|]; rewrite ?Z.ltb_lt, ?Z.leb_le;
    (split;
     [ intros [[Hid Hg] Hl]; repeat split; auto;
       intros z Hz; (discriminate || (injection Hz as <-; assumption))
     | intros (Hid & Hg & Hl); repeat split; auto ]).
Qed.

(** C9: [select_events] leaves the database as it is and returns the
    stored events of the stream whose version is above [gt] and at most
    [lte] (each bound when given), arranged by version, ascending or
    descending as [desc] says, and cut to the first [limit] when a limit is
    given.  A limit is a row count of the database, from 0 and below
    [2 ^ 63]; with another limit the query is refused with [DataError]. *)
Theorem select_events_range (originator_id : UUID) (gt lte : option Z)
  (desc : bool) (limit : option Z) (db : Database) :
  snd (PostgresAggregateRecorder.select_events
         originator_id gt lte desc limit db) = db /\
  (forall n, limit = Some n -> n < 0 \/ 2 ^ 63 <= n ->
     PostgresAggregateRecorder.select_events
       originator_id gt lte desc limit db = (Raise psycopg2_DataError, db)) /\
  ((forall n, limit = Some n -> 0 <= n < 2 ^ 63) ->
   exists ordered : list Row,
     Permutation ordered
       (filter (PostgresAggregateRecorder.where_ originator_id gt lte)
               (events_table db)) /\
     (forall r, In r ordered <->
        In r (events_table db) /\
        StoredEvent.originator_id (event r) = originator_id /\
        (forall g, gt = Some g -> g < StoredEvent.originator_version (event r)) /\
        (forall l, lte = Some l -> StoredEvent.originator_version (event r) <= l)) /\
     StronglySorted
       (fun a b =>
          if desc
          then StoredEvent.originator_version (event b)
               <= StoredEvent.originator_version (event a)
          else StoredEvent.originator_version (event a)
               <= StoredEvent.originator_version (event b))
       ordered /\
     PostgresAggregateRecorder.select_events
       originator_id gt lte desc limit db =
       (Ok (map event
              match limit with
              | Some n => firstn (Z.to_nat n) ordered
              | None => ordered
              end), db)).
Proof.
  rewrite select_events_run. split; [reflexivity|]. split.
  { intros n -> Hn. unfold PostgresAggregateRecorder.select_events_query.
    destruct Hn as [Hn|Hn];
      [now rewrite limit_negative|now rewrite limit_too_large]. }
  intros Hlimit.
  set (key := fun r => StoredEvent.originator_version (event r)).
  set (rows := filter (PostgresAggregateRecorder.where_ originator_id gt lte)
                      (events_table db)).
  exists (Sql.order_by key desc rows).
  split; [apply order_by_perm|]. split; [|split].
  - intros r. rewrite <- where_spec, <- filter_In.
    split; apply Permutation_in;
      [apply order_by_perm | symmetry; apply order_by_perm].
  - apply (order_by_sorted key).
  - unfold PostgresAggregateRecorder.select_events_query.
    fold key rows. destruct limit as [n|]; [|reflexivity].
    now rewrite limit_Ok by auto.
Qed.

(** The stream of [store_with_gaps] read downwards between versions 1
    and 5, one row at most: the row at version 5. *)
Lemma select_events_range_witness :
  snd (PostgresAggregateRecorder.select_events
         1%N (Some 1) (Some 5) true (Some 1) store_with_gaps) = store_with_gaps /\
  exists ordered : list Row,
    (forall r, In r ordered <->
       In r (events_table store_with_gaps) /\
       StoredEvent.originator_id (event r) = 1%N /\
       (forall g, Some 1 = Some g -> g < StoredEvent.originator_version (event r)) /\
       (forall l, Some 5 = Some l -> StoredEvent.originator_version (event r) <= l)) /\
    PostgresAggregateRecorder.select_events
      1%N (Some 1) (Some 5) true (Some 1) store_with_gaps =
      (Ok (map event (firstn (Z.to_nat 1) ordered)), store_with_gaps) /\
    PostgresAggregateRecorder.select_events
      1%N (Some 1) (Some 5) true (Some 1) store_with_gaps =
      (Ok [StoredEvent.make 1%N 5 "T" []], store_with_gaps).
Proof.
  destruct (select_events_range 1%N (Some 1) (Some 5) true (Some 1)
              store_with_gaps) as (Hdb & _ & H).
  split; [exact Hdb|].
  destruct H as (ordered & _ & Hin & _ & Hsel).
  - intros n Hn. injection Hn as <-. lia.
  - exists ordered. split; [exact Hin|]. split; [exact Hsel|reflexivity].
Defined.

(** ** Continuation of a page of notifications *)

Lemma sorted_app_inv {A : Type} (R : A -> A -> Prop) (l1 l2 : list A) :
  StronglySorted R (l1 ++ l2) ->
  StronglySorted R l1 /\ StronglySorted R l2 /\
  (forall x y, In x l1 -> In y l2 -> R x y).
Proof.
  induction l1 as [|a l1 IH]; simpl; intros Hs.
  - repeat split; [constructor|exact Hs|contradiction].
  - inversion_clear Hs as [|? ? Hs' Ha].
    destruct (IH Hs') as (H1 & H2 & H12).
    rewrite Forall_forall in Ha.
    repeat split; [|exact H2|].
    + constructor; [exact H1|]. apply Forall_forall. intros x Hx.
      apply Ha, in_or_app. now left.
    + intros x y [<-|Hx] Hy; [apply Ha, in_or_app; now right|now apply H12].
Qed.

Lemma sorted_last_max {A : Type} (R : A -> A -> Prop) (l : list A) (d x : A) :
  StronglySorted R l -> In x l -> x = last l d \/ R x (last l d).
Proof.
  intros Hs Hx.
  destruct (exists_last (l := l)) as (l' & a & ->);
    [intros ->; contradiction|].
  rewrite last_last. apply in_app_or in Hx.
  destruct Hx as [Hx|[<-|[]]]; [right|now left].
  apply sorted_app_inv in Hs. destruct Hs as (_ & _ & H). apply H; simpl; auto.
Qed.

Lemma last_In {A : Type} (l : list A) (d : A) : l <> [] -> In (last l d) l.
Proof.
  intros Hl. destruct (exists_last Hl) as (l' & a & ->).
  rewrite last_last. apply in_or_app. right. now left.
Qed.

Lemma app_split_unique {A : Type} (p : A -> bool) (l1 l2 l1' l2' : list A) :
  Forall (fun a => p a = true) l1 -> Forall (fun a => p a = false) l2 ->
  Forall (fun a => p a = true) l1' -> Forall (fun a => p a = false) l2' ->
  l1 ++ l2 = l1' ++ l2' -> l1 = l1' /\ l2 = l2'.
Proof.
  revert l1'. induction l1 as [|a l1 IH]; intros l1' H1 H2 H1' H2' E.
  - destruct l1' as [|a' l1']; [now split|]. exfalso.
    simpl in E. subst l2. inversion_clear H2. inversion_clear H1'. congruence.
  - destruct l1' as [|a' l1'].
    + exfalso. simpl in E. subst l2'.
      inversion_clear H2'. inversion_clear H1. congruence.
    + simpl in E. injection E as <- E.
      inversion_clear H1. inversion_clear H1'.
      destruct (IH l1') as [-> ->]; auto.
Qed.

Lemma filter_filter_andb {A : Type} (f g : A -> bool) (l : list A) :
  filter f (filter g l) = filter (fun a => f a && g a) l.
Proof.
  induction l as [|a l IH]; simpl; [reflexivity|].
  destruct (g a); simpl; rewrite ?andb_true_r, ?andb_false_r;
    [destruct (f a)|]; now rewrite IH.
Qed.

Lemma nodup_app_disjoint {A : Type} (l1 l2 : list A) :
  NoDup (l1 ++ l2) -> forall a, In a l1 -> In a l2 -> False.
Proof.
  induction l1 as [|x l1 IH]; simpl; intros Hnd a H1 H2; [contradiction|].
  inversion_clear Hnd as [|? ? Hx Hrest].
  destruct H1 as [->|H1]; [|now apply (IH Hrest a)].
  apply Hx, in_or_app. now right.
Qed.

(** The rows after a page: with unique row ids, what lies beyond the last
    id of a non-empty page is the rest of the ordered selection. *)
Lemma rows_after_page (rows : list Row) (start : Z) (k : nat) (d : Row) :
  NoDup (map rowid rows) ->
  let selection :=
    Sql.order_by rowid false (filter (fun r => start <=? rowid r) rows) in
  let page := firstn k selection in
  page <> [] ->
  Sql.order_by rowid false
    (filter (fun r => rowid (last page d) + 1 <=? rowid r) rows) =
    skipn k selection /\
  Forall (fun r => rowid (last page d) < rowid r) (skipn k selection).
Proof.
  intros Hnd selection page Hpage.
  set (F := filter (fun r => start <=? rowid r) rows) in *.
  set (L := rowid (last page d)).
  set (T := skipn k selection).
  assert (Hsplit : selection = page ++ T)
    by (symmetry; apply firstn_skipn).
  assert (Hsorted : StronglySorted (fun a b => rowid a <= rowid b) selection)
    by apply (order_by_sorted rowid false).
  assert (Hperm : Permutation selection F) by apply order_by_perm.
  assert (HndS : NoDup (map rowid selection)).
  { eapply Permutation_NoDup; [apply Permutation_map; symmetry; exact Hperm|].
    clear -Hnd. subst F. induction rows as [|r rows IH]; simpl; [constructor|].
    inversion_clear Hnd as [|? ? Hr Hrest].
    destruct (start <=? rowid r); simpl; auto.
    constructor; auto. intros Hin. apply Hr.
    apply in_map_iff in Hin. destruct Hin as (x & Hx & Hin).
    apply filter_In in Hin. apply in_map_iff. exists x. tauto. }
  rewrite Hsplit in Hsorted, HndS.
  destruct (sorted_app_inv _ _ _ Hsorted) as (Hs1 & _ & H12).
  assert (Hlast : In (last page d) page) by now apply last_In.
  assert (Hlow : Forall (fun r => (rowid r <=? L) = true) page).
  { apply Forall_forall. intros x Hx. apply Z.leb_le.
    destruct (sorted_last_max _ _ d x Hs1 Hx) as [->|H]; subst L; lia. }
  assert (Hhigh : Forall (fun r => L < rowid r) T).
  { apply Forall_forall. intros y Hy.
    pose proof (H12 _ _ Hlast Hy) as Hle. fold L in Hle.
    assert (rowid y <> L); [|lia].
    intros E. rewrite map_app in HndS.
    apply (nodup_app_disjoint _ _ HndS L); apply in_map_iff.
    - exists (last page d). now split.
    - exists y. now split. }
  split; [|exact Hhigh].
  assert (Hstart : start <= L).
  { assert (Hin : In (last page d) F).
    { eapply Permutation_in; [exact Hperm|]. rewrite Hsplit.
      apply in_or_app. now left. }
    apply filter_In in Hin. destruct Hin as [_ Hin]. now apply Z.leb_le in Hin. }
  assert (Hfilter : filter (fun r => L + 1 <=? rowid r) rows =
                    filter (fun r => negb (rowid r <=? L)) F).
  { subst F. rewrite filter_filter_andb. apply filter_ext. intros r.
    destruct (Z.leb_spec (L + 1) (rowid r)), (Z.leb_spec (rowid r) L),
      (Z.leb_spec start (rowid r)); simpl; try reflexivity; lia. }
  rewrite Hfilter.
  pose proof (sort_by_split (fun a b => rowid a <=? rowid b)
                (fun r => rowid r <=? L) F) as Hs.
  unfold Sql.order_by.
  change (Sql.sort_by (fun a b => rowid a <=? rowid b) F) with selection in Hs.
  rewrite Hsplit in Hs.
  apply (app_split_unique (fun r => rowid r <=? L)) in Hs.
  - symmetry. apply Hs.
  - exact Hlow.
  - eapply Forall_impl; [|exact Hhigh]. intros r Hr. apply Z.leb_gt. exact Hr.
  - apply Forall_forall. intros a Ha. apply sort_by_In, filter_In in Ha. tauto.
  - apply Forall_forall. intros a Ha. apply sort_by_In, filter_In in Ha.
    now apply negb_true_iff.
  - intros a b Ha Hb. apply Z.leb_le in Ha. apply Z.leb_gt in Hb.
    apply Z.leb_le. lia.
  - intros a b Ha Hb. apply Z.leb_gt in Ha. apply Z.leb_le in Hb.
    apply Z.leb_gt. lia.
Qed.

Lemma last_map_nonempty {A B : Type} (f : A -> B) (l : list A) (d : A) (d' : B) :
  l <> [] -> last (map f l) d' = f (last l d).
Proof.
  intros Hl. destruct (exists_last Hl) as (l' & a & ->).
  rewrite map_app. simpl. now rewrite !last_last.
Qed.

Lemma In_firstn_In {A : Type} (n : nat) (l : list A) (x : A) :
  In x (firstn n l) -> In x l.
Proof.
  intros Hx. rewrite <- (firstn_skipn n l). apply in_or_app. now left.
Qed.

Lemma notification_of_carries (rows : list Row) :
  Forall2 carries (map PostgresApplicationRecorder.notification_of rows) rows.
Proof.
  induction rows as [|r rows IH]; constructor; [|exact IH].
  unfold carries. simpl. auto.
Qed.

(** C8: for a limit that is a row count of the database, from 0 and below
    [2 ^ 63], [select_notifications] returns one notification for each of
    the rows with [rowid >= start], in ascending order of [rowid], cut to
    the first [limit], whatever ids are missing from the table; each
    notification has the id, the originator id, the version, the topic and
    the state of its row.  The call leaves the database as it is, so that
    a second call returns the same list; and after a non-empty page whose
    last id is [last_id], the call from [last_id + 1] returns what follows
    that page in the selection: ids above [last_id] only, and nothing
    skipped.  Row ids are unique, as the unique index on [rowid] keeps
    them. *)
Theorem select_notifications_page (start limit : Z) (db : Database) :
  0 <= limit < 2 ^ 63 ->
  (exists (ordered : list Row) (page : list Notification.t),
      Permutation ordered
        (filter (fun r => start <=? rowid r) (events_table db)) /\
      (forall r, In r ordered <-> In r (events_table db) /\ start <= rowid r) /\
      StronglySorted (fun a b => rowid a <= rowid b) ordered /\
      PostgresApplicationRecorder.select_notifications start limit db =
        (Ok page, db) /\
      Forall2 carries page (firstn (Z.to_nat limit) ordered)) /\
  (forall r db',
      PostgresApplicationRecorder.select_notifications start limit db = (r, db') ->
      db' = db /\
      PostgresApplicationRecorder.select_notifications start limit db' = (r, db') /\
      exists page, r = Ok page /\ Z.of_nat (List.length page) <= limit) /\
  (NoDup (map rowid (events_table db)) ->
   forall page d limit2,
     PostgresApplicationRecorder.select_notifications start limit db =
       (Ok page, db) ->
     page <> [] ->
     0 <= limit2 ->
     Z.of_nat (List.length page) + limit2 < 2 ^ 63 ->
     let last_id := Notification.id (last page d) in
     exists next,
       PostgresApplicationRecorder.select_notifications (last_id + 1) limit2 db =
         (Ok next, db) /\
       Forall (fun n => last_id < Notification.id n) next /\
       PostgresApplicationRecorder.select_notifications
         start (Z.of_nat (List.length page) + limit2) db =
         (Ok (page ++ next), db)).
Proof.
  intros Hlimit.
  set (selection := Sql.order_by rowid false
                      (filter (fun r => start <=? rowid r) (events_table db))).
  pose proof (select_notifications_Ok start limit db Hlimit) as Hsel.
  fold selection in Hsel.
  split; [|split].
  - exists selection. eexists.
    split; [apply order_by_perm|]. split; [|split; [|split]].
    + intros r. rewrite <- Z.leb_le, <- (filter_In (fun r => start <=? rowid r)).
      split; apply Permutation_in;
        [apply order_by_perm | symmetry; apply order_by_perm].
    + apply (order_by_sorted rowid false).
    + exact Hsel.
    + apply notification_of_carries.
  - intros r db' Hrun. rewrite Hsel in Hrun. injection Hrun as <- <-.
    split; [reflexivity|]. split; [exact Hsel|].
    eexists. split; [reflexivity|].
    rewrite length_map. pose proof (firstn_le_length (Z.to_nat limit) selection).
    lia.
  - intros Hnd page d limit2 Hpage Hne Hlimit2 Hboth last_id.
    rewrite Hsel in Hpage. injection Hpage as Hpage.
    set (k := Z.to_nat limit) in *.
    assert (Hrows : firstn k selection <> [])
      by (intros E; apply Hne; rewrite <- Hpage, E; reflexivity).
    set (d0 := hd (mkRow 0 (StoredEvent.make 0%N 0 EmptyString [])) selection).
    destruct (rows_after_page (events_table db) start k d0 Hnd Hrows)
      as [Hafter Hhigh].
    fold selection in Hafter, Hhigh.
    assert (Hlast : last_id = rowid (last (firstn k selection) d0)).
    { subst last_id. rewrite <- Hpage.
      now rewrite (last_map_nonempty _ _ d0 d Hrows). }
    rewrite <- Hlast in Hafter, Hhigh.
    exists (map PostgresApplicationRecorder.notification_of
                (firstn (Z.to_nat limit2) (skipn k selection))).
    split; [|split].
    + rewrite select_notifications_Ok by lia. now rewrite Hafter.
    + apply Forall_forall. intros n Hn. apply in_map_iff in Hn.
      destruct Hn as (r & <- & Hr). apply In_firstn_In in Hr.
      rewrite Forall_forall in Hhigh. now apply Hhigh.
    + rewrite select_notifications_Ok by lia. fold selection.
      pose proof (firstn_app_2 (Z.to_nat limit2) (firstn k selection)
                    (skipn k selection)) as E.
      rewrite firstn_skipn in E.
      rewrite <- Hpage, <- map_app, length_map, <- E.
      now rewrite Z2Nat.inj_add, Nat2Z.id by lia.
Qed.

(** The store with gaps, read from 1 in pages of two: ids 1, 2 and then,
    from 3, ids 5, 7. *)
Lemma select_notifications_page_witness :
  exists next,
    PostgresApplicationRecorder.select_notifications 3 2 store_with_gaps =
      (Ok next, store_with_gaps) /\
    map Notification.id next = [5; 7] /\
    exists page,
      PostgresApplicationRecorder.select_notifications 1 2 store_with_gaps =
        (Ok page, store_with_gaps) /\
      PostgresApplicationRecorder.select_notifications 1 4 store_with_gaps =
        (Ok (page ++ next), store_with_gaps).
Proof.
  destruct (select_notifications_page 1 2 store_with_gaps ltac:(lia))
    as (_ & _ & Hnext).
  assert (Hnd : NoDup (map rowid (events_table store_with_gaps))).
  { simpl. repeat constructor; simpl; intuition discriminate. }
  destruct (Hnext Hnd _ (Notification.make 0 0%N 0 EmptyString []) 2 eq_refl)
    as (next & Hsel & _ & Hall); [discriminate|lia|simpl; lia|].
  exists next. split; [exact Hsel|].
  split; [|eexists; split; [reflexivity|exact Hall]].
  vm_compute in Hsel. now injection Hsel as <-.
Defined.

(** ** Appending events *)

Lemma insert_event_spec (c : bool) (e : StoredEvent.t) (w : Database) :
  match Cursor.insert_event c e w with
  | (Ok _, w') =>
      events_table w' = events_table w ++ [mkRow (rowid_seq w + 1) e] /\
      rowid_seq w' = rowid_seq w + 1 /\
      tracking_table w' = tracking_table w /\
      Sql.in_integer (StoredEvent.originator_version e) = true /\
      existsb (fun r => Cursor.same_key e r
                        || (c && (rowid r =? rowid_seq w + 1)))
              (events_table w) = false /\
      Psycopg2.has_nul (StoredEvent.topic e) = false /\
      (c = true -> Sql.in_integer (rowid_seq w + 1) = true)
  | (Raise x, w') =>
      events_table w' = events_table w /\
      tracking_table w' = tracking_table w /\
      (x = psycopg2_IntegrityError \/ x = psycopg2_DataError \/ x = ValueError)
  end.
Proof.
  unfold Cursor.insert_event.
  destruct (Psycopg2.has_nul _); [cbn; auto|].
  destruct (Sql.in_integer (StoredEvent.originator_version e));
    cbn [negb]; [|auto].
  destruct c; cbn [andb].
  - destruct (Sql.in_integer (rowid_seq w + 1)); cbn [negb]; [|auto].
    destruct (existsb _ _); cbn [events_table rowid_seq tracking_table];
      [auto|]. do 6 (split; [reflexivity|]). reflexivity.
  - destruct (existsb _ _); cbn [events_table rowid_seq tracking_table];
      [auto|]. do 6 (split; [reflexivity|]). discriminate.
Qed.

Lemma executemany_insert_spec (c : bool) (events : list StoredEvent.t)
  (w : Database) :
  match Cursor.executemany (Cursor.insert_event c) events w with
  | (Ok _, w') =>
      events_table w' = events_table w ++ number_rows (rowid_seq w) events /\
      tracking_table w' = tracking_table w
  | (Raise x, w') =>
      (exists done, events_table w' = events_table w ++ done) /\
      tracking_table w' = tracking_table w /\
      (x = psycopg2_IntegrityError \/ x = psycopg2_DataError \/ x = ValueError)
  end.
Proof.
  revert w. induction events as [|e es IH]; intros w; simpl.
  - unfold ret. now rewrite app_nil_r.
  - unfold bind. pose proof (insert_event_spec c e w) as He.
    destruct (Cursor.insert_event c e w) as [[[]|x] w1].
    + destruct He as (Ht & Hs & Hk & _). specialize (IH w1).
      destruct (Cursor.executemany (Cursor.insert_event c) es w1)
        as [[[]|x] w2].
      * destruct IH as [IH1 IH2]. rewrite IH1, Ht, Hs, IH2, Hk.
        now rewrite <- app_assoc.
      * destruct IH as ((done & IH1) & IH2 & IH3). rewrite IH2, Hk.
        split; [|split; [reflexivity|exact IH3]].
        exists (mkRow (rowid_seq w + 1) e :: done).
        now rewrite IH1, Ht, <- app_assoc.
    + destruct He as (Ht & Hk & Hx).
      split; [|split; [exact Hk|exact Hx]].
      exists []. now rewrite app_nil_r.
Qed.

(** A key that is already stored makes the batch fail. *)
Lemma executemany_insert_conflict (c : bool) (events : list StoredEvent.t)
  (w : Database) (e : StoredEvent.t) :
  In e events ->
  existsb (Cursor.same_key e) (events_table w) = true ->
  exists x w',
    Cursor.executemany (Cursor.insert_event c) events w = (Raise x, w').
Proof.
  revert w. induction events as [|e0 es IH]; intros w Hin Hdup; [contradiction|].
  simpl. unfold bind. pose proof (insert_event_spec c e0 w) as He.
  destruct (Cursor.insert_event c e0 w) as [[[]|x] w1]; [|eauto].
  destruct He as (Ht & _ & _ & _ & Hfresh & _).
  destruct Hin as [->|Hin].
  - exfalso. apply existsb_exists in Hdup. destruct Hdup as (r & Hr & Hk).
    assert (existsb (fun r => Cursor.same_key e r
                              || (c && (rowid r =? rowid_seq w + 1)))
                    (events_table w) = true); [|congruence].
    apply existsb_exists. exists r. now rewrite Hk.
  - apply (IH w1 Hin). rewrite Ht, existsb_app, Hdup. reflexivity.
Qed.

Lemma try_except_integrity {A : Type} (m : M Database A) (w : Database) :
  match try_except m is_psycopg2_IntegrityError IntegrityError w with
  | (Ok a, w') => m w = (Ok a, w')
  | (Raise x, w') =>
      exists x0, m w = (Raise x0, w') /\
                 x = (if is_psycopg2_IntegrityError x0 then IntegrityError else x0)
  end.
Proof.
  unfold try_except. destruct (m w) as [[a|x] w']; [reflexivity|].
  destruct (is_psycopg2_IntegrityError x) eqn:E; eexists; split; eauto;
    now rewrite E.
Qed.

(** What the inherited [_insert_events] does to the working state. *)
Lemma insert_body_on (c : bool) (events : list StoredEvent.t)
  (tracking : option Tracking.t) (w : Database) :
  match PostgresAggregateRecorder._insert_events_on c events tracking w with
  | (Ok _, w') =>
      events_table w' = events_table w ++ number_rows (rowid_seq w) events /\
      tracking_table w' = tracking_table w
  | (Raise x, w') =>
      x = IntegrityError \/ x = psycopg2_DataError \/ x = ValueError
  end.
Proof.
  unfold PostgresAggregateRecorder._insert_events_on.
  pose proof (try_except_integrity
                (Cursor.executemany (Cursor.insert_event c) events) w) as Hb.
  pose proof (executemany_insert_spec c events w) as Hs.
  destruct (try_except _ _ _ w) as [[[]|x] w1].
  - now rewrite Hb in Hs.
  - destruct Hb as (x0 & Hb & ->). rewrite Hb in Hs.
    destruct Hs as (_ & _ & [-> | [-> | ->]]); auto.
Qed.

Lemma aggregate_insert_body (events : list StoredEvent.t)
  (tracking : option Tracking.t) (w : Database) :
  match PostgresAggregateRecorder._insert_events events tracking w with
  | (Ok _, w') =>
      events_table w' = events_table w ++ number_rows (rowid_seq w) events /\
      tracking_table w' = tracking_table w
  | (Raise x, w') =>
      x = IntegrityError \/ x = psycopg2_DataError \/ x = ValueError
  end.
Proof. exact (insert_body_on false events tracking w). Qed.

Lemma application_insert_body (events : list StoredEvent.t)
  (tracking : option Tracking.t) (w : Database) :
  match PostgresApplicationRecorder._insert_events events tracking w with
  | (Ok _, w') =>
      events_table w' = events_table w ++ number_rows (rowid_seq w) events /\
      tracking_table w' = tracking_table w
  | (Raise x, w') =>
      x = IntegrityError \/ x = psycopg2_DataError \/ x = ValueError
  end.
Proof. exact (insert_body_on true events tracking w). Qed.

Lemma insert_tracking_spec (t : Tracking.t) (w : Database) :
  match Cursor.insert_tracking t w with
  | (Ok _, w') =>
      w' = mkDatabase (events_table w) (rowid_seq w) (tracking_table w ++ [t]) /\
      Psycopg2.has_nul (Tracking.application_name t) = false /\
      Sql.in_integer (Tracking.notification_id t) = true /\
      existsb (Cursor.same_tracking t) (tracking_table w) = false
  | (Raise x, w') =>
      w' = w /\
      x = (if Psycopg2.has_nul (Tracking.application_name t) then ValueError
           else if Sql.in_integer (Tracking.notification_id t)
                then psycopg2_IntegrityError else psycopg2_DataError)
  end.
Proof.
  unfold Cursor.insert_tracking.
  destruct (Psycopg2.has_nul _); [now split|].
  destruct (Sql.in_integer _); cbn [negb]; [|now split].
  destruct (existsb _ _); now repeat split.
Qed.

(** What the transaction body of the process recorder does to the working
    state. *)
Lemma process_insert_body (events : list StoredEvent.t)
  (tracking : option Tracking.t) (w : Database) :
  match PostgresProcessRecorder._insert_events events tracking w with
  | (Ok _, w') =>
      events_table w' = events_table w ++ number_rows (rowid_seq w) events /\
      tracking_table w' =
        tracking_table w ++ match tracking with Some t => [t] | None => [] end /\
      forall t, tracking = Some t ->
                existsb (Cursor.same_tracking t) (tracking_table w) = false
  | (Raise x, w') =>
      x = IntegrityError \/ x = psycopg2_DataError \/ x = ValueError
  end.
Proof.
  unfold PostgresProcessRecorder._insert_events, bind.
  pose proof (application_insert_body events tracking w) as Hs.
  destruct (PostgresApplicationRecorder._insert_events events tracking w)
    as [[[]|x] w1]; [|exact Hs].
  destruct Hs as [Hs1 Hs2].
  destruct tracking as [t|].
  - pose proof (try_except_integrity (Cursor.insert_tracking t) w1) as Ht.
    pose proof (insert_tracking_spec t w1) as Hi.
    destruct (try_except _ _ _ w1) as [[[]|x] w2].
    + rewrite Ht in Hi. destruct Hi as (-> & _ & _ & Hnew).
      cbn [events_table tracking_table]. rewrite Hs1, Hs2.
      split; [reflexivity|]. split; [reflexivity|].
      intros t' [= <-]. now rewrite <- Hs2.
    + destruct Ht as (x0 & Ht & ->). rewrite Ht in Hi.
      destruct Hi as (_ & ->).
      destruct (Psycopg2.has_nul _); [auto|].
      destruct (Sql.in_integer _); auto.
  - unfold ret. rewrite Hs1, Hs2, app_nil_r.
    split; [reflexivity|]. split; [reflexivity|]. discriminate.
Qed.

(** The appends keep the constraints of the events table, on a table with
    the [rowid] column and its unique index. *)
Lemma insert_event_constraints (e : StoredEvent.t) (w : Database) :
  constraints_hold w -> constraints_hold (snd (Cursor.insert_event true e w)).
Proof.
  intros [Hk Hr]. pose proof (insert_event_spec true e w) as Hs.
  destruct (Cursor.insert_event true e w) as [[[]|x] w']; cbn [snd].
  - destruct Hs as (Ht & _ & _ & _ & Hfresh & _). unfold constraints_hold.
    rewrite Ht, !map_app. cbn [map].
    assert (Hnot : forall r, In r (events_table w) ->
                     key_of r <> key_of (mkRow (rowid_seq w + 1) e) /\
                     rowid r <> rowid_seq w + 1).
    { intros r Hin.
      assert (Hb : Cursor.same_key e r
                   || (true && (rowid r =? rowid_seq w + 1)) = false).
      { destruct (_ || _) eqn:E; [|reflexivity].
        rewrite <- Hfresh. symmetry. apply existsb_exists. eauto. }
      apply orb_false_iff in Hb. destruct Hb as [Hb1 Hb2].
      cbn [andb] in Hb2.
      split; [|now apply Z.eqb_neq].
      intros Heq. unfold key_of in Heq. cbn [event] in Heq.
      injection Heq as H1 H2. unfold Cursor.same_key in Hb1.
      rewrite H1, H2, N.eqb_refl, Z.eqb_refl in Hb1. discriminate. }
    split; (apply NoDup_app; [assumption| repeat constructor; intros [] |]);
      intros a Ha [<-|[]]; apply in_map_iff in Ha;
      destruct Ha as (r & Hr1 & Hr2); destruct (Hnot r Hr2); auto.
  - destruct Hs as (Ht & _). unfold constraints_hold. now rewrite Ht.
Qed.

Lemma executemany_constraints (events : list StoredEvent.t) (w : Database) :
  constraints_hold w ->
  constraints_hold
    (snd (Cursor.executemany (Cursor.insert_event true) events w)).
Proof.
  revert w. induction events as [|e es IH]; intros w Hw; [exact Hw|].
  simpl. unfold bind.
  pose proof (insert_event_constraints e w Hw) as H1.
  destruct (Cursor.insert_event true e w) as [[[]|x] w1]; [|exact H1].
  now apply IH.
Qed.

Lemma try_except_state {A : Type} (m : M Database A) (caught : exn -> bool)
  (e2 : exn) (w : Database) :
  snd (try_except m caught e2 w) = snd (m w).
Proof.
  unfold try_except. destruct (m w) as [[a|x] w']; [reflexivity|].
  now destruct (caught x).
Qed.

Lemma insert_tracking_events (t : Tracking.t) (w : Database) :
  events_table (snd (Cursor.insert_tracking t w)) = events_table w.
Proof.
  pose proof (insert_tracking_spec t w) as Hi.
  destruct (Cursor.insert_tracking t w) as [[[]|x] w']; cbn [snd].
  - now destruct Hi as (-> & _).
  - now destruct Hi as (-> & _).
Qed.

Lemma transaction_constraints {A : Type} (body : M Database A) (db : Database) :
  constraints_hold db -> constraints_hold (snd (body db)) ->
  constraints_hold (snd (PostgresDatabase.transaction body db)).
Proof.
  intros Hdb Hbody. unfold PostgresDatabase.transaction.
  destruct (body db) as [[a|x] w]; [exact Hbody|exact Hdb].
Qed.

Lemma insert_events_constraints (events : list StoredEvent.t)
  (tracking : option Tracking.t) (db : Database) :
  constraints_hold db ->
  constraints_hold
    (snd (PostgresApplicationRecorder.insert_events events tracking db)) /\
  constraints_hold
    (snd (PostgresProcessRecorder.insert_events events tracking db)).
Proof.
  intros Hdb.
  assert (Happ : constraints_hold
            (snd (PostgresApplicationRecorder._insert_events events tracking db))).
  { unfold PostgresApplicationRecorder._insert_events,
      PostgresAggregateRecorder._insert_events_on.
    rewrite try_except_state. now apply executemany_constraints. }
  split; apply transaction_constraints; try assumption.
  unfold PostgresProcessRecorder._insert_events, bind.
  destruct (PostgresApplicationRecorder._insert_events events tracking db)
    as [[[]|x] w]; [|exact Happ].
  cbn [snd] in Happ. destruct tracking as [t|]; [|exact Happ].
  unfold constraints_hold. rewrite try_except_state, insert_tracking_events.
  exact Happ.
Qed.

Lemma insert_conflict_on (c : bool) (events : list StoredEvent.t)
  (tracking : option Tracking.t) (w : Database) (e : StoredEvent.t) :
  In e events ->
  existsb (Cursor.same_key e) (events_table w) = true ->
  exists x w',
    PostgresAggregateRecorder._insert_events_on c events tracking w
      = (Raise x, w').
Proof.
  intros Hin Hdup.
  destruct (executemany_insert_conflict c events w e Hin Hdup) as (x & w' & H).
  unfold PostgresAggregateRecorder._insert_events_on, try_except. rewrite H.
  destruct (is_psycopg2_IntegrityError x); eauto.
Qed.

Lemma aggregate_insert_conflict (events : list StoredEvent.t)
  (tracking : option Tracking.t) (w : Database) (e : StoredEvent.t) :
  In e events ->
  existsb (Cursor.same_key e) (events_table w) = true ->
  exists x w',
    PostgresAggregateRecorder._insert_events events tracking w = (Raise x, w').
Proof. exact (insert_conflict_on false events tracking w e). Qed.

Lemma application_insert_conflict (events : list StoredEvent.t)
  (tracking : option Tracking.t) (w : Database) (e : StoredEvent.t) :
  In e events ->
  existsb (Cursor.same_key e) (events_table w) = true ->
  exists x w',
    PostgresApplicationRecorder._insert_events events tracking w = (Raise x, w').
Proof. exact (insert_conflict_on true events tracking w e). Qed.

Lemma aggregate_all_or_nothing (events : list StoredEvent.t)
  (tracking : option Tracking.t) (db : Database) :
  all_or_nothing (PostgresAggregateRecorder.insert_events events tracking) db
                 (number_rows (rowid_seq db) events) [].
Proof.
  unfold PostgresAggregateRecorder.insert_events,
    PostgresAggregateRecorder.insert_events_with, PostgresDatabase.transaction,
    all_or_nothing.
  pose proof (aggregate_insert_body events tracking db) as Hb.
  destruct (PostgresAggregateRecorder._insert_events events tracking db)
    as [[[]|x] w].
  - left. exists w. rewrite app_nil_r. destruct Hb. auto.
  - right. exists x, (PostgresDatabase.rollback db w). auto.
Qed.

Lemma application_all_or_nothing (events : list StoredEvent.t)
  (tracking : option Tracking.t) (db : Database) :
  all_or_nothing (PostgresApplicationRecorder.insert_events events tracking) db
                 (number_rows (rowid_seq db) events) [].
Proof.
  unfold PostgresApplicationRecorder.insert_events,
    PostgresAggregateRecorder.insert_events_with, PostgresDatabase.transaction,
    all_or_nothing.
  pose proof (application_insert_body events tracking db) as Hb.
  destruct (PostgresApplicationRecorder._insert_events events tracking db)
    as [[[]|x] w].
  - left. exists w. rewrite app_nil_r. destruct Hb. auto.
  - right. exists x, (PostgresDatabase.rollback db w). auto.
Qed.

Lemma process_all_or_nothing (events : list StoredEvent.t)
  (tracking : option Tracking.t) (db : Database) :
  all_or_nothing (PostgresProcessRecorder.insert_events events tracking) db
                 (number_rows (rowid_seq db) events)
                 match tracking with Some t => [t] | None => [] end.
Proof.
  unfold PostgresProcessRecorder.insert_events,
    PostgresAggregateRecorder.insert_events_with, PostgresDatabase.transaction,
    all_or_nothing.
  pose proof (process_insert_body events tracking db) as Hb.
  destruct (PostgresProcessRecorder._insert_events events tracking db)
    as [[[]|x] w].
  - left. exists w. destruct Hb as (? & ? & _). auto.
  - right. exists x, (PostgresDatabase.rollback db w). auto.
Qed.

(** C3: [insert_events] is all or nothing, in the aggregate recorder and in
    the process recorder: either it returns, and every event has its row
    (and the tracking row is there when one was given), or it raises, and
    the events table and the tracking table are what they were.  It raises
    whenever the key of one of the events is already stored; and whatever
    a transaction's body does before it raises, of whatever exception, the
    tables are what they were. *)
Theorem insert_events_atomic (events : list StoredEvent.t)
  (tracking : option Tracking.t) (db : Database) :
  all_or_nothing (PostgresAggregateRecorder.insert_events events tracking) db
                 (number_rows (rowid_seq db) events) [] /\
  all_or_nothing (PostgresProcessRecorder.insert_events events tracking) db
                 (number_rows (rowid_seq db) events)
                 match tracking with Some t => [t] | None => [] end /\
  (forall e, In e events ->
             existsb (Cursor.same_key e) (events_table db) = true ->
     (exists x db',
         PostgresAggregateRecorder.insert_events events tracking db
           = (Raise x, db')) /\
     (exists x db',
         PostgresProcessRecorder.insert_events events tracking db
           = (Raise x, db'))) /\
  (forall (A : Type) (body : M Database A) x db',
      PostgresDatabase.transaction body db = (Raise x, db') ->
      events_table db' = events_table db /\
      tracking_table db' = tracking_table db).
Proof.
  split; [apply aggregate_all_or_nothing|].
  split; [apply process_all_or_nothing|].
  split;
    [|intros A body x db'; unfold PostgresDatabase.transaction;
      destruct (body db) as [[a|e] w]; [discriminate|];
      intros [= <- <-]; split; reflexivity].
  intros e Hin Hdup.
  unfold PostgresAggregateRecorder.insert_events,
    PostgresProcessRecorder.insert_events,
    PostgresAggregateRecorder.insert_events_with, PostgresDatabase.transaction.
  destruct (aggregate_insert_conflict events tracking db e Hin Hdup)
    as (x & w & H).
  destruct (application_insert_conflict events tracking db e Hin Hdup)
    as (x' & w' & H').
  split.
  - rewrite H. eauto.
  - unfold PostgresProcessRecorder._insert_events, bind. rewrite H'. eauto.
Qed.

(** A batch whose second event repeats a stored key: the append raises and
    neither the row of the first event nor the tracking row is kept. *)
Lemma insert_events_atomic_witness :
  exists x db',
    PostgresProcessRecorder.insert_events
      [StoredEvent.make 1%N 8 "T" []; StoredEvent.make 1%N 5 "T" []]
      (Some (Tracking.make "upstream" 9)) store_with_gaps = (Raise x, db') /\
    events_table db' = events_table store_with_gaps /\
    tracking_table db' = tracking_table store_with_gaps.
Proof.
  pose proof (insert_events_atomic
                [StoredEvent.make 1%N 8 "T" []; StoredEvent.make 1%N 5 "T" []]
                (Some (Tracking.make "upstream" 9)) store_with_gaps)
    as (_ & Hall & Hconflict & _).
  destruct (Hconflict (StoredEvent.make 1%N 5 "T" [])) as [_ (x & db' & Hrun)];
    [simpl; auto | reflexivity |].
  exists x, db'. split; [exact Hrun|].
  destruct Hall as [(db1 & Hok & _) | (x1 & db1 & Hraise & Hev & Htr)].
  - rewrite Hrun in Hok. discriminate.
  - rewrite Hrun in Hraise. injection Hraise as _ <-. now split.
Defined.

(** Inside the transaction the rows written before a failure are there:
    the second event of the batch repeats the key of the first, and the
    body leaves the first row in the working state, which the rollback
    then drops. *)
Example rollback_drops_partial_rows :
  let e := StoredEvent.make 7%N 1 "Created" [] in
  PostgresAggregateRecorder._insert_events [e; e] None empty_database =
    (Raise IntegrityError, mkDatabase [mkRow 1 e] 2 []) /\
  PostgresAggregateRecorder.insert_events [e; e] None empty_database =
    (Raise IntegrityError, mkDatabase [] 2 []).
Proof. split; reflexivity. Qed.

(** ** Tracking *)

Lemma same_tracking_eq (t r : Tracking.t) :
  Cursor.same_tracking t r = true <-> r = t.
Proof.
  unfold Cursor.same_tracking. rewrite andb_true_iff, String.eqb_eq, Z.eqb_eq.
  destruct t, r; simpl. split; [intros [-> ->]; reflexivity|].
  intros [= -> ->]. now split.
Qed.

Lemma tracked_iff (t : Tracking.t) (l : list Tracking.t) :
  existsb (Cursor.same_tracking t) l = true <-> In t l.
Proof.
  rewrite existsb_exists. split.
  - intros (r & Hr & Hs). apply same_tracking_eq in Hs. now subst.
  - intros Hin. exists t. split; [exact Hin|]. now apply same_tracking_eq.
Qed.

Lemma or_zero_max (l : list Z) :
  or_zero (Sql.max l) =
    match l with
    | [] => 0
    | z :: l' => fold_left Z.max l' z
    end.
Proof.
  destruct l as [|z l]; [reflexivity|]. simpl.
  destruct (Z.eqb_spec (fold_left Z.max l z) 0); congruence.
Qed.

Lemma or_zero_max_app (l : list Z) (z : Z) :
  0 <= z -> or_zero (Sql.max l) <= or_zero (Sql.max (l ++ [z])).
Proof.
  intros Hz. rewrite !or_zero_max. destruct l as [|a l]; simpl; [exact Hz|].
  rewrite fold_left_app. simpl. lia.
Qed.

Lemma or_zero_max_snoc (l : list Z) (z : Z) :
  0 <= z -> or_zero (Sql.max (l ++ [z])) = Z.max (or_zero (Sql.max l)) z.
Proof.
  intros Hz. rewrite !or_zero_max. destruct l as [|a l]; simpl; [lia|].
  now rewrite fold_left_app.
Qed.

Lemma max_tracking_id_run (name : string) (db : Database) :
  Psycopg2.has_nul name = false ->
  PostgresProcessRecorder.max_tracking_id name db =
    (Ok (or_zero
           (Sql.max
              (map Tracking.notification_id
                   (filter (fun r => String.eqb (Tracking.application_name r)
                                                name)
                           (tracking_table db))))), db).
Proof.
  intros Hname. unfold PostgresProcessRecorder.max_tracking_id.
  now rewrite Hname.
Qed.

(** An append of the process recorder, from the append of the same events
    by the application recorder and the INSERT of the tracking row. *)
Lemma process_insert_run (events : list StoredEvent.t) (t : Tracking.t)
  (db : Database) :
  PostgresProcessRecorder.insert_events events (Some t) db =
    match PostgresApplicationRecorder.insert_events events None db with
    | (Ok _, db1) =>
        match Cursor.insert_tracking t db1 with
        | (Ok _, db2) => (Ok tt, db2)
        | (Raise x, _) =>
            (Raise (if is_psycopg2_IntegrityError x then IntegrityError else x),
             PostgresDatabase.rollback db db1)
        end
    | (Raise x, db1) => (Raise x, db1)
    end.
Proof.
  unfold PostgresProcessRecorder.insert_events,
    PostgresApplicationRecorder.insert_events,
    PostgresAggregateRecorder.insert_events_with, PostgresDatabase.transaction,
    PostgresProcessRecorder._insert_events,
    PostgresApplicationRecorder._insert_events,
    PostgresAggregateRecorder._insert_events_on, bind.
  destruct (try_except _ _ _ db) as [[[]|x] db1]; [|reflexivity].
  pose proof (insert_tracking_spec t db1) as Hi.
  unfold try_except.
  destruct (Cursor.insert_tracking t db1) as [[[]|x] db2]; [reflexivity|].
  destruct Hi as (-> & _).
  now destruct (is_psycopg2_IntegrityError x).
Qed.

(** Without a tracking row the process recorder appends as the application
    recorder does. *)
Lemma process_insert_none (events : list StoredEvent.t) (db : Database) :
  PostgresProcessRecorder.insert_events events None db =
  PostgresApplicationRecorder.insert_events events None db.
Proof.
  unfold PostgresProcessRecorder.insert_events,
    PostgresApplicationRecorder.insert_events,
    PostgresAggregateRecorder.insert_events_with, PostgresDatabase.transaction,
    PostgresProcessRecorder._insert_events, bind.
  now destruct (PostgresApplicationRecorder._insert_events events None db)
    as [[[]|x] w].
Qed.

(** A tracking id below the recorded maximum is accepted when that very id
    has not been recorded: the table's key is the pair, and 3 is new for
    a consumer that recorded 5. *)
Lemma lower_tracking_id_accepted :
  let db := mkDatabase [] 0 [Tracking.make "upstream" 5] in
  let t := Tracking.make "upstream" 3 in
  PostgresProcessRecorder.max_tracking_id "upstream" db = (Ok 5, db) /\
  Tracking.notification_id t <= 5 /\
  PostgresProcessRecorder.insert_events [] (Some t) db =
    (Ok tt, mkDatabase [] 0 [Tracking.make "upstream" 5; t]) /\
  PostgresProcessRecorder.max_tracking_id "upstream"
    (mkDatabase [] 0 [Tracking.make "upstream" 5; t]) =
    (Ok 5, mkDatabase [] 0 [Tracking.make "upstream" 5; t]).
Proof. repeat split; try reflexivity. simpl. lia. Qed.

(** C2, amended.  A tracking row is a consumer name without the character
    NUL and a notification id that fits the [int] column, and the events
    of an append are acceptable when the append of the same events without
    a tracking row returns.  An append whose tracking row is already
    recorded raises and commits nothing, and with acceptable events the
    exception is [IntegrityError], the conflict.  An append of acceptable
    events whose tracking row is not recorded returns and records the row,
    whether its id is below, at or above [max_tracking_id] of the
    consumer; when the id is not negative and at most that maximum, the
    maximum stays what it was.  An append that returns has added its row,
    which was not there before, so no row is recorded twice; and for a
    notification id that is not negative, [max_tracking_id] of every
    consumer is at least what it was. *)
Theorem tracking_conflict (events : list StoredEvent.t) (t : Tracking.t)
  (db : Database) :
  (In t (tracking_table db) ->
   exists x db',
     PostgresProcessRecorder.insert_events events (Some t) db = (Raise x, db') /\
     events_table db' = events_table db /\
     tracking_table db' = tracking_table db /\
     (Psycopg2.has_nul (Tracking.application_name t) = false ->
      Sql.in_integer (Tracking.notification_id t) = true ->
      (exists db1,
          PostgresProcessRecorder.insert_events events None db
            = (Ok tt, db1)) ->
      x = IntegrityError)) /\
  (~ In t (tracking_table db) ->
   Psycopg2.has_nul (Tracking.application_name t) = false ->
   Sql.in_integer (Tracking.notification_id t) = true ->
   forall db1 m,
     PostgresProcessRecorder.insert_events events None db = (Ok tt, db1) ->
     PostgresProcessRecorder.max_tracking_id (Tracking.application_name t) db
       = (Ok m, db) ->
     exists db',
       PostgresProcessRecorder.insert_events events (Some t) db = (Ok tt, db') /\
       events_table db' = events_table db1 /\
       tracking_table db' = tracking_table db ++ [t] /\
       (0 <= Tracking.notification_id t <= m ->
        PostgresProcessRecorder.max_tracking_id (Tracking.application_name t) db'
          = (Ok m, db'))) /\
  (forall db',
      PostgresProcessRecorder.insert_events events (Some t) db = (Ok tt, db') ->
      ~ In t (tracking_table db) /\
      tracking_table db' = tracking_table db ++ [t] /\
      (NoDup (tracking_table db) -> NoDup (tracking_table db'))) /\
  (0 <= Tracking.notification_id t ->
   forall r db' name,
     Psycopg2.has_nul name = false ->
     PostgresProcessRecorder.insert_events events (Some t) db = (r, db') ->
     exists m m',
       PostgresProcessRecorder.max_tracking_id name db = (Ok m, db) /\
       PostgresProcessRecorder.max_tracking_id name db' = (Ok m', db') /\
       m <= m').
Proof.
  split; [|split].
  - (* the row is recorded *)
    intros Hin.
    destruct (process_all_or_nothing events (Some t) db)
      as [(db1 & Hrun & _ & Htr) | (x & db1 & Hrun & Hev & Htr)].
    + exfalso.
      unfold PostgresProcessRecorder.insert_events,
        PostgresAggregateRecorder.insert_events_with,
        PostgresDatabase.transaction in Hrun.
      pose proof (process_insert_body events (Some t) db) as Hb.
      destruct (PostgresProcessRecorder._insert_events events (Some t) db)
        as [[[]|x] w]; [|discriminate].
      destruct Hb as (_ & _ & Hb). apply tracked_iff in Hin.
      rewrite (Hb t eq_refl) in Hin. discriminate.
    + exists x, db1. split; [exact Hrun|]. split; [exact Hev|].
      split; [exact Htr|]. intros Hname Hid (db2 & Happ).
      rewrite process_insert_none in Happ.
      rewrite process_insert_run, Happ in Hrun.
      destruct (application_all_or_nothing events None db)
        as [(db3 & Hrun3 & _ & Htr3) | (x3 & db3 & Hrun3 & _)];
        rewrite Happ in Hrun3; [|discriminate].
      injection Hrun3 as <-.
      unfold Cursor.insert_tracking in Hrun. rewrite Hname, Hid in Hrun.
      cbn [negb] in Hrun. apply tracked_iff in Hin.
      rewrite Htr3, app_nil_r, Hin in Hrun.
      now injection Hrun as <- _.
  - (* the row is new *)
    intros Hnew Hname Hid db1 m Happ Hmax.
    rewrite process_insert_none in Happ.
    destruct (application_all_or_nothing events None db)
      as [(db3 & Hrun3 & _ & Htr3) | (x3 & db3 & Hrun3 & _)];
      rewrite Happ in Hrun3; [|discriminate].
    injection Hrun3 as <-. rewrite app_nil_r in Htr3.
    assert (Hfresh : existsb (Cursor.same_tracking t) (tracking_table db1)
                     = false).
    { rewrite Htr3. destruct (existsb _ _) eqn:E; [|reflexivity].
      apply tracked_iff in E. contradiction. }
    eexists. split; [|split; [|split]].
    + rewrite process_insert_run, Happ. unfold Cursor.insert_tracking.
      rewrite Hname, Hid, Hfresh. reflexivity.
    + reflexivity.
    + cbn [tracking_table]. now rewrite Htr3.
    + intros Hbelow. rewrite max_tracking_id_run in * by exact Hname.
      injection Hmax as Hmax. f_equal. f_equal.
      cbn [tracking_table]. rewrite Htr3, filter_app, map_app.
      cbn [filter]. rewrite String.eqb_refl. cbn [map].
      rewrite or_zero_max_snoc by lia. lia.
  - destruct (process_all_or_nothing events (Some t) db)
      as [(db1 & Hrun & Hev & Htr) | (x & db1 & Hrun & Hev & Htr)].
    + (* the append returns *)
      assert (Hnew : ~ In t (tracking_table db)).
      { rewrite <- tracked_iff.
        unfold PostgresProcessRecorder.insert_events,
          PostgresAggregateRecorder.insert_events_with,
          PostgresDatabase.transaction in Hrun.
        pose proof (process_insert_body events (Some t) db) as Hb.
        destruct (PostgresProcessRecorder._insert_events events (Some t) db)
          as [[[]|x] w]; [|discriminate].
        destruct Hb as (_ & _ & Hb). now rewrite (Hb t eq_refl). }
      split.
      * intros db' Hrun'. rewrite Hrun in Hrun'. injection Hrun' as <-.
        split; [exact Hnew|]. split; [exact Htr|].
        intros Hnd. rewrite Htr. apply NoDup_app; auto.
        -- repeat constructor. intros [].
        -- intros a Ha [<-|[]]. contradiction.
      * intros Hid r db' name Hname Hrun'. rewrite Hrun in Hrun'.
        injection Hrun' as <- <-.
        rewrite !max_tracking_id_run by exact Hname.
        do 2 eexists. split; [reflexivity|]. split; [reflexivity|].
        rewrite Htr, filter_app, map_app. simpl.
        destruct (String.eqb (Tracking.application_name t) name); simpl.
        -- now apply or_zero_max_app.
        -- rewrite app_nil_r. lia.
    + (* the append raises *)
      split.
      * intros db' Hrun'. rewrite Hrun in Hrun'. discriminate.
      * intros Hid r db' name Hname Hrun'. rewrite Hrun in Hrun'.
        injection Hrun' as <- <-.
        rewrite !max_tracking_id_run by exact Hname.
        do 2 eexists. split; [reflexivity|]. split; [reflexivity|].
        rewrite Htr. lia.
Qed.

(** The redelivery of notification 5 to a consumer that recorded it, with
    an event that is acceptable: the conflict, and nothing is committed. *)
Lemma tracking_conflict_witness :
  let e := StoredEvent.make 7%N 1 "Created" [] in
  let db := mkDatabase [] 0 [Tracking.make "upstream" 5] in
  In (Tracking.make "upstream" 5) (tracking_table db) /\
  exists db',
    PostgresProcessRecorder.insert_events [e]
      (Some (Tracking.make "upstream" 5)) db = (Raise IntegrityError, db') /\
    events_table db' = [] /\
    tracking_table db' = [Tracking.make "upstream" 5].
Proof.
  cbv zeta.
  assert (Hin : In (Tracking.make "upstream" 5)
                   (tracking_table
                      (mkDatabase [] 0 [Tracking.make "upstream" 5])))
    by (simpl; now left).
  split; [exact Hin|].
  destruct (proj1 (tracking_conflict
                     [StoredEvent.make 7%N 1 "Created" []]
                     (Tracking.make "upstream" 5)
                     (mkDatabase [] 0 [Tracking.make "upstream" 5])) Hin)
    as (x & db' & Hrun & Hev & Htr & Hx).
  exists db'. rewrite (Hx eq_refl eq_refl) in Hrun by (eexists; reflexivity).
  split; [exact Hrun|]. split; [exact Hev|exact Htr].
Defined.

(** ** The repository *)

Section RepositoryFacts.
Context {D : Domain}.

Lemma project_from (acc : Aggregate) (l : list StoredEvent.t) :
  exists a,
    fold_left (fun aggregate domain_event =>
                 Some (mutate domain_event aggregate)) l (Some acc) = Some a.
Proof.
  revert acc. induction l as [|e l IH]; intros acc; simpl; eauto.
Qed.

Lemma project_None (l : list StoredEvent.t) :
  Repository.project l = None <-> l = [].
Proof.
  unfold Repository.project. destruct l as [|e l]; simpl; [tauto|].
  destruct (project_from (mutate e None) l) as [a ->].
  split; discriminate.
Qed.

Lemma project_app (l1 l2 : list StoredEvent.t) :
  Repository.project (l1 ++ l2) =
    fold_left (fun aggregate domain_event =>
                 Some (mutate domain_event aggregate))
              l2 (Repository.project l1).
Proof. unfold Repository.project. apply fold_left_app. Qed.

Lemma project_last (l : list StoredEvent.t) (e : StoredEvent.t) :
  Repository.project (l ++ [e]) = Some (mutate e (Repository.project l)).
Proof. now rewrite project_app. Qed.

(** [get] reads the two stores and leaves them as they are. *)
Lemma get_run (aggregate_id : UUID) (version : option Z) (st : Stores) :
  Repository.get aggregate_id version st =
    let snapshot := latest_snapshot st aggregate_id version in
    let gt := match snapshot with
              | s :: _ => Some (version_of s)
              | [] => None
              end in
    (match Repository.project
             (map event snapshot
              ++ map event (stream_rows (event_store st) aggregate_id gt version))
     with
     | Some aggregate => Ok aggregate
     | None => Raise (AggregateNotFound aggregate_id version)
     end, st).
Proof.
  destruct st as [edb [sdb|]];
    unfold Repository.get, Repository.try_snapshot, bind, latest_snapshot,
      on_event_store, EventStore.get; cbn [snapshot_store event_store].
  - rewrite (select_events_run aggregate_id None version true (Some 1) sdb).
    unfold PostgresAggregateRecorder.select_events_query.
    rewrite limit_Ok by lia. change (Z.to_nat 1) with 1%nat.
    fold version_of.
    destruct (Sql.order_by version_of true _) as [|s l];
      cbn [firstn map app event_store snapshot_store];
      rewrite select_events_run;
      unfold PostgresAggregateRecorder.select_events_query, stream_rows;
      fold version_of; unfold version_of at 1;
      destruct (Repository.project _); reflexivity.
  - rewrite select_events_run.
    unfold PostgresAggregateRecorder.select_events_query, stream_rows.
    fold version_of. cbn [map app].
    destruct (Repository.project _); reflexivity.
Qed.

End RepositoryFacts.

Lemma latest_snapshot_spec (st : Stores) (aggregate_id : UUID)
  (version : option Z) :
  (latest_snapshot st aggregate_id version = [] /\
   forall r, In r (snapshot_rows st) ->
             PostgresAggregateRecorder.where_ aggregate_id None version r
             = false) \/
  (exists s,
      latest_snapshot st aggregate_id version = [s] /\
      In s (snapshot_rows st) /\
      PostgresAggregateRecorder.where_ aggregate_id None version s = true).
Proof.
  unfold latest_snapshot, snapshot_rows.
  destruct (snapshot_store st) as [sdb|]; [|left; split; [reflexivity|intros r []]].
  pose proof (order_by_perm version_of true
                (filter (PostgresAggregateRecorder.where_
                           aggregate_id None version) (events_table sdb)))
    as Hperm.
  destruct (Sql.order_by _ _ _) as [|s l].
  - left. split; [reflexivity|]. intros r Hr.
    apply Permutation_nil in Hperm.
    destruct (PostgresAggregateRecorder.where_ _ _ _ r) eqn:E; [|reflexivity].
    assert (Hin : In r []) by (rewrite <- Hperm; now apply filter_In).
    destruct Hin.
  - right. exists s. split; [reflexivity|].
    apply filter_In. eapply Permutation_in; [exact Hperm|now left].
Qed.

Lemma stream_rows_nil (db : Database) (aggregate_id : UUID)
  (gt lte : option Z) :
  stream_rows db aggregate_id gt lte = [] <->
  forall r, In r (events_table db) ->
            PostgresAggregateRecorder.where_ aggregate_id gt lte r = false.
Proof.
  unfold stream_rows.
  pose proof (order_by_perm version_of false
                (filter (PostgresAggregateRecorder.where_ aggregate_id gt lte)
                        (events_table db))) as Hperm.
  split.
  - intros E r Hr. rewrite E in Hperm. apply Permutation_nil in Hperm.
    destruct (PostgresAggregateRecorder.where_ _ _ _ r) eqn:Ew; [|reflexivity].
    assert (Hin : In r []) by (rewrite <- Hperm; now apply filter_In).
    destruct Hin.
  - intros Hall. destruct (Sql.order_by _ _ _) as [|r l]; [reflexivity|].
    assert (Hin : In r (filter (PostgresAggregateRecorder.where_
                                  aggregate_id gt lte) (events_table db)))
      by (eapply Permutation_in; [exact Hperm|now left]).
    apply filter_In in Hin. destruct Hin as [Hin Hw].
    rewrite (Hall r Hin) in Hw. discriminate.
Qed.

Lemma eligible_iff (aggregate_id : UUID) (version : option Z) (r : Row) :
  PostgresAggregateRecorder.where_ aggregate_id None version r = true <->
  StoredEvent.originator_id (event r) = aggregate_id /\
  (forall v, version = Some v -> StoredEvent.originator_version (event r) <= v).
Proof.
  rewrite where_spec. split; [tauto|]. intros [H1 H2].
  repeat split; auto. discriminate.
Qed.

(** C7: [Repository.get] raises [AggregateNotFound] exactly when neither
    the snapshot store (if there is one) nor the event store has a row of
    that aggregate at or below the version (any row, when no version is
    given); when there is such a row, it returns an aggregate.  The stores
    are left as they are. *)
Theorem get_not_found {D : Domain} (aggregate_id : UUID) (version : option Z)
  (st : Stores) :
  let eligible (r : Row) :=
    StoredEvent.originator_id (event r) = aggregate_id /\
    (forall v, version = Some v ->
               StoredEvent.originator_version (event r) <= v) in
  (Repository.get aggregate_id version st =
     (Raise (AggregateNotFound aggregate_id version), st)
   <->
   (forall r, In r (snapshot_rows st) -> ~ eligible r) /\
   (forall r, In r (events_table (event_store st)) -> ~ eligible r)) /\
  ((exists r, (In r (snapshot_rows st) \/ In r (events_table (event_store st)))
              /\ eligible r) ->
   exists aggregate, Repository.get aggregate_id version st = (Ok aggregate, st)).
Proof.
  intros eligible.
  assert (Hel : forall r, eligible r <->
    PostgresAggregateRecorder.where_ aggregate_id None version r = true)
    by (intros r; symmetry; apply eligible_iff).
  assert (Hcases :
    (Repository.get aggregate_id version st =
       (Raise (AggregateNotFound aggregate_id version), st) /\
     (forall r, In r (snapshot_rows st) -> ~ eligible r) /\
     (forall r, In r (events_table (event_store st)) -> ~ eligible r)) \/
    ((exists aggregate,
         Repository.get aggregate_id version st = (Ok aggregate, st)) /\
     exists r, (In r (snapshot_rows st) \/ In r (events_table (event_store st)))
               /\ eligible r)).
  { rewrite get_run. cbv zeta.
    destruct (latest_snapshot_spec st aggregate_id version)
      as [[-> Hnone] | (s & -> & Hs & Hw)].
    - cbn [map app].
      destruct (stream_rows (event_store st) aggregate_id None version)
        as [|r l] eqn:Erows.
      + left. split; [reflexivity|]. split.
        * intros r Hr. rewrite Hel, (Hnone r Hr). discriminate.
        * intros r Hr. rewrite Hel.
          rewrite (proj1 (stream_rows_nil _ _ _ _) Erows r Hr). discriminate.
      + right. split.
        * destruct (Repository.project (map event (r :: l))) eqn:Ep; eauto.
          apply project_None in Ep. discriminate.
        * exists r. split; [right|apply Hel].
          -- assert (Hin : In r (stream_rows (event_store st) aggregate_id
                                             None version))
               by (rewrite Erows; now left).
             apply sort_by_In, filter_In in Hin. tauto.
          -- assert (Hin : In r (stream_rows (event_store st) aggregate_id
                                             None version))
               by (rewrite Erows; now left).
             apply sort_by_In, filter_In in Hin. tauto.
    - right. split.
      + cbn [map app].
        destruct (Repository.project _) eqn:Ep; eauto.
        apply project_None in Ep. discriminate.
      + exists s. split; [now left|now apply Hel]. }
  destruct Hcases as [(Hget & Hs & He) | ((a & Hget) & r & Hr & Hel')].
  - split; [tauto|]. intros (r & [Hr|Hr] & Helr); exfalso;
      [apply (Hs r Hr Helr) | apply (He r Hr Helr)].
  - split; [|eauto]. rewrite Hget. split; [discriminate|].
    intros [Hs He]. exfalso. destruct Hr as [Hr|Hr];
      [apply (Hs r Hr Hel') | apply (He r Hr Hel')].
Qed.

(** ** Snapshots *)

Section SnapshotFacts.
Context {D : Domain} {L : DomainLaws D}.

Lemma replay_project (db : Database) (aggregate_id : UUID) (version : option Z) :
  replay db aggregate_id version =
    Repository.project (map event (stream_rows db aggregate_id None version)).
Proof. reflexivity. Qed.

(** The rows up to [version] are those up to [v] followed by those above
    [v], when [v] is within the bound. *)
Lemma stream_rows_split (db : Database) (aggregate_id : UUID) (v : Z)
  (version : option Z) :
  (forall b, version = Some b -> v <= b) ->
  stream_rows db aggregate_id None version =
    stream_rows db aggregate_id None (Some v)
    ++ stream_rows db aggregate_id (Some v) version.
Proof.
  intros Hv. unfold stream_rows, Sql.order_by.
  set (F := filter (PostgresAggregateRecorder.where_ aggregate_id None version)
                   (events_table db)).
  rewrite (sort_by_split (fun a b => version_of a <=? version_of b)
             (fun r => version_of r <=? v) F).
  - f_equal; f_equal; subst F; rewrite filter_filter_andb; apply filter_ext;
      intros r; unfold PostgresAggregateRecorder.where_, version_of;
      destruct (N.eqb _ _); simpl; try (now rewrite ?andb_false_r);
      destruct version as [b|]; specialize (Hv _ eq_refl) || clear Hv;
      repeat match goal with
             | |- context [?a <=? ?b] => destruct (Z.leb_spec a b)
             | |- context [?a <? ?b] => destruct (Z.ltb_spec a b)
             end; simpl; try reflexivity; lia.
  - intros a b Ha Hb. apply Z.leb_le in Ha. apply Z.leb_gt in Hb.
    apply Z.leb_le. lia.
  - intros a b Ha Hb. apply Z.leb_gt in Ha. apply Z.leb_le in Hb.
    apply Z.leb_gt. lia.
Qed.

(** Snapshot transparency for one read, given faithful snapshots. *)
Lemma get_replay (st : Stores) (aggregate_id : UUID) (version : option Z) :
  faithful st ->
  Repository.get aggregate_id version st =
    (match replay (event_store st) aggregate_id version with
     | Some aggregate => Ok aggregate
     | None => Raise (AggregateNotFound aggregate_id version)
     end, st).
Proof.
  intros Hf. rewrite get_run. cbv zeta.
  destruct (latest_snapshot_spec st aggregate_id version)
    as [[-> _] | (s & -> & Hs & Hw)]; [reflexivity|].
  f_equal. f_equal.
  apply eligible_iff in Hw. destruct Hw as [Hid Hle].
  cbn [map app].
  change (event s :: map event
            (stream_rows (event_store st) aggregate_id (Some (version_of s))
                         version))
    with ([event s] ++ map event
            (stream_rows (event_store st) aggregate_id (Some (version_of s))
                         version)).
  rewrite project_app.
  change (Repository.project [event s]) with (Some (mutate (event s) None)).
  rewrite <- (Hf s Hs), Hid.
  rewrite replay_project, <- project_app, <- map_app.
  rewrite <- (stream_rows_split _ _ (version_of s) version) by exact Hle.
  reflexivity.
Qed.

End SnapshotFacts.

Section SnapshotInvariant.
Context {D : Domain} {L : DomainLaws D}.

Lemma stream_rows_In (db : Database) (aggregate_id : UUID) (gt lte : option Z)
  (r : Row) :
  In r (stream_rows db aggregate_id gt lte) <->
  In r (events_table db) /\
  PostgresAggregateRecorder.where_ aggregate_id gt lte r = true.
Proof.
  unfold stream_rows, Sql.order_by. rewrite sort_by_In. apply filter_In.
Qed.

(** A replay that gives an aggregate ends with a stored event: the one of
    the highest version within the bound, which is the aggregate's. *)
Lemma replay_last_event (db : Database) (id : UUID) (version : option Z)
  (a : Aggregate) :
  replay db id version = Some a ->
  exists r,
    In r (events_table db) /\
    PostgresAggregateRecorder.where_ id None version r = true /\
    version_of r = aggregate_version a /\
    aggregate_id a = id /\
    forall r', In r' (events_table db) ->
               PostgresAggregateRecorder.where_ id None version r' = true ->
               version_of r' <= version_of r.
Proof.
  intros Hrep. rewrite replay_project in Hrep.
  destruct (stream_rows db id None version) as [|r1 l1] eqn:Erows;
    [discriminate|].
  destruct (@exists_last _ (r1 :: l1)) as (l0 & r0 & El); [discriminate|].
  rewrite El in Hrep, Erows. clear El r1 l1.
  rewrite map_app in Hrep. cbn [map] in Hrep. rewrite project_last in Hrep.
  injection Hrep as <-.
  assert (Hin : In r0 (stream_rows db id None version))
    by (rewrite Erows; apply in_or_app; right; now left).
  apply stream_rows_In in Hin. destruct Hin as [Hin Hw].
  exists r0. split; [exact Hin|]. split; [exact Hw|].
  split; [now rewrite mutate_version|]. split.
  - rewrite mutate_id. now apply eligible_iff in Hw.
  - intros r' Hr' Hw'.
    assert (Hin' : In r' (stream_rows db id None version))
      by now apply stream_rows_In.
    pose proof (order_by_sorted version_of false
                  (filter (PostgresAggregateRecorder.where_ id None version)
                          (events_table db))) as Hsorted.
    fold (stream_rows db id None version) in Hsorted. cbv beta iota in Hsorted.
    destruct (sorted_last_max _ _ r0 r' Hsorted Hin') as [E|Hle];
      rewrite Erows, last_last in *; [subst; lia|exact Hle].
Qed.

Lemma stream_rows_ext (db : Database) (id id' : UUID)
  (gt gt' lte lte' : option Z) :
  (forall r, In r (events_table db) ->
             PostgresAggregateRecorder.where_ id gt lte r =
             PostgresAggregateRecorder.where_ id' gt' lte' r) ->
  stream_rows db id gt lte = stream_rows db id' gt' lte'.
Proof.
  intros Hext. unfold stream_rows. f_equal. now apply filter_ext_in.
Qed.

Lemma stream_rows_new (db db' : Database) (new : list Row) (id : UUID)
  (gt lte : option Z) :
  events_table db' = events_table db ++ new ->
  (forall r, In r new -> PostgresAggregateRecorder.where_ id gt lte r = false) ->
  stream_rows db' id gt lte = stream_rows db id gt lte.
Proof.
  intros Htable Hnew. unfold stream_rows. rewrite Htable, filter_app.
  replace (filter _ new) with (@nil Row); [now rewrite app_nil_r|].
  symmetry. clear Htable. induction new as [|r new IH]; [reflexivity|]. simpl.
  rewrite (Hnew r) by now left. apply IH. intros r' Hr'. apply Hnew. now right.
Qed.

Lemma number_rows_event (seq : Z) (events : list StoredEvent.t) (r : Row) :
  In r (number_rows seq events) -> In (event r) events.
Proof.
  revert seq. induction events as [|e es IH]; intros seq; simpl; [tauto|].
  intros [<-|Hr]; [now left|right; eauto].
Qed.

Lemma bool_eq_iff (b1 b2 : bool) : (b1 = true <-> b2 = true) -> b1 = b2.
Proof. destruct b1, b2; intuition congruence. Qed.

Lemma save_faithful (st : Stores) (events : list StoredEvent.t) :
  faithful st -> continues (event_store st) events ->
  faithful (snd (Application.save events st)).
Proof.
  intros Hf Hc. unfold Application.save, on_event_store, EventStore.put.
  destruct (application_all_or_nothing events None (event_store st))
    as [(db' & Hrun & Hev & _) | (x & db' & Hrun & Hev & _)];
    rewrite Hrun; cbn [snd]; intros s Hs;
    change (snapshot_rows (mkStores db' (snapshot_store st)))
      with (snapshot_rows st) in Hs;
    cbn [event_store]; specialize (Hf s Hs); rewrite <- Hf;
    unfold replay; do 2 f_equal.
  - apply (stream_rows_new _ _ _ _ _ _ Hev). intros r Hr.
    destruct (replay_last_event _ _ _ _ Hf) as (r0 & Hr0 & Hw0 & Hv0 & _).
    rewrite mutate_version in Hv0.
    apply eligible_iff in Hw0. destruct Hw0 as [Hid0 _].
    destruct (PostgresAggregateRecorder.where_ _ _ _ r) eqn:Ew; [|reflexivity].
    exfalso. apply eligible_iff in Ew. destruct Ew as [Hid Hle].
    specialize (Hle _ eq_refl).
    pose proof (Hc (event r) r0 (number_rows_event _ _ _ Hr) Hr0
                   ltac:(congruence)) as Hlt.
    unfold version_of in *. lia.
  - apply (stream_rows_new _ _ [] _ _ _); [now rewrite app_nil_r|intros r []].
Qed.

Lemma take_snapshot_faithful (st : Stores) (id : UUID) (version : option Z) :
  faithful st -> faithful (snd (Application.take_snapshot id version st)).
Proof.
  intros Hf. unfold Application.take_snapshot, bind.
  rewrite (get_replay st id version Hf).
  destruct (replay (event_store st) id version) as [a|] eqn:Hrep;
    [|exact Hf].
  unfold Application.snapshots_put, EventStore.put.
  destruct (snapshot_store st) as [sdb|] eqn:Esnap; [|exact Hf].
  destruct (aggregate_all_or_nothing [take a] None sdb)
    as [(sdb' & Hrun & Hev & _) | (x & sdb' & Hrun & Hev & _)];
    rewrite Hrun; cbn [snd]; intros s Hs;
    unfold snapshot_rows in Hs; cbn [snapshot_store event_store] in *;
    rewrite Hev in Hs.
  - apply in_app_or in Hs. destruct Hs as [Hs|[<-|[]]].
    + apply Hf. unfold snapshot_rows. now rewrite Esnap.
    + unfold version_of. cbn [event].
      rewrite take_id, take_version, take_mutate.
      destruct (replay_last_event _ _ _ _ Hrep)
        as (r0 & Hr0 & Hw0 & Hv0 & Hida & Hmax).
      rewrite Hida, <- Hrep. unfold replay. do 2 f_equal.
      apply stream_rows_ext. intros r Hr. apply bool_eq_iff.
      rewrite !eligible_iff.
      apply eligible_iff in Hw0. destruct Hw0 as [Hid0 Hle0].
      split; intros [Hid Hle]; (split; [exact Hid|]); intros v Hv.
      * specialize (Hle _ eq_refl). specialize (Hle0 _ Hv).
        unfold version_of in *. lia.
      * injection Hv as <-. rewrite <- Hv0. apply (Hmax r Hr).
        apply eligible_iff. now split.
  - apply Hf. unfold snapshot_rows. now rewrite Esnap.
Qed.

Lemma reachable_faithful (st : Stores) : reachable st -> faithful st.
Proof.
  induction 1 as [db snapshotting|st events _ IH Hc|st id version _ IH].
  - intros s Hs. destruct snapshotting; destruct Hs.
  - now apply save_faithful.
  - now apply take_snapshot_faithful.
Qed.

End SnapshotInvariant.

(** C1: in every state that [save] and [take_snapshot] reach,
    [Repository.get] returns the left fold of [mutate] over the stored
    events of the aggregate in ascending version order (up to the version,
    when one is given), whatever snapshots have been taken; when a snapshot
    is used, the fold of the events above its version from the snapshot's
    aggregate is that same replay from scratch. *)
Theorem snapshot_transparency {D : Domain} {L : DomainLaws D} (st : Stores) :
  reachable st ->
  forall (id : UUID) (version : option Z),
    Repository.get id version st =
      (match replay (event_store st) id version with
       | Some aggregate => Ok aggregate
       | None => Raise (AggregateNotFound id version)
       end, st) /\
    (forall s, latest_snapshot st id version = [s] ->
       fold_left (fun aggregate domain_event =>
                    Some (mutate domain_event aggregate))
                 (map event (stream_rows (event_store st) id
                                         (Some (version_of s)) version))
                 (Some (mutate (event s) None)) =
       replay (event_store st) id version).
Proof.
  intros Hreach id version.
  pose proof (reachable_faithful st Hreach) as Hf.
  pose proof (get_replay st id version Hf) as Hget.
  split; [exact Hget|].
  intros s Hs. rewrite get_run in Hget. cbv zeta in Hget. rewrite Hs in Hget.
  cbn [map app] in Hget.
  change (event s :: map event
            (stream_rows (event_store st) id (Some (version_of s)) version))
    with ([event s] ++ map event
            (stream_rows (event_store st) id (Some (version_of s)) version))
    in Hget.
  rewrite project_app in Hget.
  change (Repository.project [event s]) with (Some (mutate (event s) None))
    in Hget.
  destruct (fold_left _ _ _) as [a|],
    (replay (event_store st) id version) as [a'|];
    congruence.
Qed.

Lemma journal_laws : DomainLaws journal.
Proof.
  split; try reflexivity.
  intros [[i v] h] prior. reflexivity.
Qed.

Lemma scenario_reachable : reachable (D := journal) scenario.
Proof.
  unfold scenario.
  apply reachable_save; [apply reachable_take_snapshot, reachable_save|].
  - apply (reachable_init empty_database true).
  - intros e r _ [].
  - intros e r [<-|[]] Hr Hid. vm_compute in Hr.
    destruct Hr as [<-|[<-|[]]]; simpl; lia.
Qed.

(** The scenario of the specification: [get] loads the snapshot at
    version 2 and the event at version 3; the result is the fold of the
    three events. *)
Lemma snapshot_transparency_witness :
  Repository.get (D := journal) 161%N None scenario =
    (Ok (161%N, 3, [x01; x02; x03]), scenario) /\
  map event (latest_snapshot scenario 161%N None) =
    [StoredEvent.make 161%N 2 "Snapshot" [x01; x02]] /\
  map event (stream_rows (event_store scenario) 161%N (Some 2) None) = [P 3 x03].
Proof.
  destruct (snapshot_transparency (L := journal_laws) scenario
              scenario_reachable 161%N None) as [Hget _].
  split; [rewrite Hget; reflexivity|]. split; reflexivity.
Defined.


(** * Further properties of the recorders *)

(** ** Row ids and the sequence *)

Lemma number_rows_ids (seq : Z) (events : list StoredEvent.t) :
  map rowid (number_rows seq events) = ids_after seq (List.length events) /\
  map event (number_rows seq events) = events.
Proof.
  revert seq. induction events as [|e es IH]; intros seq; simpl; [now split|].
  destruct (IH (seq + 1)) as [-> ->]. now split.
Qed.

Lemma ids_after_length (from : Z) (n : nat) :
  List.length (ids_after from n) = n.
Proof.
  revert from. induction n as [|n IH]; intros from; simpl; [reflexivity|].
  now rewrite IH.
Qed.

Lemma ids_after_bounds (from : Z) (n : nat) (i : Z) :
  In i (ids_after from n) -> from < i <= from + Z.of_nat n.
Proof.
  revert from. induction n as [|n IH]; intros from; simpl; [tauto|].
  intros [<-|Hi]; [lia|]. apply IH in Hi. lia.
Qed.

Lemma ids_after_sorted (from : Z) (n : nat) :
  StronglySorted Z.lt (ids_after from n).
Proof.
  revert from. induction n as [|n IH]; intros from; simpl; constructor.
  - apply IH.
  - apply Forall_forall. intros i Hi. apply ids_after_bounds in Hi. lia.
Qed.

Lemma insert_event_seq (c : bool) (e : StoredEvent.t) (w : Database) :
  match Cursor.insert_event c e w with
  | (Ok _, w') => rowid_seq w' = rowid_seq w + 1
  | (Raise _, w') => rowid_seq w <= rowid_seq w' <= rowid_seq w + 1
  end.
Proof.
  unfold Cursor.insert_event.
  destruct (Psycopg2.has_nul _); [lia|].
  destruct (Sql.in_integer (StoredEvent.originator_version e));
    cbn [negb]; [|lia].
  destruct (c && _); [lia|].
  destruct (existsb _ _); cbn [rowid_seq]; lia.
Qed.

Lemma executemany_seq (c : bool) (events : list StoredEvent.t) (w : Database) :
  match Cursor.executemany (Cursor.insert_event c) events w with
  | (Ok _, w') => rowid_seq w' = rowid_seq w + Z.of_nat (List.length events)
  | (Raise _, w') =>
      rowid_seq w <= rowid_seq w' <= rowid_seq w + Z.of_nat (List.length events)
  end.
Proof.
  revert w. induction events as [|e es IH]; intros w.
  - simpl. unfold ret. lia.
  - cbn [Cursor.executemany]. unfold bind.
    pose proof (insert_event_seq c e w) as He.
    destruct (Cursor.insert_event c e w) as [[[]|x] w1].
    + specialize (IH w1).
      destruct (Cursor.executemany (Cursor.insert_event c) es w1)
        as [[[]|x] w2];
        cbn [List.length]; lia.
    + cbn [List.length]. lia.
Qed.

Lemma insert_tracking_seq (t : Tracking.t) (w : Database) :
  rowid_seq (snd (Cursor.insert_tracking t w)) = rowid_seq w.
Proof.
  pose proof (insert_tracking_spec t w) as Hi.
  destruct (Cursor.insert_tracking t w) as [[[]|x] w']; cbn [snd];
    now destruct Hi as (-> & _).
Qed.

(** The sequence after an append: advanced by the number of events when
    the append returns, and never moved back. *)
Lemma process_insert_seq (events : list StoredEvent.t)
  (tracking : option Tracking.t) (db : Database) :
  match PostgresProcessRecorder.insert_events events tracking db with
  | (Ok _, db') => rowid_seq db' = rowid_seq db + Z.of_nat (List.length events)
  | (Raise _, db') =>
      rowid_seq db <= rowid_seq db' <=
        rowid_seq db + Z.of_nat (List.length events)
  end.
Proof.
  unfold PostgresProcessRecorder.insert_events,
    PostgresAggregateRecorder.insert_events_with, PostgresDatabase.transaction,
    PostgresProcessRecorder._insert_events,
    PostgresApplicationRecorder._insert_events,
    PostgresAggregateRecorder._insert_events_on, bind.
  pose proof (executemany_seq true events db) as Hs.
  pose proof (try_except_state
                (Cursor.executemany (Cursor.insert_event true) events)
                is_psycopg2_IntegrityError IntegrityError db) as Hst.
  pose proof (try_except_integrity
                (Cursor.executemany (Cursor.insert_event true) events) db)
    as Hb.
  destruct (try_except _ _ _ db) as [[[]|x] w1]; cbn [snd] in Hst.
  - rewrite Hb in Hs.
    destruct tracking as [t|]; [|exact Hs].
    pose proof (insert_tracking_seq t w1) as Ht.
    pose proof (try_except_state (Cursor.insert_tracking t)
                  is_psycopg2_IntegrityError IntegrityError w1) as Hst2.
    destruct (try_except _ _ _ w1) as [[[]|x] w2]; cbn [snd] in Hst2;
      rewrite Hst2 in *; cbn [PostgresDatabase.rollback rowid_seq];
      rewrite Ht; lia.
  - destruct Hb as (x0 & Hb & _). rewrite Hb in Hs.
    cbn [PostgresDatabase.rollback rowid_seq]. exact Hs.
Qed.

Lemma process_insert_bound (events : list StoredEvent.t)
  (tracking : option Tracking.t) (db : Database) :
  sequence_bound db ->
  sequence_bound (snd (PostgresProcessRecorder.insert_events events tracking db)).
Proof.
  intros Hb. pose proof (process_insert_seq events tracking db) as Hs.
  destruct (process_all_or_nothing events tracking db)
    as [(db' & Hrun & Hev & _) | (x & db' & Hrun & Hev & _)];
    rewrite Hrun in *; cbn [snd]; unfold sequence_bound in *; rewrite Hev.
  - apply Forall_app. split.
    + eapply Forall_impl; [|exact Hb]. cbv beta. intros r Hr. lia.
    + apply Forall_forall. intros r Hr.
      assert (Hi : In (rowid r) (map rowid (number_rows (rowid_seq db) events)))
        by now apply in_map.
      rewrite (proj1 (number_rows_ids _ _)) in Hi.
      apply ids_after_bounds in Hi. lia.
  - eapply Forall_impl; [|exact Hb]. cbv beta. intros r Hr. lia.
Qed.

Lemma sort_by_sorted_same {A : Type} (before : A -> A -> bool) (l : list A) :
  StronglySorted (fun a b => before a b = true) l -> Sql.sort_by before l = l.
Proof.
  induction 1 as [|x l Hs IH Hx]; simpl; [reflexivity|].
  rewrite IH. destruct l as [|y l']; [reflexivity|]. simpl.
  inversion_clear Hx as [|? ? Hxy _]. now rewrite Hxy.
Qed.

Lemma sorted_map_inv {A B : Type} (f : A -> B) (R : B -> B -> Prop)
  (l : list A) :
  StronglySorted R (map f l) -> StronglySorted (fun a b => R (f a) (f b)) l.
Proof.
  induction l as [|x l IH]; simpl; intros Hs; constructor;
    inversion_clear Hs as [|? ? Hl Hx]; [now apply IH|].
  apply Forall_forall. intros y Hy. rewrite Forall_forall in Hx.
  apply Hx. now apply in_map.
Qed.

Lemma sorted_app {A : Type} (R : A -> A -> Prop) (l1 l2 : list A) :
  StronglySorted R l1 -> StronglySorted R l2 ->
  (forall x y, In x l1 -> In y l2 -> R x y) ->
  StronglySorted R (l1 ++ l2).
Proof.
  induction 1 as [|a l1 Hs IH Ha]; intros H2 H12; simpl; [exact H2|].
  constructor.
  - apply IH; [exact H2|]. intros x y Hx Hy. apply H12; [now right|exact Hy].
  - apply Forall_app. split; [exact Ha|].
    apply Forall_forall. intros y Hy. apply H12; [now left|exact Hy].
Qed.

Lemma filter_all {A : Type} (f : A -> bool) (l : list A) :
  (forall x, In x l -> f x = true) -> filter f l = l.
Proof.
  induction l as [|a l IH]; simpl; intros H; [reflexivity|].
  rewrite (H a) by now left. f_equal. apply IH. intros x Hx. apply H. now right.
Qed.

Lemma filter_none {A : Type} (f : A -> bool) (l : list A) :
  (forall x, In x l -> f x = false) -> filter f l = [].
Proof.
  induction l as [|a l IH]; simpl; intros H; [reflexivity|].
  rewrite (H a) by now left. apply IH. intros x Hx. apply H. now right.
Qed.

Lemma sorted_filter {A : Type} (R : A -> A -> Prop) (f : A -> bool)
  (l : list A) :
  StronglySorted R l -> StronglySorted R (filter f l).
Proof.
  induction 1 as [|a l Hs IH Ha]; simpl; [constructor|].
  destruct (f a); [|exact IH]. constructor; [exact IH|].
  apply Forall_forall. intros x Hx. apply filter_In in Hx.
  rewrite Forall_forall in Ha. apply Ha. tauto.
Qed.

(** With row ids increasing along the table, ORDER BY rowid changes
    nothing. *)
Lemma select_notifications_in_heap_order (start limit : Z) (db : Database) :
  StronglySorted Z.lt (map rowid (events_table db)) ->
  0 <= limit < 2 ^ 63 ->
  PostgresApplicationRecorder.select_notifications start limit db =
    (Ok (map PostgresApplicationRecorder.notification_of
             (firstn (Z.to_nat limit)
                (filter (fun r => start <=? rowid r) (events_table db)))), db).
Proof.
  intros Hs Hl. rewrite select_notifications_Ok by exact Hl.
  unfold Sql.order_by. rewrite sort_by_sorted_same; [reflexivity|].
  apply sorted_filter.
  apply (strongly_sorted_weaken (fun a b => rowid a < rowid b));
    [|exact (sorted_map_inv rowid Z.lt _ Hs)].
  intros a b Hab. apply Z.leb_le. lia.
Qed.

(** What holds of every recorded database. *)
Lemma recorded_invariant (db : Database) :
  recorded db ->
  sequence_bound db /\ 0 <= rowid_seq db /\
  Forall (fun r => 1 <= rowid r) (events_table db) /\
  StronglySorted Z.lt (map rowid (events_table db)) /\
  constraints_hold db.
Proof.
  induction 1 as [|db events tracking _ IH].
  - repeat split; simpl; try constructor; lia.
  - destruct IH as (Hb & H0 & H1 & Hs & Hc).
    split; [now apply process_insert_bound|].
    pose proof (process_insert_seq events tracking db) as Hseq.
    split; [|split; [|split;
      [|apply (insert_events_constraints events tracking db Hc)]]];
      destruct (process_all_or_nothing events tracking db)
        as [(db' & Hrun & Hev & _) | (x & db' & Hrun & Hev & _)];
      rewrite Hrun in *; cbn [snd]; rewrite ?Hev; try lia; try assumption.
    + apply Forall_app. split; [exact H1|].
      apply Forall_forall. intros r Hr.
      assert (Hi : In (rowid r) (map rowid (number_rows (rowid_seq db) events)))
        by now apply in_map.
      rewrite (proj1 (number_rows_ids _ _)) in Hi.
      apply ids_after_bounds in Hi. lia.
    + rewrite map_app, (proj1 (number_rows_ids _ _)).
      apply sorted_app; [exact Hs|apply ids_after_sorted|].
      intros x y Hx Hy. apply ids_after_bounds in Hy.
      apply in_map_iff in Hx. destruct Hx as (r & <- & Hr).
      unfold sequence_bound in Hb. rewrite Forall_forall in Hb.
      specialize (Hb r Hr). lia.
Qed.

Lemma fold_max_spec (l : list Z) (z : Z) :
  In (fold_left Z.max l z) (z :: l) /\
  forall i, In i (z :: l) -> i <= fold_left Z.max l z.
Proof.
  revert z. induction l as [|a l IH]; intros z; simpl.
  - split; [now left|]. intros i [<-|[]]. lia.
  - destruct (IH (Z.max z a)) as [Hin Hle]. split.
    + destruct Hin as [Hm|Hin]; [|now right; right].
      rewrite <- Hm. destruct (Z.max_spec z a) as [[_ ->]|[_ ->]]; auto.
    + intros i [<-|[<-|Hi]].
      * specialize (Hle (Z.max z a) (or_introl eq_refl)). lia.
      * specialize (Hle (Z.max z a) (or_introl eq_refl)). lia.
      * apply Hle. now right.
Qed.

(** X1: [max_notification_id] returns 0 for an empty table and otherwise
    the greatest stored row id, which is the id of a stored row; no
    notification has a greater id, so [select_notifications] from the next
    id returns nothing, for every limit that is a row count of the
    database, from 0 and below [2 ^ 63]; another limit is refused with
    [DataError]. *)
Theorem max_notification_id_is_greatest (db : Database) :
  exists m,
    PostgresApplicationRecorder.max_notification_id db = (Ok m, db) /\
    (events_table db = [] -> m = 0) /\
    (forall r, In r (events_table db) -> rowid r <= m) /\
    (events_table db <> [] -> exists r, In r (events_table db) /\ rowid r = m) /\
    (forall limit, 0 <= limit < 2 ^ 63 ->
       PostgresApplicationRecorder.select_notifications (m + 1) limit db =
         (Ok [], db)) /\
    (forall limit, limit < 0 \/ 2 ^ 63 <= limit ->
       PostgresApplicationRecorder.select_notifications (m + 1) limit db =
         (Raise psycopg2_DataError, db)).
Proof.
  unfold PostgresApplicationRecorder.max_notification_id.
  eexists. split; [reflexivity|].
  rewrite or_zero_max.
  assert (Hle : forall r, In r (events_table db) ->
    rowid r <= match map rowid (events_table db) with
               | [] => 0
               | z :: l' => fold_left Z.max l' z
               end).
  { intros r Hr. apply (in_map rowid) in Hr.
    destruct (map rowid (events_table db)) as [|z l]; [destruct Hr|].
    now apply fold_max_spec. }
  split; [intros ->; reflexivity|]. split; [exact Hle|].
  split; [|split; [|intros limit; apply select_notifications_DataError]].
  - intros Hne. destruct (events_table db) as [|r0 rows]; [contradiction|].
    cbn [map]. destruct (fold_max_spec (map rowid rows) (rowid r0)) as [Hin _].
    change (rowid r0 :: map rowid rows) with (map rowid (r0 :: rows)) in Hin.
    apply in_map_iff in Hin. destruct Hin as (r & Hr & Hin). eauto.
  - intros limit Hl. rewrite select_notifications_Ok by exact Hl.
    rewrite filter_none; [now rewrite firstn_nil|].
    intros r Hr. apply Z.leb_gt. specialize (Hle r Hr). lia.
Qed.

(** X2: when an append returns, on a database whose row ids the sequence
    has handed out, the notifications from the next id on are exactly the
    appended events, in the order of the batch, with consecutive ids.  The
    limit is a row count of the database, below [2 ^ 63], and at least the
    size of the batch. *)
Theorem append_then_select_notifications (events : list StoredEvent.t)
  (tracking : option Tracking.t) (db db' : Database) (limit : Z) :
  sequence_bound db ->
  PostgresProcessRecorder.insert_events events tracking db = (Ok tt, db') ->
  Z.of_nat (List.length events) <= limit < 2 ^ 63 ->
  exists notifications,
    PostgresApplicationRecorder.select_notifications
      (rowid_seq db + 1) limit db' = (Ok notifications, db') /\
    map Notification.id notifications =
      ids_after (rowid_seq db) (List.length events) /\
    map stored_of notifications = events.
Proof.
  intros Hb Hrun Hlimit.
  destruct (process_all_or_nothing events tracking db)
    as [(db1 & Hrun1 & Hev & _) | (x & db1 & Hrun1 & _)];
    rewrite Hrun in Hrun1; [|discriminate].
  injection Hrun1 as <-.
  destruct (number_rows_ids (rowid_seq db) events) as [Hids Hevents].
  set (new := number_rows (rowid_seq db) events) in *.
  exists (map PostgresApplicationRecorder.notification_of new).
  split; [|split].
  - rewrite select_notifications_Ok by lia. rewrite Hev, filter_app.
    rewrite filter_none, filter_all.
    + cbn [app]. unfold Sql.order_by. rewrite sort_by_sorted_same.
      * rewrite firstn_all2; [reflexivity|].
        rewrite <- (length_map rowid), Hids, ids_after_length. lia.
      * apply (strongly_sorted_weaken (fun a b => rowid a < rowid b)).
        -- intros a b Hab. apply Z.leb_le. lia.
        -- apply (sorted_map_inv rowid Z.lt). rewrite Hids.
           apply ids_after_sorted.
    + intros r Hr. apply Z.leb_le. apply (in_map rowid) in Hr.
      rewrite Hids in Hr. apply ids_after_bounds in Hr. lia.
    + intros r Hr. apply Z.leb_gt. unfold sequence_bound in Hb.
      rewrite Forall_forall in Hb. specialize (Hb r Hr). lia.
  - rewrite map_map. exact Hids.
  - rewrite map_map. etransitivity; [|exact Hevents]. apply map_ext.
    intros [rid [i v t st]]. reflexivity.
Qed.

(** Two events appended to the store with gaps, whose sequence stands at
    7: they are notifications 8 and 9. *)
Lemma append_then_select_notifications_witness :
  exists db' notifications,
    PostgresProcessRecorder.insert_events
      [StoredEvent.make 2%N 1 "Created" []; StoredEvent.make 2%N 2 "Renamed" []]
      None store_with_gaps = (Ok tt, db') /\
    PostgresApplicationRecorder.select_notifications 8 10 db' =
      (Ok notifications, db') /\
    map Notification.id notifications = [8; 9] /\
    map stored_of notifications =
      [StoredEvent.make 2%N 1 "Created" []; StoredEvent.make 2%N 2 "Renamed" []].
Proof.
  exists (snd (PostgresProcessRecorder.insert_events
                 [StoredEvent.make 2%N 1 "Created" [];
                  StoredEvent.make 2%N 2 "Renamed" []]
                 None store_with_gaps)).
  destruct (append_then_select_notifications
              [StoredEvent.make 2%N 1 "Created" [];
               StoredEvent.make 2%N 2 "Renamed" []]
              None store_with_gaps
              (snd (PostgresProcessRecorder.insert_events
                      [StoredEvent.make 2%N 1 "Created" [];
                       StoredEvent.make 2%N 2 "Renamed" []]
                      None store_with_gaps)) 10)
    as (ns & Hsel & Hids & Hev).
  - unfold sequence_bound. simpl. repeat constructor; simpl; lia.
  - reflexivity.
  - simpl. lia.
  - exists ns. split; [reflexivity|]. split; [exact Hsel|]. now split.
Defined.

(** X3: in a recorded database the row ids increase along the table, lie
    between 1 and the sequence, and [select_notifications], for a limit that
    is a row count of the database (from 0 and below [2 ^ 63]), returns the
    notifications of the rows from [start] on in the order in which they
    were appended, each with the id and the columns of its row;
    [max_notification_id] is between 0 and the sequence. *)
Theorem notifications_in_commit_order (db : Database) :
  recorded db ->
  StronglySorted Z.lt (map rowid (events_table db)) /\
  Forall (fun r => 1 <= rowid r <= rowid_seq db) (events_table db) /\
  (forall start limit, 0 <= limit < 2 ^ 63 ->
     exists page,
       PostgresApplicationRecorder.select_notifications start limit db =
         (Ok page, db) /\
       Forall2 carries page
         (firstn (Z.to_nat limit)
            (filter (fun r => start <=? rowid r) (events_table db)))) /\
  (exists m, PostgresApplicationRecorder.max_notification_id db = (Ok m, db) /\
             0 <= m <= rowid_seq db).
Proof.
  intros Hrec.
  destruct (recorded_invariant db Hrec) as (Hb & H0 & H1 & Hs & _).
  unfold sequence_bound in Hb. rewrite Forall_forall in Hb, H1.
  split; [exact Hs|]. split; [|split].
  - apply Forall_forall. intros r Hr. split; auto.
  - intros start limit Hl. eexists.
    split; [now apply select_notifications_in_heap_order|].
    apply notification_of_carries.
  - unfold PostgresApplicationRecorder.max_notification_id.
    eexists. split; [reflexivity|]. rewrite or_zero_max.
    destruct (events_table db) as [|r0 rows] eqn:E; cbn [map]; [lia|].
    destruct (fold_max_spec (map rowid rows) (rowid r0)) as [Hin _].
    change (rowid r0 :: map rowid rows) with (map rowid (r0 :: rows)) in Hin.
    apply in_map_iff in Hin. destruct Hin as (r & <- & Hin).
    specialize (Hb r Hin). specialize (H1 r Hin). lia.
Qed.

(** The recorded database with a gap, read from 2: the notifications of
    the rows 2 and 5. *)
Lemma notifications_in_commit_order_witness :
  map rowid (events_table recorded_with_gap) = [1; 2; 5] /\
  rowid_seq recorded_with_gap = 5 /\
  StronglySorted Z.lt (map rowid (events_table recorded_with_gap)) /\
  exists page,
    PostgresApplicationRecorder.select_notifications 2 10 recorded_with_gap =
      (Ok page, recorded_with_gap) /\
    Forall2 carries page
      [mkRow 2 (StoredEvent.make 3%N 2 "T" []);
       mkRow 5 (StoredEvent.make 3%N 3 "T" [])].
Proof.
  assert (Hrec : recorded recorded_with_gap)
    by (unfold recorded_with_gap; repeat apply recorded_append;
        apply recorded_empty).
  destruct (notifications_in_commit_order recorded_with_gap Hrec)
    as (Hs & _ & Hsel & _).
  split; [reflexivity|]. split; [reflexivity|]. split; [exact Hs|].
  apply (Hsel 2 10). lia.
Defined.

(** ** When an append returns *)

Lemma same_key_iff (e : StoredEvent.t) (r : Row) :
  Cursor.same_key e r = true <-> key_of r = event_key e.
Proof.
  unfold Cursor.same_key, key_of, event_key.
  rewrite andb_true_iff, N.eqb_eq, Z.eqb_eq.
  split; [intros [-> ->]; reflexivity|intros [= -> ->]; now split].
Qed.

Lemma stored_key_iff (e : StoredEvent.t) (rows : list Row) :
  existsb (Cursor.same_key e) rows = true <-> In (event_key e) (map key_of rows).
Proof.
  rewrite existsb_exists, in_map_iff.
  split; intros (r & H1 & H2).
  - exists r. split; [now apply same_key_iff|exact H1].
  - exists r. split; [exact H2|now apply same_key_iff].
Qed.

(** One INSERT into the table of an application recorder, on a database
    whose row ids the sequence has handed out: it returns exactly when the
    event is storable, the next row id fits and the key is new. *)
Lemma insert_event_cases (e : StoredEvent.t) (w : Database) :
  sequence_bound w ->
  if negb (Psycopg2.has_nul (StoredEvent.topic e))
     && Sql.in_integer (StoredEvent.originator_version e)
     && Sql.in_integer (rowid_seq w + 1)
     && negb (existsb (Cursor.same_key e) (events_table w))
  then Cursor.insert_event true e w =
         (Ok tt, mkDatabase (events_table w ++ [mkRow (rowid_seq w + 1) e])
                            (rowid_seq w + 1) (tracking_table w))
  else exists x w',
         Cursor.insert_event true e w = (Raise x, w') /\
         (x = psycopg2_IntegrityError \/ x = psycopg2_DataError
          \/ x = ValueError) /\
         (storable e -> Sql.in_integer (rowid_seq w + 1) = true ->
          x = psycopg2_IntegrityError).
Proof.
  intros Hb. unfold Cursor.insert_event, storable.
  destruct (Psycopg2.has_nul _); cbv beta iota zeta delta [negb andb];
    [do 2 eexists; split; [reflexivity|split; [auto|intros []; discriminate]]|].
  destruct (Sql.in_integer (StoredEvent.originator_version e));
    cbv beta iota delta [negb andb];
    [|do 2 eexists; split; [reflexivity|split; [auto|intros []; discriminate]]].
  destruct (Sql.in_integer (rowid_seq w + 1)); cbv beta iota delta [negb andb];
    [|do 2 eexists; split; [reflexivity|split; [auto|intros _; discriminate]]].
  assert (E : existsb (fun r => Cursor.same_key e r || (rowid r =? rowid_seq w + 1))
                      (events_table w) =
              existsb (Cursor.same_key e) (events_table w)).
  { unfold sequence_bound in Hb. rewrite Forall_forall in Hb.
    induction (events_table w) as [|r rows IH]; [reflexivity|]. simpl.
    rewrite IH by (intros r' Hr'; apply Hb; now right).
    pose proof (Hb r (or_introl eq_refl)) as Hr.
    destruct (Z.eqb_spec (rowid r) (rowid_seq w + 1)); [lia|].
    now rewrite orb_false_r. }
  rewrite E. clear E.
  destruct (existsb (Cursor.same_key e) (events_table w));
    cbv beta iota delta [negb];
    [do 2 eexists; split; [reflexivity|split; [auto|reflexivity]]|reflexivity].
Qed.

Lemma executemany_ok_iff (events : list StoredEvent.t) (w : Database) :
  sequence_bound w ->
  ((exists w',
       Cursor.executemany (Cursor.insert_event true) events w = (Ok tt, w'))
   <->
   Forall storable events /\
   Forall (fun i => Sql.in_integer i = true)
          (ids_after (rowid_seq w) (List.length events)) /\
   NoDup (map event_key events) /\
   (forall e, In e events ->
              ~ In (event_key e) (map key_of (events_table w)))) /\
  (forall x w',
      Cursor.executemany (Cursor.insert_event true) events w = (Raise x, w') ->
      (x = psycopg2_IntegrityError \/ x = psycopg2_DataError
       \/ x = ValueError) /\
      (Forall storable events ->
       Forall (fun i => Sql.in_integer i = true)
              (ids_after (rowid_seq w) (List.length events)) ->
       x = psycopg2_IntegrityError)).
Proof.
  revert w. induction events as [|e es IH]; intros w Hb.
  - split; [|discriminate]. simpl. unfold ret. split; [|eauto].
    intros _. repeat split; [constructor|constructor|constructor|intros e []].
  - cbn [Cursor.executemany List.length ids_after]. unfold bind.
    pose proof (insert_event_cases e w Hb) as He.
    destruct (negb (Psycopg2.has_nul (StoredEvent.topic e))
              && Sql.in_integer (StoredEvent.originator_version e)
              && Sql.in_integer (rowid_seq w + 1)
              && negb (existsb (Cursor.same_key e) (events_table w))) eqn:Ec.
    + apply andb_true_iff in Ec. destruct Ec as [Ec Ek].
      apply andb_true_iff in Ec. destruct Ec as [Ec Es].
      apply andb_true_iff in Ec. destruct Ec as [En Er].
      apply negb_true_iff in En, Ek.
      rewrite He.
      set (w1 := mkDatabase (events_table w ++ [mkRow (rowid_seq w + 1) e])
                            (rowid_seq w + 1) (tracking_table w)).
      assert (Hb1 : sequence_bound w1).
      { unfold sequence_bound, w1. cbn [events_table rowid_seq].
        apply Forall_app. split.
        - eapply Forall_impl; [|exact Hb]. cbv beta. intros; lia.
        - repeat constructor. simpl. lia. }
      destruct (IH w1 Hb1) as [IHok IHraise].
      change (rowid_seq w1) with (rowid_seq w + 1) in IHok, IHraise.
      assert (Hnew : ~ In (event_key e) (map key_of (events_table w))).
      { rewrite <- stored_key_iff, Ek. discriminate. }
      split.
      * rewrite IHok. unfold w1. cbn [events_table map].
        split.
        -- intros (Hr & Hi & Hnd & Hfresh).
           split; [constructor; [now split|exact Hr]|].
           split; [constructor; [exact Es|exact Hi]|]. split.
           ++ constructor; [|exact Hnd]. intros Hin.
              apply in_map_iff in Hin. destruct Hin as (e' & Hk & Hin).
              apply (Hfresh e' Hin). rewrite map_app, in_app_iff.
              right. left. unfold key_of. cbn [event]. now symmetry.
           ++ intros e' [<-|Hin]; [exact Hnew|].
              intros Hk. apply (Hfresh e' Hin).
              rewrite map_app, in_app_iff. now left.
        -- intros (Hr & Hi & Hnd & Hfresh).
           inversion_clear Hr as [|? ? _ Hr'].
           inversion_clear Hi as [|? ? _ Hi'].
           inversion_clear Hnd as [|? ? Hne Hnd'].
           split; [exact Hr'|]. split; [exact Hi'|]. split; [exact Hnd'|].
           intros e' Hin. rewrite map_app, in_app_iff.
           intros [Hk|[Hk|[]]].
           ++ apply (Hfresh e'); [now right|exact Hk].
           ++ apply Hne. change (event_key e = event_key e') in Hk.
              rewrite Hk. now apply in_map.
      * intros x w' Hrun. destruct (IHraise x w' Hrun) as [Hx Hint].
        split; [exact Hx|]. intros Hr Hi.
        inversion_clear Hr as [|? ? _ Hr'].
        inversion_clear Hi as [|? ? _ Hi'].
        now apply Hint.
    + destruct He as (x & w' & -> & Hx & Hint). split.
      * split; [intros [w1 H]; discriminate|].
        intros (Hr & Hi & Hnd & Hfresh). exfalso.
        inversion_clear Hr as [|? ? [Hn Hv] _].
        inversion_clear Hi as [|? ? Hs _].
        rewrite Hn, Hv, Hs in Ec. cbn [negb andb] in Ec.
        apply negb_false_iff in Ec.
        apply (Hfresh e); [now left|]. now apply stored_key_iff.
      * intros x0 w0 [= <- <-]. split; [exact Hx|]. intros Hr Hi.
        inversion_clear Hr as [|? ? Hst _].
        inversion_clear Hi as [|? ? Hs _].
        now apply Hint.
Qed.

(** X4: on a database whose row ids the sequence has handed out, an append
    of the process recorder returns exactly when every event is storable
    (a topic without NUL, a version that fits the integer column), every
    row id that the sequence is to hand out fits its 32 bits, the keys of
    the batch are pairwise distinct and none of them is stored, and the
    tracking row (if one is given) is one that the table can hold and is
    not recorded.  When it raises, the exception is the recorder's
    [IntegrityError], a [DataError] or a [ValueError], never the driver's
    [IntegrityError]; it is [IntegrityError] when the strings have no NUL
    and all the integers fit. *)
Theorem append_returns_iff (events : list StoredEvent.t)
  (tracking : option Tracking.t) (db : Database) :
  sequence_bound db ->
  let fits :=
    Forall storable events /\
    Forall (fun i => Sql.in_integer i = true)
           (ids_after (rowid_seq db) (List.length events)) /\
    match tracking with
    | Some t => trackable t
    | None => True
    end in
  ((exists db',
       PostgresProcessRecorder.insert_events events tracking db = (Ok tt, db'))
   <->
   fits /\
   NoDup (map event_key events) /\
   (forall e, In e events ->
              ~ In (event_key e) (map key_of (events_table db))) /\
   match tracking with
   | Some t => ~ In t (tracking_table db)
   | None => True
   end) /\
  (forall x db',
      PostgresProcessRecorder.insert_events events tracking db = (Raise x, db') ->
      (x = IntegrityError \/ x = psycopg2_DataError \/ x = ValueError) /\
      (fits -> x = IntegrityError)).
Proof.
  intros Hb fits.
  destruct (executemany_ok_iff events db Hb) as [Hok Hraise].
  pose proof (executemany_insert_spec true events db) as Hspec.
  unfold PostgresProcessRecorder.insert_events,
    PostgresAggregateRecorder.insert_events_with, PostgresDatabase.transaction,
    PostgresProcessRecorder._insert_events,
    PostgresApplicationRecorder._insert_events,
    PostgresAggregateRecorder._insert_events_on, bind, try_except.
  destruct (Cursor.executemany (Cursor.insert_event true) events db)
    as [[[]|x] w1] eqn:Erun.
  - destruct Hspec as [_ Htr].
    destruct (proj1 Hok (ex_intro _ w1 eq_refl)) as (Hr & Hi & Hnd & Hfresh).
    destruct tracking as [t|].
    + pose proof (insert_tracking_spec t w1) as Ht. rewrite Htr in Ht.
      destruct (Cursor.insert_tracking t w1) as [[[]|x] w2] eqn:Et.
      * destruct Ht as (_ & Hn & Hid & Hnew). split; [|discriminate].
        split; [|eauto]. intros _.
        split; [split; [exact Hr|split; [exact Hi|now split]]|].
        split; [exact Hnd|]. split; [exact Hfresh|].
        rewrite <- tracked_iff, Hnew. discriminate.
      * destruct Ht as (_ & ->). unfold trackable in fits. split.
        -- split; [destruct (is_psycopg2_IntegrityError _); intros [db' H];
                   discriminate|].
           intros ((_ & _ & Hn & Hid) & _ & _ & Hnew). exfalso.
           unfold Cursor.insert_tracking in Et.
           rewrite Hn, Hid, Htr in Et. cbn [negb] in Et.
           destruct (existsb _ _) eqn:Ex; [|discriminate].
           apply Hnew. now apply tracked_iff.
        -- intros x db'.
           destruct (Psycopg2.has_nul (Tracking.application_name t)) eqn:En;
             cbv beta iota delta [is_psycopg2_IntegrityError].
           ++ intros [= <- <-]. split; [auto|].
              intros (_ & _ & Hn & _). discriminate.
           ++ destruct (Sql.in_integer (Tracking.notification_id t)) eqn:Ei;
                cbv beta iota delta [is_psycopg2_IntegrityError];
                intros [= <- <-].
              ** split; [now left|reflexivity].
              ** split; [auto|]. intros (_ & _ & _ & Hid). discriminate.
    + unfold ret. split; [|discriminate]. split; [|eauto]. intros _.
      split; [now repeat split|]. now split.
  - destruct Hspec as (_ & _ & Hx).
    assert (Hno : ~ exists w', (Raise x, w1) = (Ok tt, w'))
      by (intros [w' H]; discriminate).
    split.
    + split; [destruct (is_psycopg2_IntegrityError x); intros [db' H];
              discriminate|].
      intros ((Hr & Hi & _) & Hnd & Hfresh & _). exfalso. apply Hno, Hok.
      now repeat split.
    + intros x0 db'. destruct (Hraise _ _ eq_refl) as [_ Hint].
      destruct Hx as [-> | [-> | ->]];
        cbv beta iota delta [is_psycopg2_IntegrityError];
        intros [= <- <-].
      * split; [now left|reflexivity].
      * split; [auto|]. intros (Hr & Hi & _).
        specialize (Hint Hr Hi). discriminate.
      * split; [auto|]. intros (Hr & Hi & _).
        specialize (Hint Hr Hi). discriminate.
Qed.

(** An append of two fresh events with a fresh tracking row to the store
    with gaps returns. *)
Lemma append_returns_iff_witness :
  exists db',
    PostgresProcessRecorder.insert_events
      [StoredEvent.make 1%N 8 "T" []; StoredEvent.make 2%N 1 "T" []]
      (Some (Tracking.make "upstream" 9)) store_with_gaps = (Ok tt, db').
Proof.
  refine (proj2 (proj1 (append_returns_iff
             [StoredEvent.make 1%N 8 "T" []; StoredEvent.make 2%N 1 "T" []]
             (Some (Tracking.make "upstream" 9)) store_with_gaps _)) _).
  - unfold sequence_bound. simpl. repeat constructor; simpl; lia.
  - split; [split; [repeat constructor|split; [repeat constructor|now split]]|].
    split; [|split].
    + simpl. repeat constructor; simpl; intuition discriminate.
    + intros e [<-|[<-|[]]]; simpl; intuition discriminate.
    + intros [].
Defined.

(** What the database and the driver refuse: a topic that holds NUL, and
    an event for which the sequence of [rowid] has no 32-bit value left. *)
Example append_refused_examples :
  let nul := String zero "T" in
  let full := mkDatabase [] 2147483647 [] in
  PostgresProcessRecorder.insert_events
    [StoredEvent.make 1%N 1 nul []] None empty_database =
    (Raise ValueError, empty_database) /\
  PostgresProcessRecorder.insert_events
    [StoredEvent.make 1%N 1 "T" []] None full =
    (Raise psycopg2_DataError, full) /\
  PostgresProcessRecorder.insert_events
    [] (Some (Tracking.make nul 1)) empty_database =
    (Raise ValueError, empty_database) /\
  PostgresProcessRecorder.max_tracking_id nul empty_database =
    (Raise ValueError, empty_database).
Proof. repeat split; reflexivity. Qed.

(** ** Reading what was appended *)

Lemma where_event (id : UUID) (gt lte : option Z) (r : Row) :
  PostgresAggregateRecorder.where_ id gt lte r =
  PostgresAggregateRecorder.where_ id gt lte (mkRow 0 (event r)).
Proof. reflexivity. Qed.

(** X5: when an append returns, [select_events] of any stream and bounds
    returns, besides what it returned before, exactly the appended events
    of that stream within the bounds. *)
Theorem append_then_select_events (events : list StoredEvent.t)
  (tracking : option Tracking.t) (db db' : Database)
  (originator_id : UUID) (gt lte : option Z) (desc : bool) :
  PostgresProcessRecorder.insert_events events tracking db = (Ok tt, db') ->
  exists before after,
    PostgresAggregateRecorder.select_events originator_id gt lte desc None db =
      (Ok before, db) /\
    PostgresAggregateRecorder.select_events originator_id gt lte desc None db' =
      (Ok after, db') /\
    Permutation after
      (before ++
       filter (fun e => PostgresAggregateRecorder.where_
                          originator_id gt lte (mkRow 0 e)) events).
Proof.
  intros Hrun.
  destruct (process_all_or_nothing events tracking db)
    as [(db1 & Hrun1 & Hev & _) | (x & db1 & Hrun1 & _)];
    rewrite Hrun in Hrun1; [|discriminate].
  injection Hrun1 as <-.
  do 2 eexists. rewrite !select_events_run.
  unfold PostgresAggregateRecorder.select_events_query.
  split; [reflexivity|]. split; [reflexivity|].
  rewrite Hev, filter_app.
  rewrite !(Permutation_map event (order_by_perm _ _ _)).
  rewrite map_app. apply Permutation_app_head.
  destruct (number_rows_ids (rowid_seq db) events) as [_ Hevents].
  rewrite <- Hevents at 2.
  generalize (number_rows (rowid_seq db) events) as rows.
  induction rows as [|r rows IH]; [reflexivity|]. cbn [filter map].
  rewrite <- where_event.
  destruct (PostgresAggregateRecorder.where_ originator_id gt lte r);
    cbn [map]; [now constructor|exact IH].
Qed.

(** Versions 8 and 9 appended to stream 1 of the store with gaps, read
    back above version 5. *)
Lemma append_then_select_events_witness :
  exists db',
    PostgresProcessRecorder.insert_events
      [StoredEvent.make 1%N 8 "T" []; StoredEvent.make 1%N 9 "T" []]
      None store_with_gaps = (Ok tt, db') /\
    exists after,
      PostgresAggregateRecorder.select_events 1%N (Some 5) None false None db'
        = (Ok after, db') /\
      Permutation after
        ([StoredEvent.make 1%N 7 "T" []]
         ++ [StoredEvent.make 1%N 8 "T" []; StoredEvent.make 1%N 9 "T" []]).
Proof.
  eexists. split; [reflexivity|].
  destruct (append_then_select_events
              [StoredEvent.make 1%N 8 "T" []; StoredEvent.make 1%N 9 "T" []]
              None store_with_gaps _ 1%N (Some 5) None false eq_refl)
    as (before & after & Hb & Ha & Hp).
  exists after. split; [exact Ha|].
  vm_compute in Hb. injection Hb as <-. exact Hp.
Defined.

(** ** The tracking position of a consumer *)

(** X6: [max_tracking_id] is 0 for a consumer with no tracking row (and
    the query for a name that holds the character NUL is refused with
    [ValueError]); an append that returns with a tracking row of a
    notification id that is not negative sets that consumer's position to
    the greater of the old position and the id, and leaves every other
    consumer's position as it was; an append without tracking, or one that
    raises, changes no position. *)
Theorem max_tracking_id_after_append (events : list StoredEvent.t)
  (tracking : option Tracking.t) (db : Database) (name : string) :
  ((forall r, In r (tracking_table db) -> Tracking.application_name r <> name) ->
   PostgresProcessRecorder.max_tracking_id name db =
     (if Psycopg2.has_nul name then Raise ValueError else Ok 0, db)) /\
  (forall t db' m,
      tracking = Some t ->
      0 <= Tracking.notification_id t ->
      PostgresProcessRecorder.insert_events events tracking db = (Ok tt, db') ->
      PostgresProcessRecorder.max_tracking_id name db = (Ok m, db) ->
      PostgresProcessRecorder.max_tracking_id name db' =
        (Ok (if String.eqb (Tracking.application_name t) name
             then Z.max m (Tracking.notification_id t) else m), db')) /\
  (forall r db' m,
      PostgresProcessRecorder.insert_events events tracking db = (r, db') ->
      tracking = None \/ (exists x, r = Raise x) ->
      PostgresProcessRecorder.max_tracking_id name db = (Ok m, db) ->
      PostgresProcessRecorder.max_tracking_id name db' = (Ok m, db')).
Proof.
  unfold PostgresProcessRecorder.max_tracking_id.
  destruct (Psycopg2.has_nul name);
    [split; [reflexivity|split; intros; discriminate]|].
  split; [|split].
  - intros Hnone. rewrite filter_none; [reflexivity|].
    intros r Hr. apply String.eqb_neq. now apply Hnone.
  - intros t db' m -> Hid Hrun [= <-].
    destruct (process_all_or_nothing events (Some t) db)
      as [(db1 & Hrun1 & _ & Htr) | (x & db1 & Hrun1 & _)];
      rewrite Hrun in Hrun1; [|discriminate].
    injection Hrun1 as <-. rewrite Htr, filter_app, map_app. cbn [filter].
    destruct (String.eqb (Tracking.application_name t) name); cbn [map].
    + now rewrite or_zero_max_snoc.
    + now rewrite app_nil_r.
  - intros r db' m Hrun Hcase [= <-].
    destruct (process_all_or_nothing events tracking db)
      as [(db1 & Hrun1 & _ & Htr) | (x & db1 & Hrun1 & _ & Htr)];
      rewrite Hrun in Hrun1; injection Hrun1 as -> <-.
    + destruct Hcase as [-> | [x Hx]]; [|discriminate].
      now rewrite Htr, app_nil_r.
    + now rewrite Htr.
Qed.

(** Consumer "upstream" at position 5 records notification 9; consumer
    "other" stays at 0. *)
Lemma max_tracking_id_after_append_witness :
  exists db',
    PostgresProcessRecorder.insert_events []
      (Some (Tracking.make "upstream" 9))
      (mkDatabase [] 0 [Tracking.make "upstream" 5]) = (Ok tt, db') /\
    PostgresProcessRecorder.max_tracking_id "upstream" db' = (Ok 9, db') /\
    PostgresProcessRecorder.max_tracking_id "other" db' = (Ok 0, db').
Proof.
  eexists. split; [reflexivity|]. split.
  - exact (proj1 (proj2 (max_tracking_id_after_append []
             (Some (Tracking.make "upstream" 9))
             (mkDatabase [] 0 [Tracking.make "upstream" 5]) "upstream"))
             _ _ 5 eq_refl ltac:(simpl; lia) eq_refl eq_refl).
  - exact (proj1 (proj2 (max_tracking_id_after_append []
             (Some (Tracking.make "upstream" 9))
             (mkDatabase [] 0 [Tracking.make "upstream" 5]) "other"))
             _ _ 0 eq_refl ltac:(simpl; lia) eq_refl eq_refl).
Defined.

(** ** The first row of an ordered selection *)

(** X7: [select_events] with [limit=1] returns nothing when no row of the
    stream is within the bounds, and otherwise one event: with [desc] the
    one of the highest version within the bounds, without it the one of
    the lowest. *)
Theorem select_events_first (originator_id : UUID) (gt lte : option Z)
  (desc : bool) (db : Database) :
  (PostgresAggregateRecorder.select_events originator_id gt lte desc (Some 1) db
     = (Ok [], db) /\
   forall r, In r (events_table db) ->
             PostgresAggregateRecorder.where_ originator_id gt lte r = false) \/
  (exists r,
      PostgresAggregateRecorder.select_events
        originator_id gt lte desc (Some 1) db = (Ok [event r], db) /\
      In r (events_table db) /\
      PostgresAggregateRecorder.where_ originator_id gt lte r = true /\
      forall r', In r' (events_table db) ->
        PostgresAggregateRecorder.where_ originator_id gt lte r' = true ->
        if desc then version_of r' <= version_of r
        else version_of r <= version_of r').
Proof.
  rewrite select_events_run.
  unfold PostgresAggregateRecorder.select_events_query.
  rewrite limit_Ok by lia. change (Z.to_nat 1) with 1%nat.
  fold version_of.
  set (F := filter (PostgresAggregateRecorder.where_ originator_id gt lte)
                   (events_table db)).
  pose proof (order_by_perm version_of desc F) as Hperm.
  pose proof (order_by_sorted version_of desc F) as Hsorted.
  destruct (Sql.order_by version_of desc F) as [|r l].
  - left. split; [reflexivity|]. intros r Hr.
    destruct (PostgresAggregateRecorder.where_ _ _ _ r) eqn:E; [|reflexivity].
    apply Permutation_nil in Hperm.
    assert (Hin : In r F) by now apply filter_In.
    rewrite Hperm in Hin. destruct Hin.
  - right. exists r. split; [reflexivity|].
    assert (Hr : In r F) by (eapply Permutation_in; [exact Hperm|now left]).
    apply filter_In in Hr. destruct Hr as [Hr Hw].
    split; [exact Hr|]. split; [exact Hw|].
    intros r' Hr' Hw'.
    assert (Hin : In r' (r :: l)).
    { eapply Permutation_in; [symmetry; exact Hperm|]. now apply filter_In. }
    inversion_clear Hsorted as [|? ? _ Hall]. rewrite Forall_forall in Hall.
    destruct Hin as [<-|Hin]; [destruct desc; lia|].
    specialize (Hall r' Hin). destruct desc; exact Hall.
Qed.

(** ** Descending is ascending reversed *)

Lemma sorted_rev {A : Type} (R : A -> A -> Prop) (l : list A) :
  StronglySorted R l -> StronglySorted (fun a b => R b a) (rev l).
Proof.
  induction 1 as [|a l Hs IH Ha]; simpl; [constructor|].
  apply sorted_app; [exact IH|repeat constructor|].
  intros x y Hx [<-|[]]. rewrite Forall_forall in Ha.
  apply Ha. now apply in_rev.
Qed.

Lemma sorted_perm_eq_in {A : Type} (R : A -> A -> Prop) :
  forall l l',
    (forall a b, In a l -> In b l -> R a b -> R b a -> a = b) ->
    StronglySorted R l -> StronglySorted R l' -> Permutation l l' -> l = l'.
Proof.
  induction l as [|x l IH]; intros l' Hanti Hl Hl' Hp.
  - now apply Permutation_nil in Hp.
  - destruct l' as [|y l'];
      [symmetry in Hp; now apply Permutation_nil in Hp|].
    inversion_clear Hl as [|? ? Hsl Hx]. inversion_clear Hl' as [|? ? Hsl' Hy].
    rewrite Forall_forall in Hx, Hy.
    assert (Hyin : In y (x :: l))
      by (eapply Permutation_in; [symmetry; exact Hp|now left]).
    assert (E : x = y).
    { assert (Hxin : In x (y :: l'))
        by (eapply Permutation_in; [exact Hp|now left]).
      destruct Hxin as [->|Hxin]; [reflexivity|].
      destruct Hyin as [->|Hyin']; [reflexivity|].
      apply Hanti; [now left|now right|auto|auto]. }
    subst y. f_equal. apply IH; auto.
    + intros a b Ha Hb. apply Hanti; now right.
    + now apply Permutation_cons_inv in Hp.
Qed.

Lemma key_determines_row (rows : list Row) (a b : Row) :
  NoDup (map key_of rows) -> In a rows -> In b rows ->
  key_of a = key_of b -> a = b.
Proof.
  induction rows as [|r rows IH]; simpl; intros Hnd Ha Hb Hk; [destruct Ha|].
  inversion_clear Hnd as [|? ? Hr Hrest].
  destruct Ha as [->|Ha], Hb as [->|Hb]; auto.
  - exfalso. apply Hr. rewrite Hk. now apply in_map.
  - exfalso. apply Hr. rewrite <- Hk. now apply in_map.
Qed.

(** X8: while the primary key holds, [select_events] with [desc=True]
    returns the reverse of what it returns with [desc=False], for the same
    stream and bounds and no limit. *)
Theorem select_events_desc_is_reverse (originator_id : UUID)
  (gt lte : option Z) (db : Database) :
  constraints_hold db ->
  exists ascending,
    PostgresAggregateRecorder.select_events
      originator_id gt lte false None db = (Ok ascending, db) /\
    PostgresAggregateRecorder.select_events
      originator_id gt lte true None db = (Ok (rev ascending), db).
Proof.
  intros [Hkey _]. rewrite !select_events_run.
  unfold PostgresAggregateRecorder.select_events_query. fold version_of.
  eexists. split; [reflexivity|]. rewrite <- map_rev. do 3 f_equal.
  set (F := filter (PostgresAggregateRecorder.where_ originator_id gt lte)
                   (events_table db)).
  apply (sorted_perm_eq_in (fun a b => version_of b <= version_of a)).
  - intros a b Ha Hb Hab Hba.
    assert (HaF : In a F)
      by (eapply Permutation_in; [apply order_by_perm|exact Ha]).
    assert (HbF : In b F)
      by (eapply Permutation_in; [apply order_by_perm|exact Hb]).
    apply filter_In in HaF, HbF. destruct HaF as [Hina Hwa], HbF as [Hinb Hwb].
    apply (key_determines_row (events_table db)); auto.
    apply where_spec in Hwa, Hwb. destruct Hwa as [Hida _], Hwb as [Hidb _].
    unfold key_of, version_of in *. rewrite Hida, Hidb. f_equal. lia.
  - apply (order_by_sorted version_of true).
  - apply (sorted_rev (fun a b => version_of a <= version_of b)).
    apply (order_by_sorted version_of false).
  - rewrite <- Permutation_rev, !order_by_perm. reflexivity.
Qed.

(** The store with gaps, stream 1, read downwards. *)
Lemma select_events_desc_is_reverse_witness :
  PostgresAggregateRecorder.select_events 1%N None None true None store_with_gaps
    = (Ok (rev (map event (events_table store_with_gaps))), store_with_gaps).
Proof.
  destruct (select_events_desc_is_reverse 1%N None None store_with_gaps)
    as (ascending & Hasc & Hdesc).
  - split; simpl; repeat constructor; simpl; intuition discriminate.
  - vm_compute in Hasc. injection Hasc as <-. exact Hdesc.
Defined.

(** * Further properties of the application *)

(** ** Reads at a version, and snapshots *)

Section ApplicationFacts.
Context {D : Domain} {L : DomainLaws D}.

Lemma save_run (events : list StoredEvent.t) (st : Stores) :
  (exists db',
      Application.save events st = (Ok tt, mkStores db' (snapshot_store st)) /\
      events_table db' =
        events_table (event_store st)
        ++ number_rows (rowid_seq (event_store st)) events) \/
  (exists x db',
      Application.save events st = (Raise x, mkStores db' (snapshot_store st)) /\
      events_table db' = events_table (event_store st)).
Proof.
  unfold Application.save, on_event_store, EventStore.put.
  destruct (application_all_or_nothing events None (event_store st))
    as [(db' & Hrun & Hev & _) | (x & db' & Hrun & Hev & _)]; rewrite Hrun;
    [left|right]; eauto.
Qed.

Lemma take_snapshot_run (st : Stores) (id : UUID) (version : option Z) :
  faithful st ->
  Application.take_snapshot id version st =
    match replay (event_store st) id version with
    | Some aggregate => Application.snapshots_put [take aggregate] st
    | None => (Raise (AggregateNotFound id version), st)
    end.
Proof.
  intros Hf. unfold Application.take_snapshot, bind.
  rewrite (get_replay st id version Hf).
  now destruct (replay (event_store st) id version).
Qed.

Lemma take_snapshot_event_store (st : Stores) (id : UUID) (version : option Z) :
  faithful st ->
  event_store (snd (Application.take_snapshot id version st)) = event_store st.
Proof.
  intros Hf. rewrite take_snapshot_run by exact Hf.
  destruct (replay (event_store st) id version) as [a|]; [|reflexivity].
  unfold Application.snapshots_put.
  destruct (snapshot_store st) as [sdb|]; [|reflexivity].
  now destruct (EventStore.put _ [take a] sdb).
Qed.

(** [snapshots.put([snapshot])] on a snapshot store. *)
Lemma put_single (e : StoredEvent.t) (sdb : Database) :
  EventStore.put PostgresAggregateRecorder.insert_events [e] sdb =
    if Psycopg2.has_nul (StoredEvent.topic e) then (Raise ValueError, sdb)
    else if Sql.in_integer (StoredEvent.originator_version e)
    then if existsb (Cursor.same_key e) (events_table sdb)
         then (Raise IntegrityError,
               mkDatabase (events_table sdb) (rowid_seq sdb + 1)
                          (tracking_table sdb))
         else (Ok tt,
               mkDatabase (events_table sdb ++ [mkRow (rowid_seq sdb + 1) e])
                          (rowid_seq sdb + 1) (tracking_table sdb))
    else (Raise psycopg2_DataError, sdb).
Proof.
  unfold EventStore.put, PostgresAggregateRecorder.insert_events,
    PostgresAggregateRecorder.insert_events_with, PostgresDatabase.transaction,
    PostgresAggregateRecorder._insert_events,
    PostgresAggregateRecorder._insert_events_on, try_except.
  cbn [Cursor.executemany]. unfold bind, Cursor.insert_event.
  destruct (Psycopg2.has_nul _); cbn; [now rewrite rollback_same|].
  destruct (Sql.in_integer _); cbn; [|now rewrite rollback_same].
  assert (E : existsb (fun r => Cursor.same_key e r || false) (events_table sdb)
              = existsb (Cursor.same_key e) (events_table sdb)).
  { induction (events_table sdb) as [|r rows IH]; [reflexivity|].
    cbn [existsb]. now rewrite IH, orb_false_r. }
  rewrite E. clear E.
  destruct (existsb (Cursor.same_key e) (events_table sdb)); reflexivity.
Qed.

End ApplicationFacts.

Section ApplicationProperties.
Context {D : Domain} {L : DomainLaws D}.

(** X9: once the stream of an aggregate has reached version [v], a [save]
    of events that continue their streams does not change what
    [Repository.get] returns for that aggregate at version [v], whether the
    save returns or raises. *)
Theorem get_at_version_is_stable (st : Stores) (events : list StoredEvent.t)
  (id : UUID) (v : Z) :
  reachable st ->
  continues (event_store st) events ->
  (exists r, In r (events_table (event_store st)) /\
             StoredEvent.originator_id (event r) = id /\ v <= version_of r) ->
  fst (Repository.get id (Some v) (snd (Application.save events st))) =
  fst (Repository.get id (Some v) st).
Proof.
  intros Hreach Hc (r0 & Hr0 & Hid0 & Hv0).
  pose proof (reachable_faithful st Hreach) as Hf.
  pose proof (save_faithful st events Hf Hc) as Hf'.
  rewrite (get_replay _ id (Some v) Hf'), (get_replay _ id (Some v) Hf).
  cbn [fst].
  assert (E : replay (event_store (snd (Application.save events st))) id (Some v)
              = replay (event_store st) id (Some v)); [|now rewrite E].
  unfold replay. do 2 f_equal.
  destruct (save_run events st)
    as [(db' & -> & Hev) | (x & db' & -> & Hev)]; cbn [snd event_store].
  - apply (stream_rows_new _ _ _ _ _ _ Hev). intros r Hr.
    destruct (PostgresAggregateRecorder.where_ id None (Some v) r) eqn:Ew;
      [|reflexivity].
    exfalso. apply eligible_iff in Ew. destruct Ew as [Hid Hle].
    specialize (Hle v eq_refl).
    pose proof (Hc (event r) r0 (number_rows_event _ _ _ Hr) Hr0
                   ltac:(congruence)) as Hlt.
    unfold version_of in *. lia.
  - apply (stream_rows_new _ _ [] _ _ _); [now rewrite app_nil_r|intros r []].
Qed.

(** X10: [take_snapshot] leaves the event store as it is and is invisible
    to readers: after it, whether it returned or raised, [Repository.get]
    returns for every aggregate and version what it returned before. *)
Theorem take_snapshot_is_invisible (st : Stores) (id : UUID)
  (version : option Z) :
  reachable st ->
  event_store (snd (Application.take_snapshot id version st)) = event_store st /\
  forall id' version',
    fst (Repository.get id' version'
           (snd (Application.take_snapshot id version st))) =
    fst (Repository.get id' version' st).
Proof.
  intros Hreach.
  pose proof (reachable_faithful st Hreach) as Hf.
  pose proof (take_snapshot_faithful st id version Hf) as Hf'.
  pose proof (take_snapshot_event_store st id version Hf) as He.
  split; [exact He|]. intros id' version'.
  rewrite (get_replay _ id' version' Hf'), (get_replay _ id' version' Hf).
  cbn [fst]. now rewrite He.
Qed.

(** X11: [take_snapshot] raises [AggregateNotFound] and changes nothing
    when [Repository.get] finds no aggregate; it raises [AttributeError]
    when there is an aggregate but no snapshot store; and after it has
    returned, taking the same snapshot again raises [IntegrityError] and
    stores nothing. *)
Theorem take_snapshot_errors (st : Stores) (id : UUID) (version : option Z) :
  reachable st ->
  (replay (event_store st) id version = None ->
   Application.take_snapshot id version st =
     (Raise (AggregateNotFound id version), st)) /\
  (replay (event_store st) id version <> None ->
   snapshot_store st = None ->
   Application.take_snapshot id version st = (Raise AttributeError, st)) /\
  (forall st1,
      Application.take_snapshot id version st = (Ok tt, st1) ->
      exists st2,
        Application.take_snapshot id version st1 = (Raise IntegrityError, st2) /\
        event_store st2 = event_store st1 /\
        snapshot_rows st2 = snapshot_rows st1).
Proof.
  intros Hreach.
  pose proof (reachable_faithful st Hreach) as Hf.
  pose proof (take_snapshot_faithful st id version Hf) as Hf'.
  pose proof (take_snapshot_event_store st id version Hf) as He.
  rewrite (take_snapshot_run st id version Hf) in *.
  split; [intros ->; reflexivity|]. split.
  - intros Hsome Hnone.
    destruct (replay (event_store st) id version) as [a|]; [|contradiction].
    unfold Application.snapshots_put. now rewrite Hnone.
  - intros st1 Hrun.
    destruct (replay (event_store st) id version) as [a|] eqn:Hrep;
      [|discriminate].
    rewrite Hrun in Hf', He. cbn [snd] in Hf', He.
    rewrite (take_snapshot_run st1 id version Hf'), He, Hrep.
    unfold Application.snapshots_put in *.
    destruct (snapshot_store st) as [sdb|]; [|discriminate].
    rewrite put_single in Hrun.
    destruct (Psycopg2.has_nul (StoredEvent.topic (take a))) eqn:En;
      [discriminate|].
    destruct (Sql.in_integer (StoredEvent.originator_version (take a))) eqn:Er;
      [|discriminate].
    destruct (existsb _ (events_table sdb)); [discriminate|].
    injection Hrun as <-. cbn [snapshot_store event_store].
    rewrite put_single, En, Er. cbn [events_table rowid_seq tracking_table].
    rewrite existsb_app. cbn [existsb].
    assert (Ek : Cursor.same_key (take a) (mkRow (rowid_seq sdb + 1) (take a))
                 = true)
      by (apply same_key_iff; reflexivity).
    rewrite Ek. cbn [orb]. rewrite orb_true_r.
    eexists. split; [reflexivity|]. now split.
Qed.

End ApplicationProperties.

(** The scenario of the specification: version 2 read again after a
    further save; a second snapshot, and the same snapshot taken twice. *)
Lemma get_at_version_is_stable_witness :
  fst (Repository.get (D := journal) 161%N (Some 2)
         (snd (Application.save [P 4 x04] scenario))) =
    Ok (161%N, 2, [x01; x02]).
Proof.
  rewrite (get_at_version_is_stable (L := journal_laws) scenario [P 4 x04]
             161%N 2 scenario_reachable).
  - reflexivity.
  - intros e r [<-|[]] Hr Hid. vm_compute in Hr.
    destruct Hr as [<-|[<-|[<-|[]]]]; simpl; lia.
  - exists (mkRow 2 (P 2 x02)). split; [vm_compute; auto|].
    split; [reflexivity|]. unfold version_of. simpl. lia.
Defined.

Lemma take_snapshot_is_invisible_witness :
  fst (Repository.get (D := journal) 161%N None
         (snd (Application.take_snapshot (D := journal) 161%N (Some 3) scenario)))
    = Ok (161%N, 3, [x01; x02; x03]) /\
  map event (snapshot_rows
               (snd (Application.take_snapshot (D := journal) 161%N (Some 3)
                       scenario))) =
    [StoredEvent.make 161%N 2 "Snapshot" [x01; x02];
     StoredEvent.make 161%N 3 "Snapshot" [x01; x02; x03]].
Proof.
  destruct (take_snapshot_is_invisible (L := journal_laws) scenario 161%N
              (Some 3) scenario_reachable) as [_ H].
  split; [rewrite H|]; reflexivity.
Defined.

Lemma take_snapshot_errors_witness :
  (exists st2,
      Application.take_snapshot (D := journal) 161%N None
        (snd (Application.take_snapshot (D := journal) 161%N None
                (snd (Application.save [P 1 x01; P 2 x02]
                        (mkStores empty_database (Some empty_database))))))
        = (Raise IntegrityError, st2)) /\
  Application.take_snapshot (D := journal) 77%N None scenario =
    (Raise (AggregateNotFound 77%N None), scenario).
Proof.
  pose (st0 := snd (Application.save [P 1 x01; P 2 x02]
                      (mkStores empty_database (Some empty_database)))).
  assert (Hreach0 : reachable (D := journal) st0).
  { apply reachable_save; [apply (reachable_init empty_database true)|].
    intros e r _ []. }
  destruct (take_snapshot_errors (L := journal_laws) st0 161%N None Hreach0)
    as (_ & _ & Htwice).
  destruct (Htwice (snd (Application.take_snapshot (D := journal) 161%N None st0))
              eq_refl) as (st2 & Hrun & _ & _).
  destruct (take_snapshot_errors (L := journal_laws) scenario 77%N None
              scenario_reachable) as (Hnone & _ & _).
  split; [exists st2; exact Hrun|]. apply Hnone. reflexivity.
Defined.

(** * Further properties of the notification log *)

(** The page after a page, for notifications. *)
Lemma select_notifications_continues (start limit limit2 : Z) (db : Database)
  (page : list Notification.t) (d : Notification.t) :
  NoDup (map rowid (events_table db)) ->
  0 <= limit < 2 ^ 63 -> 0 <= limit2 < 2 ^ 63 ->
  PostgresApplicationRecorder.select_notifications start limit db =
    (Ok page, db) ->
  page <> [] ->
  exists next,
    PostgresApplicationRecorder.select_notifications
      (Notification.id (last page d) + 1) limit2 db = (Ok next, db) /\
    Forall (fun n => Notification.id (last page d) < Notification.id n) next /\
    page ++ next =
      map PostgresApplicationRecorder.notification_of
        (firstn (Z.to_nat (Z.of_nat (List.length page) + limit2))
           (Sql.order_by rowid false
              (filter (fun r => start <=? rowid r) (events_table db)))) /\
    (Z.of_nat (List.length page) + limit2 < 2 ^ 63 ->
     PostgresApplicationRecorder.select_notifications
       start (Z.of_nat (List.length page) + limit2) db
       = (Ok (page ++ next), db)).
Proof.
  intros Hnd Hlimit Hlimit2 Hpage Hne.
  set (selection := Sql.order_by rowid false
                      (filter (fun r => start <=? rowid r) (events_table db))).
  rewrite (select_notifications_Ok start limit db Hlimit) in Hpage.
  fold selection in Hpage. injection Hpage as Hpage.
  set (k := Z.to_nat limit) in *.
  assert (Hrows : firstn k selection <> [])
    by (intros E; apply Hne; rewrite <- Hpage, E; reflexivity).
  set (d0 := hd (mkRow 0 (StoredEvent.make 0%N 0 EmptyString [])) selection).
  destruct (rows_after_page (events_table db) start k d0 Hnd Hrows)
    as [Hafter Hhigh].
  fold selection in Hafter, Hhigh.
  assert (Hlast : Notification.id (last page d)
                  = rowid (last (firstn k selection) d0)).
  { rewrite <- Hpage. now rewrite (last_map_nonempty _ _ d0 d Hrows). }
  rewrite <- Hlast in Hafter, Hhigh.
  exists (map PostgresApplicationRecorder.notification_of
              (firstn (Z.to_nat limit2) (skipn k selection))).
  assert (Hall : page ++ map PostgresApplicationRecorder.notification_of
                           (firstn (Z.to_nat limit2) (skipn k selection)) =
                 map PostgresApplicationRecorder.notification_of
                   (firstn (Z.to_nat (Z.of_nat (List.length page) + limit2))
                           selection)).
  { pose proof (firstn_app_2 (Z.to_nat limit2) (firstn k selection)
                  (skipn k selection)) as E.
    rewrite firstn_skipn in E.
    rewrite <- Hpage, <- map_app, length_map, <- E.
    now rewrite Z2Nat.inj_add, Nat2Z.id by lia. }
  split; [|split; [|split]].
  - rewrite select_notifications_Ok by lia. now rewrite Hafter.
  - apply Forall_forall. intros n Hn. apply in_map_iff in Hn.
    destruct Hn as (r & <- & Hr). apply In_firstn_In in Hr.
    rewrite Forall_forall in Hhigh. now apply Hhigh.
  - exact Hall.
  - intros Hboth. rewrite select_notifications_Ok by lia. fold selection.
    now rewrite Hall.
Qed.

Lemma selected_ids_from_start (start limit : Z) (db : Database)
  (page : list Notification.t) :
  PostgresApplicationRecorder.select_notifications start limit db =
    (Ok page, db) ->
  0 <= limit < 2 ^ 63 /\
  Z.of_nat (List.length page) <= limit /\
  Forall (fun n => start <= Notification.id n) page /\
  StronglySorted (fun a b => Notification.id a <= Notification.id b) page.
Proof.
  rewrite select_notifications_run.
  unfold PostgresApplicationRecorder.select_notifications_query, Sql.limit.
  destruct (Z.ltb_spec limit 0); [discriminate|].
  destruct (Z.leb_spec (2 ^ 63) limit); [discriminate|]. intros [= <-].
  split; [lia|]. split; [|split].
  - rewrite length_map.
    pose proof (firstn_le_length (Z.to_nat limit)
                  (Sql.order_by rowid false
                     (filter (fun r => start <=? rowid r) (events_table db)))).
    lia.
  - apply Forall_forall. intros n Hn. apply in_map_iff in Hn.
    destruct Hn as (r & <- & Hr). apply In_firstn_In in Hr.
    apply sort_by_In, filter_In in Hr. destruct Hr as [_ Hr].
    now apply Z.leb_le in Hr.
  - pose proof (order_by_sorted rowid false
                  (filter (fun r => start <=? rowid r) (events_table db)))
      as Hs.
    rewrite <- (firstn_skipn (Z.to_nat limit)) in Hs.
    apply sorted_app_inv in Hs. destruct Hs as [Hs _].
    revert Hs. generalize (firstn (Z.to_nat limit)
      (Sql.order_by rowid false
         (filter (fun r => start <=? rowid r) (events_table db)))).
    induction l as [|r l IH]; intros Hs; simpl; constructor;
      inversion_clear Hs as [|? ? Hl Hr]; [now apply IH|].
    apply Forall_forall. intros n Hn. apply in_map_iff in Hn.
    destruct Hn as (r' & <- & Hr'). rewrite Forall_forall in Hr.
    exact (Hr r' Hr').
Qed.

(** X12: when a section has a next id, requesting that id returns the
    section that continues it: its items come after the last item of the
    first, and the two lists together are the notifications of the first
    rows from the first section's start, in ascending order of [rowid], as
    many as the two sections hold, so that no stored notification is
    skipped and none is repeated; they are what the recorder returns from
    that start with twice the limit, when twice the limit is a row count
    of the database, below [2 ^ 63].  Row ids are unique, as the unique
    index keeps them. *)
Theorem following_next_id (self : LocalNotificationLog.t)
  (section_id p0 p1 : string) (rest : list string) (first last_ : Z)
  (db : Database) (sec : LogSection.t) (next_id : string) :
  NoDup (map rowid (events_table db)) ->
  Py.split_comma section_id = p0 :: p1 :: rest ->
  Py.int p0 = Ok first ->
  Py.int p1 = Ok last_ ->
  LocalNotificationLog.getitem self section_id db = (Ok sec, db) ->
  LogSection.next_id sec = Some next_id ->
  exists sec' n0,
    LocalNotificationLog.getitem self next_id db = (Ok sec', db) /\
    In n0 (LogSection.items sec) /\
    Forall (fun n => Notification.id n0 < Notification.id n)
           (LogSection.items sec') /\
    Forall (fun n => Notification.id n <= Notification.id n0)
           (LogSection.items sec) /\
    (exists ordered,
        Permutation ordered
          (filter (fun r => Z.max 1 first <=? rowid r) (events_table db)) /\
        StronglySorted (fun a b => rowid a <= rowid b) ordered /\
        Forall2 carries (LogSection.items sec ++ LogSection.items sec')
          (firstn (2 * List.length (LogSection.items sec)) ordered)) /\
    (2 * Z.of_nat (List.length (LogSection.items sec)) < 2 ^ 63 ->
     PostgresApplicationRecorder.select_notifications
       (Z.max 1 first) (2 * Z.of_nat (List.length (LogSection.items sec))) db =
       (Ok (LogSection.items sec ++ LogSection.items sec'), db)).
Proof.
  intros Hnd Hs H0 H1 Hget Hnext.
  rewrite (getitem_parsed self section_id p0 p1 rest first last_ db Hs H0 H1)
    in Hget.
  cbv zeta in Hget.
  set (start := Z.max 1 first) in *.
  set (limit := Z.min (Z.max 0 (last_ - start + 1))
                      (LocalNotificationLog.section_size self)) in *.
  destruct (PostgresApplicationRecorder.select_notifications start limit db)
    as [[page|x] db0] eqn:Hsel; [|discriminate].
  injection Hget as <- ->.
  destruct (selected_ids_from_start _ _ _ _ Hsel)
    as (Hlimit & Hlen & Hfrom & Hsorted).
  destruct page as [|n0 tl]; [discriminate|].
  unfold section_from in Hnext |- *. cbn [LogSection.next_id] in Hnext.
  cbn [LogSection.items].
  set (page := n0 :: tl) in *.
  destruct (Z.eqb_spec (Z.of_nat (List.length page)) limit) as [Hfull|];
    [|discriminate].
  injection Hnext as <-.
  set (L := Notification.id (last page n0)) in *.
  assert (Hlast : In (last page n0) page) by (apply last_In; discriminate).
  assert (HL : start <= L).
  { rewrite Forall_forall in Hfrom. now apply Hfrom. }
  assert (Hpos : 1 <= limit) by (rewrite <- Hfull; subst page; simpl; lia).
  destruct (select_notifications_continues start limit limit db page n0
              Hnd Hlimit Hlimit Hsel ltac:(discriminate))
    as (next & Hsel2 & Habove & Hall & Hboth).
  fold L in Hsel2, Habove.
  destruct (format_section_id_parses (L + 1) (L + 1 + limit - 1))
    as (Hs' & H0' & H1').
  pose proof (getitem_parsed self _ _ _ [] _ _ db Hs' H0' H1') as Hget'.
  cbv zeta in Hget'.
  replace (Z.max 1 (L + 1)) with (L + 1) in Hget' by (subst start; lia).
  replace (Z.min (Z.max 0 (L + 1 + limit - 1 - (L + 1) + 1))
                 (LocalNotificationLog.section_size self))
    with limit in Hget' by (subst limit; lia).
  rewrite Hsel2 in Hget'.
  exists (section_from limit next), (last page n0).
  split; [exact Hget'|]. split; [exact Hlast|].
  rewrite section_from_items. split; [exact Habove|].
  split; [|split].
  - apply Forall_forall. intros n Hn.
    destruct (sorted_last_max _ _ n0 n Hsorted Hn) as [->|Hle]; [lia|exact Hle].
  - exists (Sql.order_by rowid false
              (filter (fun r => start <=? rowid r) (events_table db))).
    split; [apply order_by_perm|].
    split; [apply (order_by_sorted rowid false)|].
    rewrite Hall.
    replace (Z.to_nat (Z.of_nat (List.length page) + limit))
      with (2 * List.length page)%nat by lia.
    apply notification_of_carries.
  - intros Hfits. replace (2 * Z.of_nat (List.length page))
      with (Z.of_nat (List.length page) + limit) in * by lia.
    exact (Hboth Hfits).
Qed.

(** The store with gaps in pages of two: ["1,2"] holds ids 1 and 2, and
    its next id ["3,4"] gives ids 5 and 7. *)
Lemma following_next_id_witness :
  exists sec',
    LocalNotificationLog.getitem (LocalNotificationLog.make 2) "3,4"
                                 store_with_gaps = (Ok sec', store_with_gaps) /\
    map Notification.id (LogSection.items sec') = [5; 7].
Proof.
  assert (Hnd : NoDup (map rowid (events_table store_with_gaps))).
  { simpl. repeat constructor; simpl; intuition discriminate. }
  destruct (following_next_id (LocalNotificationLog.make 2)
              "1,2"%string "1"%string "2"%string [] 1 2 store_with_gaps
              _ "3,4"%string Hnd eq_refl eq_refl eq_refl eq_refl eq_refl)
    as (sec' & n0 & Hget & _).
  exists sec'. split; [exact Hget|].
  vm_compute in Hget. now injection Hget as <-.
Defined.

(** X13: whatever string is requested, [__getitem__] leaves the database
    as it is; it raises only [IndexError], [ValueError] or, when the
    section size is negative or [2 ^ 63] and more, the [DataError] of a
    LIMIT that is no row count of the database; and a section it returns
    has at most [section_size] items, with ids of at least 1 in ascending
    order, an id exactly when it has items, and a next id only when it has
    items.  With a section size from 0 and below [2 ^ 63] the log raises
    nothing but [IndexError] and [ValueError]. *)
Theorem getitem_result (self : LocalNotificationLog.t) (section_id : string)
  (db : Database) :
  snd (LocalNotificationLog.getitem self section_id db) = db /\
  match fst (LocalNotificationLog.getitem self section_id db) with
  | Raise x =>
      x = IndexError \/ x = ValueError \/
      (x = psycopg2_DataError /\
       (LocalNotificationLog.section_size self < 0 \/
        2 ^ 63 <= LocalNotificationLog.section_size self))
  | Ok sec =>
      Z.of_nat (List.length (LogSection.items sec))
        <= LocalNotificationLog.section_size self /\
      Forall (fun n => 1 <= Notification.id n) (LogSection.items sec) /\
      StronglySorted (fun a b => Notification.id a <= Notification.id b)
                     (LogSection.items sec) /\
      (LogSection.id sec = None <-> LogSection.items sec = []) /\
      (LogSection.next_id sec <> None -> LogSection.items sec <> [])
  end.
Proof.
  destruct (Py.split_comma section_id) as [|p0 [|p1 rest]] eqn:Hs.
  - now apply split_comma_nonempty in Hs.
  - unfold LocalNotificationLog.getitem, bind, lift, Py.index.
    rewrite Hs. simpl nth_error. cbv iota.
    destruct (Py.int p0) as [z|e] eqn:E; cbn [fst snd].
    + split; [reflexivity|now left].
    + split; [reflexivity|]. right. left. now apply int_raises_ValueError in E.
  - destruct (Py.int p0) as [first|e0] eqn:E0.
    + destruct (Py.int p1) as [last_|e1] eqn:E1.
      * rewrite (getitem_parsed self section_id p0 p1 rest first last_ db
                   Hs E0 E1). cbv zeta.
        set (start := Z.max 1 first).
        set (limit := Z.min (Z.max 0 (last_ - start + 1))
                            (LocalNotificationLog.section_size self)).
        destruct (PostgresApplicationRecorder.select_notifications start limit db)
          as [[page|x] db0] eqn:Hsel.
        -- pose proof Hsel as Hsel'. rewrite select_notifications_run in Hsel'.
           injection Hsel' as _ <-.
           destruct (selected_ids_from_start _ _ _ _ Hsel)
             as (Hlimit & Hlen & Hfrom & Hsorted).
           cbn [fst snd]. split; [reflexivity|].
           rewrite section_from_items.
           split; [subst limit; lia|]. split.
           ++ eapply Forall_impl; [|exact Hfrom]. cbv beta.
              intros n Hn. subst start. lia.
           ++ split; [exact Hsorted|].
              destruct page as [|n0 tl]; cbn [section_from LogSection.id
                LogSection.next_id LogSection.items].
              ** split; [tauto|]. intros H. now contradiction H.
              ** split; [split; discriminate|discriminate].
        -- rewrite select_notifications_run in Hsel.
           unfold PostgresApplicationRecorder.select_notifications_query,
             Sql.limit in Hsel.
           destruct (Z.ltb_spec limit 0) as [Hneg|];
             [|destruct (Z.leb_spec (2 ^ 63) limit) as [Hbig|];
               [|discriminate]];
             injection Hsel as <- <-; cbn [fst snd]; (split; [reflexivity|]);
             right; right; (split; [reflexivity|]); subst limit; lia.
      * unfold LocalNotificationLog.getitem, bind, lift, Py.index.
        rewrite Hs. simpl nth_error. cbv iota. rewrite E0, E1. cbn [fst snd].
        split; [reflexivity|]. right. left.
        now apply int_raises_ValueError in E1.
    + unfold LocalNotificationLog.getitem, bind, lift, Py.index.
      rewrite Hs. simpl nth_error. cbv iota. rewrite E0. cbn [fst snd].
      split; [reflexivity|]. right. left.
      now apply int_raises_ValueError in E0.
Qed.

(** * Further properties of the repository *)

Lemma latest_snapshot_max (st : Stores) (id : UUID) (version : option Z)
  (s : Row) :
  latest_snapshot st id version = [s] ->
  In s (snapshot_rows st) /\
  PostgresAggregateRecorder.where_ id None version s = true /\
  forall r, In r (snapshot_rows st) ->
            PostgresAggregateRecorder.where_ id None version r = true ->
            version_of r <= version_of s.
Proof.
  unfold latest_snapshot, snapshot_rows.
  destruct (snapshot_store st) as [sdb|]; [|discriminate].
  set (F := filter (PostgresAggregateRecorder.where_ id None version)
                   (events_table sdb)).
  pose proof (order_by_perm version_of true F) as Hperm.
  pose proof (order_by_sorted version_of true F) as Hsorted.
  destruct (Sql.order_by version_of true F) as [|s0 l]; [discriminate|].
  cbn [firstn]. intros [= <-].
  assert (Hs : In s0 F) by (eapply Permutation_in; [exact Hperm|now left]).
  apply filter_In in Hs. split; [tauto|]. split; [tauto|].
  intros r Hr Hw.
  assert (Hin : In r (s0 :: l)).
  { eapply Permutation_in; [symmetry; exact Hperm|]. now apply filter_In. }
  inversion_clear Hsorted as [|? ? _ Hall]. rewrite Forall_forall in Hall.
  destruct Hin as [<-|Hin]; [lia|]. exact (Hall r Hin).
Qed.

Section RepositoryProperties.
Context {D : Domain} {L : DomainLaws D}.

(** X14: the aggregate that [Repository.get] returns has the requested id,
    and its version is that of a stored event of the aggregate: the
    highest one, or the highest one within the requested version. *)
Theorem get_returns_requested (st : Stores) (id : UUID) (version : option Z)
  (a : Aggregate) (st' : Stores) :
  reachable st ->
  Repository.get id version st = (Ok a, st') ->
  st' = st /\
  aggregate_id a = id /\
  (forall v, version = Some v -> aggregate_version a <= v) /\
  exists r,
    In r (events_table (event_store st)) /\
    StoredEvent.originator_id (event r) = id /\
    version_of r = aggregate_version a /\
    forall r', In r' (events_table (event_store st)) ->
      StoredEvent.originator_id (event r') = id ->
      (forall v, version = Some v -> version_of r' <= v) ->
      version_of r' <= aggregate_version a.
Proof.
  intros Hreach Hget.
  rewrite (get_replay st id version (reachable_faithful st Hreach)) in Hget.
  destruct (replay (event_store st) id version) as [a0|] eqn:Hrep;
    [|discriminate].
  injection Hget as -> <-. split; [reflexivity|].
  destruct (replay_last_event _ _ _ _ Hrep) as (r & Hr & Hw & Hv & Hid & Hmax).
  apply eligible_iff in Hw. destruct Hw as [Hidr Hle].
  split; [exact Hid|]. split.
  - intros v Hv'. rewrite <- Hv. unfold version_of. now apply Hle.
  - exists r. split; [exact Hr|]. split; [exact Hidr|]. split; [exact Hv|].
    intros r' Hr' Hid' Hle'. rewrite <- Hv. apply (Hmax r' Hr').
    apply eligible_iff. split; [exact Hid'|exact Hle'].
Qed.

(** X15: right after [take_snapshot] of an aggregate has returned,
    [Repository.get] of that aggregate finds that snapshot's version as the
    latest, reads no event above it, and returns the snapshot's
    aggregate. *)
Theorem get_after_take_snapshot (st st1 : Stores) (id : UUID) :
  reachable st ->
  Application.take_snapshot id None st = (Ok tt, st1) ->
  exists s,
    latest_snapshot st1 id None = [s] /\
    stream_rows (event_store st1) id (Some (version_of s)) None = [] /\
    Repository.get id None st1 = (Ok (mutate (event s) None), st1).
Proof.
  intros Hreach Hrun.
  pose proof (reachable_faithful st Hreach) as Hf.
  pose proof (take_snapshot_faithful st id None Hf) as Hf1.
  pose proof (take_snapshot_event_store st id None Hf) as He.
  rewrite (take_snapshot_run st id None Hf) in Hrun.
  rewrite (take_snapshot_run st id None Hf) in Hf1, He.
  destruct (replay (event_store st) id None) as [a|] eqn:Hrep; [|discriminate].
  rewrite Hrun in Hf1, He. cbn [snd] in Hf1, He.
  destruct (replay_last_event _ _ _ _ Hrep) as (r0 & Hr0 & Hw0 & Hv0 & Hida & Hmax).
  (* the new snapshot is stored, at the aggregate's version *)
  assert (Hnew : exists n, In (mkRow n (take a)) (snapshot_rows st1)).
  { unfold Application.snapshots_put in Hrun.
    destruct (snapshot_store st) as [sdb|]; [|discriminate].
    rewrite put_single in Hrun.
    destruct (Psycopg2.has_nul _); [discriminate|].
    destruct (Sql.in_integer _); [|discriminate].
    destruct (existsb _ _); [discriminate|].
    injection Hrun as <-. exists (rowid_seq sdb + 1).
    unfold snapshot_rows. cbn [snapshot_store events_table].
    apply in_or_app. right. now left. }
  destruct Hnew as (n & Hnew).
  assert (Hwnew : PostgresAggregateRecorder.where_ id None None
                    (mkRow n (take a)) = true).
  { apply eligible_iff. cbn [event]. split; [|discriminate].
    now rewrite take_id. }
  destruct (latest_snapshot_spec st1 id None) as [[_ Hnone] | (s & Hs & _)].
  { rewrite (Hnone _ Hnew) in Hwnew. discriminate. }
  destruct (latest_snapshot_max st1 id None s Hs) as (Hsin & Hws & Hsmax).
  exists s. split; [exact Hs|].
  (* its version is the highest version of the stream *)
  assert (Hge : aggregate_version a <= version_of s).
  { specialize (Hsmax _ Hnew Hwnew). unfold version_of in Hsmax at 1.
    cbn [event] in Hsmax. now rewrite take_version in Hsmax. }
  assert (Hids : StoredEvent.originator_id (event s) = id)
    by (apply eligible_iff in Hws; tauto).
  assert (Hle : version_of s <= aggregate_version a).
  { pose proof (Hf1 s Hsin) as Hfs. rewrite He, Hids in Hfs.
    destruct (replay_last_event _ _ _ _ Hfs) as (r1 & Hr1 & Hw1 & Hv1 & _).
    rewrite mutate_version in Hv1. fold (version_of s) in Hv1.
    rewrite <- Hv1, <- Hv0. apply (Hmax r1 Hr1).
    apply eligible_iff. apply eligible_iff in Hw1. split; [tauto|discriminate]. }
  assert (Hnil : stream_rows (event_store st1) id (Some (version_of s)) None = []).
  { apply stream_rows_nil. rewrite He. intros r Hr.
    destruct (PostgresAggregateRecorder.where_ id (Some (version_of s)) None r)
      eqn:Ew; [|reflexivity].
    exfalso. apply where_spec in Ew. destruct Ew as (Hidr & Hgt & _).
    specialize (Hgt _ eq_refl).
    assert (Hr' : version_of r <= version_of r0).
    { apply (Hmax r Hr). apply eligible_iff. split; [exact Hidr|discriminate]. }
    unfold version_of in *. lia. }
  split; [exact Hnil|].
  rewrite get_run. cbv zeta. rewrite Hs, Hnil. reflexivity.
Qed.

End RepositoryProperties.

(** The scenario read at version 2: the aggregate of version 2. *)
Lemma get_returns_requested_witness :
  Repository.get (D := journal) 161%N (Some 2) scenario =
    (Ok (161%N, 2, [x01; x02]), scenario) /\
  @aggregate_id journal (161%N, 2, [x01; x02]) = 161%N /\
  exists r,
    In r (events_table (event_store scenario)) /\
    version_of r = @aggregate_version journal (161%N, 2, [x01; x02]).
Proof.
  destruct (get_returns_requested (L := journal_laws) scenario 161%N (Some 2)
              (161%N, 2, [x01; x02]) scenario scenario_reachable eq_refl)
    as (_ & Hid & _ & r & Hr & _ & Hv & _).
  split; [reflexivity|]. split; [exact Hid|]. exists r. now split.
Defined.

(** The scenario after one more snapshot: it is at version 3 and no event
    is read. *)
Lemma get_after_take_snapshot_witness :
  exists s,
    latest_snapshot
      (snd (Application.take_snapshot (D := journal) 161%N None scenario))
      161%N None = [s] /\
    version_of s = 3 /\
    stream_rows
      (event_store
         (snd (Application.take_snapshot (D := journal) 161%N None scenario)))
      161%N (Some (version_of s)) None = [].
Proof.
  destruct (get_after_take_snapshot (L := journal_laws) scenario
              (snd (Application.take_snapshot (D := journal) 161%N None scenario))
              161%N scenario_reachable eq_refl) as (s & Hs & Hnil & _).
  exists s. split; [exact Hs|]. split; [|exact Hnil].
  vm_compute in Hs. now injection Hs as <-.
Defined.

(** * Properties of the connections *)

Module ConnectionFacts.
Import PostgresConnections.

Lemma lookup_In (d : list (Z * connection)) (k : Z) (c : connection) :
  lookup d k = Some c -> In (k, c) d.
Proof.
  induction d as [|[k' c'] d IH]; simpl; [discriminate|].
  destruct (Z.eqb_spec k' k) as [->|]; [intros [= ->]; now left|].
  intros H. right. now apply IH.
Qed.

Lemma lookup_None (d : list (Z * connection)) (k : Z) :
  lookup d k = None -> ~ In k (map fst d).
Proof.
  induction d as [|[k' c'] d IH]; simpl; [tauto|].
  destruct (Z.eqb_spec k' k) as [->|Hne]; [discriminate|].
  intros H [Hk|Hk]; [contradiction|now apply IH].
Qed.

Lemma assign_absent (d : list (Z * connection)) (k : Z) (c : connection) :
  lookup d k = None -> assign d k c = d ++ [(k, c)].
Proof.
  induction d as [|[k' c'] d IH]; simpl; [reflexivity|].
  destruct (Z.eqb_spec k' k); [discriminate|]. intros H. now rewrite IH.
Qed.

Lemma lookup_app (d : list (Z * connection)) (k k' : Z) (c : connection) :
  lookup (d ++ [(k, c)]) k' =
    match lookup d k' with
    | Some c' => Some c'
    | None => if k =? k' then Some c else None
    end.
Proof.
  induction d as [|[k0 c0] d IH]; simpl; [reflexivity|].
  destruct (k0 =? k'); [reflexivity|exact IH].
Qed.

Lemma nodup_map_determines {A B : Type} (f : A -> B) (l : list A) (x y : A) :
  NoDup (map f l) -> In x l -> In y l -> f x = f y -> x = y.
Proof.
  induction l as [|a l IH]; simpl; intros Hnd Hx Hy Hf; [destruct Hx|].
  inversion_clear Hnd as [|? ? Ha Hrest].
  destruct Hx as [->|Hx], Hy as [->|Hy]; auto.
  - exfalso. apply Ha. rewrite Hf. now apply in_map.
  - exfalso. apply Ha. rewrite <- Hf. now apply in_map.
Qed.

End ConnectionFacts.

(** X16: [get_connection] opens at most one connection per thread and
    keeps it: the connection it returns for a thread is returned again by
    every later call of that thread, whatever the environment has become,
    with nothing opened; a thread without a connection gets a new one,
    opened with the parameters of the environment (or their defaults); and
    the connections of the other threads stay theirs and differ from it. *)
Theorem get_connection_caches (env : string -> option string) (thread_id : Z)
  (s : PostgresConnections.t) :
  connections_consistent s ->
  let c := fst (PostgresConnections.get_connection env thread_id s) in
  let s1 := snd (PostgresConnections.get_connection env thread_id s) in
  connections_consistent s1 /\
  (forall env', PostgresConnections.get_connection env' thread_id s1 = (c, s1)) /\
  (forall t' c',
      t' <> thread_id ->
      PostgresConnections.lookup (PostgresConnections.connections s) t'
        = Some c' ->
      PostgresConnections.lookup (PostgresConnections.connections s1) t'
        = Some c' /\ c' <> c) /\
  match PostgresConnections.lookup (PostgresConnections.connections s)
                                   thread_id with
  | Some c0 => c = c0 /\ s1 = s
  | None =>
      PostgresConnections.opened s1 = S (PostgresConnections.opened s) /\
      c = PostgresConnections.mkConnection
            (PostgresConnections.getenv env "POSTGRES_DBNAME" "eventsourcing")
            (PostgresConnections.getenv env "POSTGRES_HOST" "127.0.0.1")
            (PostgresConnections.getenv env "POSTGRES_USER" "eventsourcing")
            (PostgresConnections.getenv env "POSTGRES_PASSWORD" "eventsourcing")
            (PostgresConnections.opened s)
  end.
Proof.
  intros (Hkeys & Hserials & Hbound). cbv zeta.
  unfold PostgresConnections.get_connection,
    PostgresConnections.create_connection.
  destruct (PostgresConnections.lookup (PostgresConnections.connections s)
                                       thread_id) as [c0|] eqn:Hlook;
    cbn [fst snd PostgresConnections.connections PostgresConnections.opened].
  - split; [now repeat split|]. split; [intros env'; now rewrite Hlook|].
    split; [|now split]. intros t' c' Hne Hl'. split; [exact Hl'|].
    intros ->. apply Hne.
    apply ConnectionFacts.lookup_In in Hlook, Hl'.
    pose proof (ConnectionFacts.nodup_map_determines
                  (fun kc => PostgresConnections.serial (snd kc)) _
                  (t', c0) (thread_id, c0) Hserials Hl' Hlook eq_refl) as E.
    now injection E.
  - rewrite (ConnectionFacts.assign_absent _ _ _ Hlook).
    set (c := PostgresConnections.mkConnection _ _ _ _ _).
    rewrite Forall_forall in Hbound.
    split; [|split; [|split; [|now split]]].
    + unfold connections_consistent.
      cbn [PostgresConnections.connections PostgresConnections.opened].
      rewrite !map_app. split; [|split].
      * apply NoDup_app; [exact Hkeys|repeat constructor; intros []|].
        intros k Hk [<-|[]]. now apply ConnectionFacts.lookup_None in Hlook.
      * apply NoDup_app; [exact Hserials|repeat constructor; intros []|].
        intros n Hn [<-|[]]. apply in_map_iff in Hn.
        destruct Hn as (kc & Hser & Hin). specialize (Hbound kc Hin).
        cbn [snd c PostgresConnections.serial] in Hser. lia.
      * apply Forall_app. split; [|repeat constructor; simpl; lia].
        apply Forall_forall. intros kc Hin. specialize (Hbound kc Hin). lia.
    + intros env'. cbn [PostgresConnections.connections].
      rewrite ConnectionFacts.lookup_app, Hlook, Z.eqb_refl. reflexivity.
    + intros t' c' Hne Hl'. rewrite ConnectionFacts.lookup_app, Hl'.
      split; [reflexivity|]. intros ->.
      apply ConnectionFacts.lookup_In in Hl'. specialize (Hbound _ Hl').
      cbn [snd c PostgresConnections.serial] in Hbound. lia.
Qed.

(** The first call of thread 7 with an empty environment, on a database
    object that has no connection yet: the connection has the default
    parameters, and the thread gets it again whatever the environment. *)
Lemma get_connection_caches_witness :
  let none := fun _ : string => @None string in
  let s1 := snd (PostgresConnections.get_connection none 7
                   PostgresConnections.init) in
  connections_consistent PostgresConnections.init /\
  forall env',
    PostgresConnections.get_connection env' 7 s1 =
      (PostgresConnections.mkConnection "eventsourcing" "127.0.0.1"
         "eventsourcing" "eventsourcing" 0, s1).
Proof.
  cbv zeta.
  assert (H0 : connections_consistent PostgresConnections.init)
    by (repeat split; simpl; constructor).
  split; [exact H0|].
  exact (proj1 (proj2 (get_connection_caches (fun _ => None) 7
                         PostgresConnections.init H0))).
Defined.
